(** * kioku: the memoization cache of [src/index.ts]

    A shallow embedding of the LRU+TTL store ([class LruCache]), of the
    identity registry, of the argument serializer and of the memoization
    facade ([memoize], [setup], [clearCache], [getCacheStats]), followed by
    the properties of the specification.

    Conventions of the embedding.
    - The numbers that the store manipulates ([max], [ttl], the clock,
      [size]) are integers and are modelled in [Z].
    - [Date.now()] is an input: every operation that reads the clock takes
      the reading as its argument [now] (one reading per operation, the
      operations being synchronous).
    - A [Map] iterates in insertion order, and the eviction policy depends
      on that order: the map is an association list, oldest entry first,
      with the three primitives [map_get], [map_delete] and [map_set] of
      the language.  The position of an entry is its recency: an entry is
      touched when it is set, and when a [get] moves it to the end.
    - The module state ([cache], the three registries and their counters)
      is threaded through the functions; the weak maps are plain maps
      (garbage collection is not modelled).
    - A wrapped function returns or throws, and acts on the state of the
      program outside the library; [this] is not modelled, and
      [copyFunctionMetadata] is left out.  The facade comes twice.  In
      [Kioku] a wrapped function is a state transformer: it does not use
      the library while it runs.  In [Reentrant] the run of a wrapped
      function is a tree of library operations (calls of memoized
      functions, [memoize], [setup], [clearCache], [getCacheStats]) that
      ends in a completion, as for a recursive memoized function; on the
      functions that do not use the library the two agree
      ([memoized_lift]).
    - A promise is a cell that is pending or settled.  The continuations
      that [cachePromiseResult] suspends are jobs of a queue, and the
      events of the program (calls, settlements, runs of ready jobs,
      reconfigurations) are the steps of a transition function. *)

From Stdlib Require Import ZArith List String Ascii Bool Lia.
From Stdlib Require Import DecimalString.
From Stdlib Require DecimalNat DecimalZ.
Import ListNotations.

Local Open Scope string_scope.
Local Open Scope Z_scope.

(** ** Configuration *)

(** [type CacheConfig = {max?: number; ttl?: number}]: absent fields are
    [None]. *)
Record CacheConfig : Type := mkCacheConfig {
  cfg_max : option Z;
  cfg_ttl : option Z
}.

(** [type RequiredCacheConfig = Required<CacheConfig>]. *)
Record RequiredCacheConfig : Type := mkRequiredCacheConfig {
  max : Z;
  ttl : Z
}.

Definition defaultOptions : RequiredCacheConfig :=
  {| max := 100; ttl := 5 * 60 * 1000 |}.

(** The object spread [{...defaultOptions, ...options}] of the constructor. *)
Definition mergeOptions (base : RequiredCacheConfig) (o : CacheConfig)
  : RequiredCacheConfig :=
  {| max := match cfg_max o with Some m => m | None => max base end;
     ttl := match cfg_ttl o with Some t => t | None => ttl base end |}.

(** [defaultOptions] seen as a [CacheConfig] (it is passed to the
    constructor for the initial store). *)
Definition asConfig (o : RequiredCacheConfig) : CacheConfig :=
  {| cfg_max := Some (max o); cfg_ttl := Some (ttl o) |}.

(** ** The eviction store: [class LruCache<K, V>]

    The only instance of the class in the program has [K = string]. *)
Module Store.
Section LruCache.

Variable V : Type.

(** [type CacheEntryWrapper<V> = {value: V; expiresAt?: number}]. *)
Record CacheEntryWrapper : Type := mkWrapper {
  value : V;
  expiresAt : option Z
}.

Definition Items : Type := list (string * CacheEntryWrapper).

Record LruCache : Type := mkLruCache {
  options : RequiredCacheConfig;
  items : Items
}.

(** *** The primitives of [Map] *)

Fixpoint map_get (key : string) (m : Items) : option CacheEntryWrapper :=
  match m with
  | [] => None
  | (k, e) :: rest => if String.eqb k key then Some e else map_get key rest
  end.

Definition map_delete (key : string) (m : Items) : Items :=
  filter (fun p => negb (String.eqb (fst p) key)) m.

(** [Map.prototype.set]: an existing key keeps its position, a new key goes
    last. *)
Fixpoint map_set (key : string) (e : CacheEntryWrapper) (m : Items) : Items :=
  match m with
  | [] => [(key, e)]
  | (k, e') :: rest =>
      if String.eqb k key then (key, e) :: rest
      else (k, e') :: map_set key e rest
  end.

Definition map_size (m : Items) : Z := Z.of_nat (List.length m).

Definition keys (m : Items) : list string := List.map fst m.

(** *** The class *)

Definition new_LruCache (o : CacheConfig) : LruCache :=
  {| options := mergeOptions defaultOptions o; items := [] |}.

(** [this.hasTtl = this.options.ttl > 0], fixed by the constructor. *)
Definition hasTtl (c : LruCache) : bool := 0 <? ttl (options c).

Definition with_items (c : LruCache) (m : Items) : LruCache :=
  {| options := options c; items := m |}.

(** [isExpired(entry)]. *)
Definition isExpired (now : Z) (e : CacheEntryWrapper) : bool :=
  match expiresAt e with
  | Some t => t <=? now
  | None => false
  end.

(** [pruneExpired()]: every expired entry is deleted. *)
Definition pruneExpired (now : Z) (m : Items) : Items :=
  match m with
  | [] => []
  | _ => filter (fun p => negb (isExpired now (snd p))) m
  end.

(** The [while] loop of [evictOverflow]: the key iterator yields the oldest
    remaining key, which is deleted; the loop stops when [toRemove] reaches
    zero or when the iterator is exhausted. *)
Fixpoint evictLoop (toRemove : nat) (m : Items) : Items :=
  match toRemove with
  | O => m
  | S n =>
      match m with
      | [] => m
      | (oldestKey, _) :: _ => evictLoop n (map_delete oldestKey m)
      end
  end.

Definition evictOverflow (now : Z) (c : LruCache) : LruCache :=
  if max (options c) <=? 0 then with_items c []
  else
    let m := if hasTtl c then pruneExpired now (items c) else items c in
    let toRemove := map_size m - max (options c) in
    if 0 <? toRemove then with_items c (evictLoop (Z.to_nat toRemove) m)
    else with_items c m.

(** [get size()]. *)
Definition size (now : Z) (c : LruCache) : Z * LruCache :=
  let m := if hasTtl c then pruneExpired now (items c) else items c in
  (map_size m, with_items c m).

(** [get(key)].  The test [this.items.size > this.options.max * 0.9] is
    taken over the integers as [9 * max < 10 * size]. *)
Definition get (key : string) (now : Z) (c : LruCache) : option V * LruCache :=
  match map_get key (items c) with
  | None => (None, c)
  | Some entry =>
      if hasTtl c && isExpired now entry
      then (None, with_items c (map_delete key (items c)))
      else
        let m :=
          if 9 * max (options c) <? 10 * map_size (items c)
          then map_set key entry (map_delete key (items c))
          else items c in
        (Some (value entry), with_items c m)
  end.

(** [has(key)]. *)
Definition has (key : string) (now : Z) (c : LruCache) : bool * LruCache :=
  match map_get key (items c) with
  | None => (false, c)
  | Some entry =>
      if hasTtl c && isExpired now entry
      then (false, with_items c (map_delete key (items c)))
      else (true, c)
  end.

(** [set(key, value)]. *)
Definition set (key : string) (v : V) (now : Z) (c : LruCache) : LruCache :=
  let m := map_delete key (items c) in
  let entry :=
    if hasTtl c
    then {| value := v; expiresAt := Some (now + ttl (options c)) |}
    else {| value := v; expiresAt := None |} in
  evictOverflow now (with_items c (map_set key entry m)).

(** [delete(key)]: [Map.prototype.delete] tells whether the key was there. *)
Definition delete (key : string) (c : LruCache) : bool * LruCache :=
  (match map_get key (items c) with Some _ => true | None => false end,
   with_items c (map_delete key (items c))).

(** [clear()]. *)
Definition clear (c : LruCache) : LruCache := with_items c [].

(** [entries()], driven to the end: the pairs it yields, and the store
    without the expired entries it met. *)
Definition entries (now : Z) (c : LruCache) : list (string * V) * LruCache :=
  let live :=
    filter (fun p => negb (hasTtl c && isExpired now (snd p))) (items c) in
  (List.map (fun p => (fst p, value (snd p))) live, with_items c live).

(** The loop of [setup]: the pairs that [entries] yields are set, one
    after the other, in the new store. *)
Definition migrate (now : Z) (pairs : list (string * V)) (c : LruCache)
  : LruCache :=
  fold_left (fun c0 kv => set (fst kv) (snd kv) now c0) pairs c.

(** *** Sequences of operations *)

Inductive Op : Type :=
| OpSet (key : string) (v : V) (now : Z)
| OpGet (key : string) (now : Z)
| OpHas (key : string) (now : Z)
| OpDelete (key : string)
| OpClear
| OpSize (now : Z)
| OpEntries (now : Z).

Definition apply (op : Op) (c : LruCache) : LruCache :=
  match op with
  | OpSet k v now => set k v now c
  | OpGet k now => snd (get k now c)
  | OpHas k now => snd (has k now c)
  | OpDelete k => snd (delete k c)
  | OpClear => clear c
  | OpSize now => snd (size now c)
  | OpEntries now => snd (entries now c)
  end.

Definition run (ops : list Op) (c : LruCache) : LruCache :=
  fold_left (fun c op => apply op c) ops c.

(** The entries that [set] leaves after [n] insertions are the last ones:
    [lastn n l] is the suffix of [l] of length [n]. *)
Definition lastn {A : Type} (n : nat) (l : list A) : list A :=
  skipn (List.length l - n) l.

(** *** Vocabulary of the properties *)

(** The keys of a [Map] are distinct. *)
Definition wf (c : LruCache) : Prop := NoDup (keys (items c)).

(** The capacity bound. *)
Definition bounded (c : LruCache) : Prop :=
  map_size (items c) <= max (options c).

(** The record that [set] builds. *)
Definition newEntry (c : LruCache) (v : V) (now : Z) : CacheEntryWrapper :=
  {| value := v;
     expiresAt := if hasTtl c then Some (now + ttl (options c)) else None |}.

(** The entries that survive the pruning step of [evictOverflow]. *)
Definition live (c : LruCache) (now : Z) (m : Items) : Items :=
  if hasTtl c then pruneExpired now m else m.

Definition setsKey (key : string) (op : Op) : bool :=
  match op with
  | OpSet k _ _ => String.eqb k key
  | _ => false
  end.

(** The key and the record of an insertion [(key, value, clock)]. *)
Definition recordOf (c : LruCache) (kv : string * V * Z)
  : string * CacheEntryWrapper :=
  (fst (fst kv), newEntry c (snd (fst kv)) (snd kv)).

(** A run of insertions, each with its value and its clock reading. *)
Definition insertAll (kvs : list (string * V * Z)) : list Op :=
  List.map (fun kv => OpSet (fst (fst kv)) (snd (fst kv)) (snd kv)) kvs.

End LruCache.

Arguments value {V} _.
Arguments expiresAt {V} _.
Arguments mkWrapper {V} _ _.
Arguments options {V} _.
Arguments items {V} _.
Arguments mkLruCache {V} _ _.
Arguments map_get {V} _ _.
Arguments map_delete {V} _ _.
Arguments map_set {V} _ _ _.
Arguments map_size {V} _.
Arguments keys {V} _.
Arguments new_LruCache {V} _.
Arguments hasTtl {V} _.
Arguments with_items {V} _ _.
Arguments isExpired {V} _ _.
Arguments pruneExpired {V} _ _.
Arguments evictLoop {V} _ _.
Arguments evictOverflow {V} _ _.
Arguments size {V} _ _.
Arguments get {V} _ _ _.
Arguments has {V} _ _ _.
Arguments set {V} _ _ _ _.
Arguments delete {V} _ _.
Arguments clear {V} _.
Arguments entries {V} _ _.
Arguments migrate {V} _ _ _.
Arguments OpSet {V} _ _ _.
Arguments OpGet {V} _ _.
Arguments OpHas {V} _ _.
Arguments OpDelete {V} _.
Arguments OpClear {V}.
Arguments OpSize {V} _.
Arguments OpEntries {V} _.
Arguments apply {V} _ _.
Arguments run {V} _ _.
Arguments wf {V} _.
Arguments bounded {V} _.
Arguments newEntry {V} _ _ _.
Arguments live {V} _ _ _.
Arguments setsKey {V} _ _.
Arguments insertAll {V} _.
Arguments recordOf {V} _ _.

End Store.

(** ** JavaScript values

    The values that cross the facade.  Strings are sequences of code units
    below 256 (the type [string] of Rocq); numbers are the integers, the two
    infinities, [NaN] and negative zero (fractional doubles are not
    modelled).  The shape tests [isPromise], [isAsyncGenerator] and
    [isGenerator] look at the members of an object; the embedding records
    the shape of an object in its constructor. *)

Inductive JsNumber : Type :=
| NumNaN
| NumNegZero
| NumInfinity
| NumNegInfinity
| NumInt (z : Z).

(** A symbol: its identity, its key in the global registry
    ([Symbol.keyFor]) and its description. *)
Record JsSymbol : Type := mkSymbol {
  sym_ref : nat;
  sym_keyFor : option string;
  sym_description : option string
}.

(** Promises created by the wrapped functions and promises created by the
    library ([wrapped] and the promise of the [async] function
    [cachePromiseResult]) live in two name spaces. *)
Inductive PromiseRef : Type :=
| UserPromise (n : nat)
| LibPromise (n : nat).

Inductive Value : Type :=
| VNull
| VUndefined
| VBoolean (b : bool)
| VNumber (n : JsNumber)
| VBigInt (z : Z)
| VString (s : string)
| VSymbol (s : JsSymbol)
| VFunction (f : nat)
| VObject (o : nat)
| VPromise (p : PromiseRef)
| VGenerator (g : nat)
| VAsyncGenerator (g : nat).

Definition JsNumber_eq_dec (a b : JsNumber) : {a = b} + {a <> b}.
Proof. decide equality. apply Z.eq_dec. Defined.

Definition JsSymbol_eq_dec (a b : JsSymbol) : {a = b} + {a <> b}.
Proof.
  decide equality;
    first [ apply Nat.eq_dec | decide equality; apply string_dec ].
Defined.

Definition PromiseRef_eq_dec (a b : PromiseRef) : {a = b} + {a <> b}.
Proof. decide equality; apply Nat.eq_dec. Defined.

Definition Value_eq_dec (a b : Value) : {a = b} + {a <> b}.
Proof.
  decide equality;
    first [ apply Nat.eq_dec | apply Z.eq_dec | apply string_dec
          | apply bool_dec | apply JsNumber_eq_dec | apply JsSymbol_eq_dec
          | apply PromiseRef_eq_dec ].
Defined.

(** [const undefinedValue = Symbol('kioku-undefined')] is private to the
    module: no value of the program is equal to it.  A marshalled value is
    the sentinel or a value. *)
Inductive Marshalled : Type :=
| undefinedValue
| Plain (v : Value).

(** [value ?? undefinedValue]: the nullish coalescing operator takes its
    right operand when the left one is [null] or [undefined]. *)
Definition marshallUndefined (v : Value) : Marshalled :=
  match v with
  | VNull | VUndefined => undefinedValue
  | _ => Plain v
  end.

Definition unmarshallUndefined (m : Marshalled) : Value :=
  match m with
  | undefinedValue => VUndefined
  | Plain v => v
  end.

(** [type CacheEntry]: the tag [kind] and the payload [value]. *)
Inductive CacheEntry : Type :=
| EValue (v : Marshalled)
| EPromise (v : Value)
| EGenerator (v : Value)
| EAsyncGenerator (v : Value).

Definition isPromise (v : Value) : bool :=
  match v with VPromise _ => true | _ => false end.

Definition isGenerator (v : Value) : bool :=
  match v with VGenerator _ => true | _ => false end.

Definition isAsyncGenerator (v : Value) : bool :=
  match v with VAsyncGenerator _ => true | _ => false end.

(** ** The identity registry *)

Record Registry : Type := mkRegistry {
  objectIds : list (Value * string);
  nextObjectId : nat;
  functionIds : list (nat * string);
  nextFunctionId : nat;
  symbolIds : list (JsSymbol * string);
  nextSymbolId : nat
}.

Definition emptyRegistry : Registry :=
  {| objectIds := []; nextObjectId := 0;
     functionIds := []; nextFunctionId := 0;
     symbolIds := []; nextSymbolId := 0 |}.

Fixpoint assoc {A B : Type} (eq_dec : forall a b : A, {a = b} + {a <> b})
  (k : A) (l : list (A * B)) : option B :=
  match l with
  | [] => None
  | (k', v) :: rest => if eq_dec k' k then Some v else assoc eq_dec k rest
  end.

(** The decimal numeral of a template literal [${n}]. *)
Definition natToString (n : nat) : string :=
  NilZero.string_of_uint (Nat.to_uint n).

Definition intToString (z : Z) : string :=
  NilZero.string_of_int (Z.to_int z).

(** A string is truthy when it is not empty. *)
Definition truthy (s : string) : bool :=
  match s with EmptyString => false | _ => true end.

Definition orElse {A : Type} (o : option A) (d : A) : A :=
  match o with Some a => a | None => d end.

(** The identifiers handed out are never empty, so [if (existing)] is the
    test that the key is in the map. *)
Definition idForObject (v : Value) (r : Registry) : string * Registry :=
  match assoc Value_eq_dec v (objectIds r) with
  | Some existing => (existing, r)
  | None =>
      let id := "obj:" ++ natToString (nextObjectId r) in
      (id, {| objectIds := (v, id) :: objectIds r;
              nextObjectId := S (nextObjectId r);
              functionIds := functionIds r;
              nextFunctionId := nextFunctionId r;
              symbolIds := symbolIds r;
              nextSymbolId := nextSymbolId r |})
  end.

Definition idForFunction (f : nat) (r : Registry) : string * Registry :=
  match assoc Nat.eq_dec f (functionIds r) with
  | Some existing => (existing, r)
  | None =>
      let id := "fn:" ++ natToString (nextFunctionId r) in
      (id, {| objectIds := objectIds r;
              nextObjectId := nextObjectId r;
              functionIds := (f, id) :: functionIds r;
              nextFunctionId := S (nextFunctionId r);
              symbolIds := symbolIds r;
              nextSymbolId := nextSymbolId r |})
  end.

Definition idForSymbol (s : JsSymbol) (r : Registry) : string * Registry :=
  match assoc JsSymbol_eq_dec s (symbolIds r) with
  | Some existing => (existing, r)
  | None =>
      match sym_keyFor s with
      | Some globalKey =>
          if truthy globalKey then ("gSymbol:" ++ globalKey, r)
          else
            let id := "symbol:" ++ natToString (nextSymbolId r) ++ ":"
                      ++ orElse (sym_description s) "" in
            (id, {| objectIds := objectIds r;
                    nextObjectId := nextObjectId r;
                    functionIds := functionIds r;
                    nextFunctionId := nextFunctionId r;
                    symbolIds := (s, id) :: symbolIds r;
                    nextSymbolId := S (nextSymbolId r) |})
      | None =>
          let id := "symbol:" ++ natToString (nextSymbolId r) ++ ":"
                    ++ orElse (sym_description s) "" in
          (id, {| objectIds := objectIds r;
                  nextObjectId := nextObjectId r;
                  functionIds := functionIds r;
                  nextFunctionId := nextFunctionId r;
                  symbolIds := (s, id) :: symbolIds r;
                  nextSymbolId := S (nextSymbolId r) |})
      end
  end.

(** A registry [r'] extends [r] when every identifier handed out in [r]
    is still the one of [r'], and a symbol of the global registry that has
    no identifier of its own in [r] has none in [r'] either. *)
Definition extends (r r' : Registry) : Prop :=
  (forall v id, assoc Value_eq_dec v (objectIds r) = Some id ->
                assoc Value_eq_dec v (objectIds r') = Some id)
  /\ (forall f id, assoc Nat.eq_dec f (functionIds r) = Some id ->
                   assoc Nat.eq_dec f (functionIds r') = Some id)
  /\ (forall s id, assoc JsSymbol_eq_dec s (symbolIds r) = Some id ->
                   assoc JsSymbol_eq_dec s (symbolIds r') = Some id)
  /\ (forall s g, sym_keyFor s = Some g -> truthy g = true ->
                  assoc JsSymbol_eq_dec s (symbolIds r) = None ->
                  assoc JsSymbol_eq_dec s (symbolIds r') = None).

(** The identifiers of a registry are in order when every identifier of
    an object is [obj:n] and every identifier of a function is [fn:n], for
    a counter value [n] that has been used, and no identifier is shared. *)
Definition regWf (r : Registry) : Prop :=
  (forall v id, assoc Value_eq_dec v (objectIds r) = Some id ->
     exists n, (n < nextObjectId r)%nat /\ id = "obj:" ++ natToString n)
  /\ (forall v v' id, assoc Value_eq_dec v (objectIds r) = Some id ->
        assoc Value_eq_dec v' (objectIds r) = Some id -> v = v')
  /\ (forall f id, assoc Nat.eq_dec f (functionIds r) = Some id ->
        exists n, (n < nextFunctionId r)%nat /\ id = "fn:" ++ natToString n)
  /\ (forall f f' id, assoc Nat.eq_dec f (functionIds r) = Some id ->
        assoc Nat.eq_dec f' (functionIds r) = Some id -> f = f').

(** The values that are not symbols. *)
Definition notSymbol (v : Value) : bool :=
  match v with VSymbol _ => false | _ => true end.

(** ** The argument key serializer *)

Definition dquote : ascii := ascii_of_nat 34.
Definition backslash : ascii := ascii_of_nat 92.

Definition hexDigit (n : nat) : ascii :=
  nth n (list_ascii_of_string "0123456789abcdef") "0"%char.

(** One code unit of [JSON.stringify] applied to a string
    (QuoteJSONString). *)
Definition quoteJsonChar (c : ascii) : string :=
  let n := nat_of_ascii c in
  if Nat.eqb n 8 then String backslash "b"
  else if Nat.eqb n 9 then String backslash "t"
  else if Nat.eqb n 10 then String backslash "n"
  else if Nat.eqb n 12 then String backslash "f"
  else if Nat.eqb n 13 then String backslash "r"
  else if Nat.eqb n 34 then String backslash (String dquote "")
  else if Nat.eqb n 92 then String backslash (String backslash "")
  else if Nat.ltb n 32
       then String backslash
              ("u00" ++ String (hexDigit (Nat.div n 16))
                          (String (hexDigit (Nat.modulo n 16)) ""))
  else String c "".

Fixpoint quoteJsonBody (s : string) : string :=
  match s with
  | EmptyString => ""
  | String c rest => quoteJsonChar c ++ quoteJsonBody rest
  end.

Definition JSON_stringify (s : string) : string :=
  String dquote (quoteJsonBody s ++ String dquote "").

(** The value of a hexadecimal digit, and the reading of the first quoted
    code unit of a string: a left inverse of [quoteJsonChar], by which the
    quoting is shown to lose nothing. *)
Definition hexValue (c : ascii) : nat :=
  let n := nat_of_ascii c in
  if Nat.leb 97 n then (n - 87)%nat else (n - 48)%nat.

Definition unquoteFirst (s : string) : option (ascii * string) :=
  match s with
  | EmptyString => None
  | String c rest =>
      if Ascii.eqb c backslash then
        match rest with
        | EmptyString => None
        | String d rest' =>
            if Ascii.eqb d "b" then Some (ascii_of_nat 8, rest')
            else if Ascii.eqb d "t" then Some (ascii_of_nat 9, rest')
            else if Ascii.eqb d "n" then Some (ascii_of_nat 10, rest')
            else if Ascii.eqb d "f" then Some (ascii_of_nat 12, rest')
            else if Ascii.eqb d "r" then Some (ascii_of_nat 13, rest')
            else if Ascii.eqb d "u" then
              match rest' with
              | String _ (String _ (String h (String l rest''))) =>
                  Some (ascii_of_nat (16 * hexValue h + hexValue l), rest'')
              | _ => None
              end
            else Some (d, rest')
        end
      else Some (c, rest)
  end.

(** [value.includes(c)] for a one-character needle. *)
Fixpoint includes (c : ascii) (s : string) : bool :=
  match s with
  | EmptyString => false
  | String c' rest => Ascii.eqb c' c || includes c rest
  end.

(** The join delimiter of the key. *)
Definition delimiter : ascii := "|"%char.

Definition serializeArgument (v : Value) (r : Registry) : string * Registry :=
  match v with
  | VNull => ("null", r)
  | VUndefined => ("u", r)
  | VBoolean b => (if b then "b:1" else "b:0", r)
  | VNumber n =>
      (match n with
       | NumNaN => "n:NaN"
       | NumNegZero => "n:-0"
       | NumInfinity => "n:Infinity"
       | NumNegInfinity => "n:-Infinity"
       | NumInt z => "n:" ++ intToString z
       end, r)
  | VBigInt z => ("B:" ++ intToString z, r)
  | VString s =>
      (if includes "|"%char s || includes ":"%char s
          || Nat.ltb 100 (String.length s)
       then "s:" ++ JSON_stringify s
       else "s:" ++ s, r)
  | VSymbol s => idForSymbol s r
  | VFunction f => idForFunction f r
  | VObject _ | VPromise _ | VGenerator _ | VAsyncGenerator _ =>
      idForObject v r
  end.

(** [arguments_.map(arg => serializeArgument(arg))], the registry threaded
    from left to right. *)
Fixpoint serializeArguments (args : list Value) (r : Registry)
  : list string * Registry :=
  match args with
  | [] => ([], r)
  | a :: rest =>
      let (s, r1) := serializeArgument a r in
      let (ss, r2) := serializeArguments rest r1 in
      (s :: ss, r2)
  end.

(** The key of a call: the bare function id for a call without arguments,
    else the id and the encodings joined with the delimiter. *)
Definition makeKey (functionKey : string) (args : list Value) (r : Registry)
  : string * Registry :=
  match args with
  | [] => (functionKey, r)
  | _ =>
      let (ss, r') := serializeArguments args r in
      (functionKey ++ "|" ++ String.concat "|" ss, r')
  end.

(** ** Promises and the job queue

    A promise is pending ([None]) or settled.  The two suspended
    continuations that [cachePromiseResult] leaves behind are the jobs of
    the model: the [async] arrow function stopped at [await promise], and
    the [return wrapped] of the [async] function itself, whose promise
    adopts the state of [wrapped]. *)

Inductive Settled : Type :=
| Fulfilled (v : Value)
| Rejected (error : Value).

Inductive Job : Type :=
| AwaitPromise (promise : PromiseRef) (key : string) (wrapped : nat)
| ReturnWrapped (wrapped : nat) (outer : nat).

(** The completion of a call. *)
Inductive Completion : Type :=
| Normal (v : Value)
| Throw (error : Value).

(** What a cache hit returns, by the [switch] of [memoized]. *)
Definition payload (entry : CacheEntry) : Value :=
  match entry with
  | EValue v => unmarshallUndefined v
  | EPromise v | EGenerator v | EAsyncGenerator v => v
  end.

Module Kioku.
Section Facade.

(** The state of the program outside the library, and the wrapped
    functions: a function reference denotes a state transformer that
    returns or throws.  The wrapped functions of this module do not call
    back into the library (those that do are in [Reentrant]), and [this]
    is not modelled. *)
Variable U : Type.
Variable program : nat -> list Value -> U -> Completion * U.

Record World : Type := mkWorld {
  cache : Store.LruCache CacheEntry;
  registry : Registry;
  userPromises : list (nat * Settled);
  libPromises : list (option Settled);
  jobs : list Job;
  user : U;
  invocations : list (nat * list Value)
}.

Definition with_cache (w : World) (c : Store.LruCache CacheEntry) : World :=
  {| cache := c; registry := registry w; userPromises := userPromises w;
     libPromises := libPromises w; jobs := jobs w; user := user w;
     invocations := invocations w |}.

Definition with_registry (w : World) (r : Registry) : World :=
  {| cache := cache w; registry := r; userPromises := userPromises w;
     libPromises := libPromises w; jobs := jobs w; user := user w;
     invocations := invocations w |}.

(** The module as it is loaded:
    [let cache = new LruCache<string, CacheEntry>(defaultOptions)]. *)
Definition initialWorld (u : U) : World :=
  {| cache := Store.new_LruCache (asConfig defaultOptions);
     registry := emptyRegistry;
     userPromises := []; libPromises := []; jobs := [];
     user := u; invocations := [] |}.

Definition promiseState (p : PromiseRef) (w : World) : option Settled :=
  match p with
  | UserPromise n => assoc Nat.eq_dec n (userPromises w)
  | LibPromise n => nth n (libPromises w) None
  end.

(** [function_.call(this, ...arguments_)], recorded in [invocations]. *)
Definition invoke (f : nat) (args : list Value) (w : World)
  : Completion * World :=
  let (result, u') := program f args (user w) in
  (result,
   {| cache := cache w; registry := registry w;
      userPromises := userPromises w; libPromises := libPromises w;
      jobs := jobs w; user := u';
      invocations := invocations w ++ [(f, args)] |}).

Definition cacheSyncResult (key : string) (result : Value) (now : Z)
  (w : World) : Value * World :=
  (result,
   with_cache w
     (Store.set key (EValue (marshallUndefined result)) now (cache w))).

(** [cachePromiseResult]: [wrapped] is created and suspended on
    [promise], the cache is set, and the promise of the [async] function
    is returned, to be resolved with [wrapped]. *)
Definition cachePromiseResult (key : string) (promise : PromiseRef) (now : Z)
  (w : World) : Value * World :=
  let wrapped := List.length (libPromises w) in
  let outer := S wrapped in
  (VPromise (LibPromise outer),
   {| cache :=
        Store.set key (EPromise (VPromise (LibPromise wrapped))) now (cache w);
      registry := registry w;
      userPromises := userPromises w;
      libPromises := libPromises w ++ [None; None];
      jobs := jobs w ++ [AwaitPromise promise key wrapped;
                         ReturnWrapped wrapped outer];
      user := user w;
      invocations := invocations w |}).

Definition cacheGeneratorResult (key : string) (generator : Value) (now : Z)
  (w : World) : Value * World :=
  (generator,
   with_cache w (Store.set key (EGenerator generator) now (cache w))).

Definition cacheAsyncGeneratorResult (key : string) (generator : Value)
  (now : Z) (w : World) : Value * World :=
  (generator,
   with_cache w (Store.set key (EAsyncGenerator generator) now (cache w))).

(** [memoize(function_)]: the function id is taken once; the wrapped
    function is the pair of that id and of the function. *)
Definition memoize (f : nat) (w : World) : string * World :=
  let (functionKey, r) := idForFunction f (registry w) in
  (functionKey, with_registry w r).

(** The body of [memoized]. *)
Definition memoized (functionKey : string) (f : nat) (args : list Value)
  (now : Z) (w : World) : Completion * World :=
  let (key, r) := makeKey functionKey args (registry w) in
  let w1 := with_registry w r in
  let (cached, c) := Store.get key now (cache w1) in
  let w2 := with_cache w1 c in
  match cached with
  | Some (EValue v) => (Normal (unmarshallUndefined v), w2)
  | Some (EPromise v) | Some (EGenerator v) | Some (EAsyncGenerator v) =>
      (Normal v, w2)
  | None =>
      match invoke f args w2 with
      | (Throw e, w3) => (Throw e, w3)
      | (Normal result, w3) =>
          match result with
          | VPromise p =>
              let (v, w4) := cachePromiseResult key p now w3 in (Normal v, w4)
          | _ =>
              if isAsyncGenerator result
              then let (v, w4) := cacheAsyncGeneratorResult key result now w3
                   in (Normal v, w4)
              else if isGenerator result
              then let (v, w4) := cacheGeneratorResult key result now w3
                   in (Normal v, w4)
              else let (v, w4) := cacheSyncResult key result now w3
                   in (Normal v, w4)
          end
      end
  end.

(** [setup(options = {})]. *)
Definition setup (o : CacheConfig) (now : Z) (w : World) : World :=
  let newCache := Store.new_LruCache o in
  let (pairs, _) := Store.entries now (cache w) in
  with_cache w (Store.migrate now pairs newCache).

Definition clearCache (w : World) : World :=
  with_cache w (Store.clear (cache w)).

Definition getCacheStats (now : Z) (w : World) : (Z * Z) * World :=
  let (n, c) := Store.size now (cache w) in
  ((n, max (Store.options c)), with_cache w c).

(** *** The event loop *)

Definition settleLib (n : nat) (s : Settled) (l : list (option Settled))
  : list (option Settled) :=
  firstn n l ++ [Some s] ++ skipn (S n) l.

Definition removeJob (i : nat) (l : list Job) : list Job :=
  firstn i l ++ skipn (S i) l.

(** The job [i] of the queue runs if the promise it waits for has
    settled.  The [catch] clause of the arrow function deletes the key and
    rethrows. *)
Definition runJob (i : nat) (w : World) : World :=
  match nth_error (jobs w) i with
  | None => w
  | Some (AwaitPromise promise key wrapped) =>
      match promiseState promise w with
      | None => w
      | Some (Fulfilled v) =>
          {| cache := cache w; registry := registry w;
             userPromises := userPromises w;
             libPromises := settleLib wrapped (Fulfilled v) (libPromises w);
             jobs := removeJob i (jobs w); user := user w;
             invocations := invocations w |}
      | Some (Rejected e) =>
          {| cache := snd (Store.delete key (cache w)); registry := registry w;
             userPromises := userPromises w;
             libPromises := settleLib wrapped (Rejected e) (libPromises w);
             jobs := removeJob i (jobs w); user := user w;
             invocations := invocations w |}
      end
  | Some (ReturnWrapped wrapped outer) =>
      match promiseState (LibPromise wrapped) w with
      | None => w
      | Some s =>
          {| cache := cache w; registry := registry w;
             userPromises := userPromises w;
             libPromises := settleLib outer s (libPromises w);
             jobs := removeJob i (jobs w); user := user w;
             invocations := invocations w |}
      end
  end.

(** A pending promise of the program settles (a settled one stays as it
    is). *)
Definition settleUser (n : nat) (s : Settled) (w : World) : World :=
  match assoc Nat.eq_dec n (userPromises w) with
  | Some _ => w
  | None =>
      {| cache := cache w; registry := registry w;
         userPromises := (n, s) :: userPromises w;
         libPromises := libPromises w; jobs := jobs w; user := user w;
         invocations := invocations w |}
  end.

Inductive Event : Type :=
| EvCall (functionKey : string) (f : nat) (args : list Value) (now : Z)
| EvMemoize (f : nat)
| EvSettle (n : nat) (s : Settled)
| EvJob (i : nat)
| EvSetup (o : CacheConfig) (now : Z)
| EvClearCache
| EvGetCacheStats (now : Z).

Definition step (e : Event) (w : World) : World :=
  match e with
  | EvCall functionKey f args now => snd (memoized functionKey f args now w)
  | EvMemoize f => snd (memoize f w)
  | EvSettle n s => settleUser n s w
  | EvJob i => runJob i w
  | EvSetup o now => setup o now w
  | EvClearCache => clearCache w
  | EvGetCacheStats now => snd (getCacheStats now w)
  end.

Definition steps (es : list Event) (w : World) : World :=
  fold_left (fun w e => step e w) es w.

(** Successive calls of one memoized function with the same arguments, at
    the given clock readings. *)
Fixpoint callMany (functionKey : string) (f : nat) (args : list Value)
  (times : list Z) (w : World) : list Completion * World :=
  match times with
  | [] => ([], w)
  | t :: rest =>
      let (r, w1) := memoized functionKey f args t w in
      let (rs, w2) := callMany functionKey f args rest w1 in
      (r :: rs, w2)
  end.

(** *** Vocabulary of the properties *)

(** The promise that a job settles. *)
Definition target (j : Job) : nat :=
  match j with
  | AwaitPromise _ _ wrapped => wrapped
  | ReturnWrapped _ outer => outer
  end.

(** The promise that a job waits for. *)
Definition source (j : Job) : PromiseRef :=
  match j with
  | AwaitPromise promise _ _ => promise
  | ReturnWrapped wrapped _ => LibPromise wrapped
  end.

(** What a step of the program can do to the promises and to the job
    queue: nothing; settle a pending promise of the program; register the
    two jobs of [cachePromiseResult] with their two fresh promises; or run
    a job whose source has settled. *)
Inductive Evolves (w w' : World) : Prop :=
| ev_same :
    userPromises w' = userPromises w ->
    libPromises w' = libPromises w ->
    jobs w' = jobs w ->
    Evolves w w'
| ev_settle (n : nat) (s : Settled) :
    assoc Nat.eq_dec n (userPromises w) = None ->
    userPromises w' = (n, s) :: userPromises w ->
    libPromises w' = libPromises w ->
    jobs w' = jobs w ->
    Evolves w w'
| ev_register (promise : PromiseRef) (key : string) :
    userPromises w' = userPromises w ->
    libPromises w' = (libPromises w ++ [None; None])%list ->
    jobs w'
    = (jobs w ++ [AwaitPromise promise key (List.length (libPromises w));
                  ReturnWrapped (List.length (libPromises w))
                    (S (List.length (libPromises w)))])%list ->
    Evolves w w'
| ev_job (i : nat) (j : Job) (s : Settled) :
    nth_error (jobs w) i = Some j ->
    promiseState (source j) w = Some s ->
    userPromises w' = userPromises w ->
    libPromises w' = settleLib (target j) s (libPromises w) ->
    jobs w' = removeJob i (jobs w) ->
    Evolves w w'.

(** Every pending job settles a promise of its own, which exists and is
    pending. *)
Definition wfJobs (w : World) : Prop :=
  NoDup (List.map target (jobs w))
  /\ forall j, In j (jobs w) ->
       (target j < List.length (libPromises w))%nat
       /\ nth (target j) (libPromises w) None = None.

(** An event that does not configure a negative capacity. *)
Definition capacityNotNegative (e : Event) : Prop :=
  match e with
  | EvSetup o _ => 0 <= max (mergeOptions defaultOptions o)
  | _ => True
  end.

End Facade.

Arguments cache {U} _.
Arguments registry {U} _.
Arguments userPromises {U} _.
Arguments libPromises {U} _.
Arguments jobs {U} _.
Arguments user {U} _.
Arguments invocations {U} _.
Arguments with_cache {U} _ _.
Arguments with_registry {U} _ _.
Arguments initialWorld {U} _.
Arguments promiseState {U} _ _.
Arguments invoke {U} _ _ _ _.
Arguments cacheSyncResult {U} _ _ _ _.
Arguments cachePromiseResult {U} _ _ _ _.
Arguments cacheGeneratorResult {U} _ _ _ _.
Arguments cacheAsyncGeneratorResult {U} _ _ _ _.
Arguments memoize {U} _ _.
Arguments memoized {U} _ _ _ _ _ _.
Arguments setup {U} _ _ _.
Arguments clearCache {U} _.
Arguments getCacheStats {U} _ _.
Arguments runJob {U} _ _.
Arguments settleUser {U} _ _ _.
Arguments step {U} _ _ _.
Arguments steps {U} _ _ _.
Arguments callMany {U} _ _ _ _ _ _.
Arguments wfJobs {U} _.
Arguments Evolves {U} _ _.

End Kioku.

(** ** Wrapped functions that use the library while they run

    [function_.call(this, ...arguments_)] runs arbitrary code: before it
    returns or throws, the wrapped function can call memoized functions
    (itself included, as a recursive function does), and [memoize],
    [setup], [clearCache] and [getCacheStats].  Its run is a tree of these
    operations, each at the clock reading at which it happens; the leaf is
    the completion, with the state of the program and the clock reading at
    that moment.  The function is given the clock reading at which it is
    invoked.  A call of [memoized] nests the run of the function inside
    the lookup and the caching of the result; the recursion is bounded by
    a fuel, the depth of nesting, and [None] stands for a run that needs
    more. *)

Module Reentrant.
Import Kioku.
Section Facade.

Variable U : Type.

Inductive Body : Type :=
| Finish (c : Completion) (u : U) (now : Z)
| CallMemoized (functionKey : string) (f : nat) (args : list Value)
    (now : Z) (u : U) (k : Completion -> U -> Body)
| CallMemoize (f : nat) (k : string -> Body)
| CallSetup (o : CacheConfig) (now : Z) (k : Body)
| CallClearCache (k : Body)
| CallGetCacheStats (now : Z) (k : Z * Z -> Body).

(** A function that does not use the library while it runs, and returns at
    the clock reading of its invocation. *)
Definition lift (program : nat -> list Value -> U -> Completion * U)
  (f : nat) (args : list Value) (u : U) (now : Z) : Body :=
  let (c, u') := program f args u in Finish c u' now.

Variable code : nat -> list Value -> U -> Z -> Body.

Definition with_user (w : World U) (u : U) : World U :=
  {| cache := cache w; registry := registry w;
     userPromises := userPromises w; libPromises := libPromises w;
     jobs := jobs w; user := u; invocations := invocations w |}.

(** The invocation is recorded when the function is entered. *)
Definition invoked (f : nat) (args : list Value) (w : World U) : World U :=
  {| cache := cache w; registry := registry w;
     userPromises := userPromises w; libPromises := libPromises w;
     jobs := jobs w; user := user w;
     invocations := invocations w ++ [(f, args)] |}.

(** The four tests on the result, in the order of [memoized]. *)
Definition cacheResult (key : string) (result : Value) (now : Z)
  (w : World U) : Value * World U :=
  match result with
  | VPromise p => cachePromiseResult key p now w
  | _ =>
      if isAsyncGenerator result
      then cacheAsyncGeneratorResult key result now w
      else if isGenerator result
      then cacheGeneratorResult key result now w
      else cacheSyncResult key result now w
  end.

(** What [memoized] does once the function has completed: a throw goes
    through, a result is cached at the clock reading of the return. *)
Definition complete (key : string)
  (outcome : option (Completion * Z * World U))
  : option (Completion * World U) :=
  match outcome with
  | None => None
  | Some (Throw e, _, w) => Some (Throw e, w)
  | Some (Normal result, now, w) =>
      let (v, w') := cacheResult key result now w in Some (Normal v, w')
  end.

(** The run of a function, given what a call of a memoized function
    does. *)
Fixpoint runBody
  (call : string -> nat -> list Value -> Z -> World U
          -> option (Completion * World U))
  (b : Body) (w : World U) : option (Completion * Z * World U) :=
  match b with
  | Finish c u now => Some (c, now, with_user w u)
  | CallMemoized functionKey f args now u k =>
      match call functionKey f args now (with_user w u) with
      | None => None
      | Some (c, w') => runBody call (k c (user w')) w'
      end
  | CallMemoize f k =>
      let (functionKey, w') := memoize f w in runBody call (k functionKey) w'
  | CallSetup o now k => runBody call k (setup o now w)
  | CallClearCache k => runBody call k (clearCache w)
  | CallGetCacheStats now k =>
      let (stats, w') := getCacheStats now w in runBody call (k stats) w'
  end.

(** The body of [memoized], the function running inside it. *)
Fixpoint memoized (fuel : nat) (functionKey : string) (f : nat)
  (args : list Value) (now : Z) (w : World U)
  : option (Completion * World U) :=
  match fuel with
  | O => None
  | S fuel' =>
      let (key, r) := makeKey functionKey args (registry w) in
      let w1 := with_registry w r in
      let (cached, c) := Store.get key now (cache w1) in
      let w2 := with_cache w1 c in
      match cached with
      | Some entry => Some (Normal (payload entry), w2)
      | None =>
          complete key
            (runBody (memoized fuel') (code f args (user w2) now)
               (invoked f args w2))
      end
  end.

(** The state in which the function is entered after a lookup that
    missed. *)
Definition entered (functionKey : string) (f : nat) (args : list Value)
  (now : Z) (w : World U) : World U :=
  let (key, r) := makeKey functionKey args (registry w) in
  invoked f args
    (with_cache (with_registry w r) (snd (Store.get key now (cache w)))).

End Facade.

Arguments Finish {U} _ _ _.
Arguments CallMemoized {U} _ _ _ _ _ _.
Arguments CallMemoize {U} _ _.
Arguments CallSetup {U} _ _ _.
Arguments CallClearCache {U} _.
Arguments CallGetCacheStats {U} _ _.
Arguments lift {U} _ _ _ _ _.
Arguments with_user {U} _ _.
Arguments invoked {U} _ _ _.
Arguments cacheResult {U} _ _ _ _.
Arguments complete {U} _ _.
Arguments runBody {U} _ _ _.
Arguments memoized {U} _ _ _ _ _ _ _.
Arguments entered {U} _ _ _ _ _.

End Reentrant.

(** * Properties of the eviction store *)

Module StoreFacts.
Import Store.

#[local] Arguments Z.mul : simpl never.
#[local] Arguments Z.add : simpl never.
#[local] Arguments Z.sub : simpl never.

Section Facts.

Variable V : Type.

Implicit Types (m : Items V) (c : LruCache V) (e : CacheEntryWrapper V).
Implicit Types (k key : string) (op : Op V).

(** ** The map primitives *)

Lemma keys_app m1 m2 : keys (m1 ++ m2)%list = (keys m1 ++ keys m2)%list.
Proof. unfold keys. apply map_app. Qed.

Lemma map_delete_length m k :
  (List.length (map_delete k m) <= List.length m)%nat.
Proof. unfold map_delete. apply filter_length_le. Qed.

Lemma map_get_In m k e : map_get k m = Some e -> In (k, e) m.
Proof.
  induction m as [|[k' e'] m IH]; simpl; [discriminate|].
  destruct (String.eqb k' k) eqn:E.
  - intros H. injection H as ->. apply String.eqb_eq in E. subst. now left.
  - intros H. right. now apply IH.
Qed.

Lemma map_get_None_keys m k : map_get k m = None <-> ~ In k (keys m).
Proof.
  induction m as [|[k' e'] m IH]; simpl.
  - split; [intros _ []|reflexivity].
  - destruct (String.eqb k' k) eqn:E.
    + apply String.eqb_eq in E. subst. split; [discriminate|].
      intros H. exfalso. apply H. now left.
    + apply String.eqb_neq in E. rewrite IH. split.
      * intros H [H1|H1]; [now apply E|now apply H].
      * intros H H1. apply H. now right.
Qed.

Lemma map_get_Some_delete_lt m k e :
  map_get k m = Some e ->
  (List.length (map_delete k m) < List.length m)%nat.
Proof.
  induction m as [|[k' e'] m IH]; simpl; [discriminate|].
  destruct (String.eqb k' k) eqn:E; simpl.
  - intros _. pose proof (map_delete_length m k). lia.
  - intros H. apply IH in H. lia.
Qed.

Lemma In_keys_filter (f : string * CacheEntryWrapper V -> bool) m k :
  In k (keys (filter f m)) -> In k (keys m).
Proof.
  unfold keys. rewrite !in_map_iff. intros [p [Hp Hin]].
  apply filter_In in Hin. exists p. tauto.
Qed.

Lemma NoDup_keys_filter (f : string * CacheEntryWrapper V -> bool) m :
  NoDup (keys m) -> NoDup (keys (filter f m)).
Proof.
  induction m as [|[k e] m IH]; simpl; [auto|].
  intros H. inversion H as [|? ? Hn Hd]; subst.
  destruct (f (k, e)); simpl; [|auto].
  constructor; [|auto].
  intros Hin. apply Hn. eapply In_keys_filter, Hin.
Qed.

Lemma keys_map_delete m k : ~ In k (keys (map_delete k m)).
Proof.
  unfold keys, map_delete. rewrite in_map_iff. intros [[k' e'] [Hk Hin]].
  simpl in Hk. subst. apply filter_In in Hin. destruct Hin as [_ Hin].
  simpl in Hin. now rewrite String.eqb_refl in Hin.
Qed.

Lemma map_delete_absent m k : ~ In k (keys m) -> map_delete k m = m.
Proof.
  induction m as [|[k' e'] m IH]; simpl; [reflexivity|].
  intros H. destruct (String.eqb k' k) eqn:E; simpl.
  - apply String.eqb_eq in E. exfalso. apply H. now left.
  - f_equal. apply IH. intros Hin. apply H. now right.
Qed.

Lemma map_delete_head m k e :
  NoDup (keys ((k, e) :: m)) -> map_delete k ((k, e) :: m) = m.
Proof.
  intros H. inversion H; subst. simpl. rewrite String.eqb_refl. simpl.
  now apply map_delete_absent.
Qed.

Lemma map_set_fresh m k e :
  ~ In k (keys m) -> map_set k e m = (m ++ [(k, e)])%list.
Proof.
  induction m as [|[k' e'] m IH]; simpl; [reflexivity|].
  intros H. destruct (String.eqb k' k) eqn:E.
  - apply String.eqb_eq in E. exfalso. apply H. now left.
  - f_equal. apply IH. intros Hin. apply H. now right.
Qed.

(** The pair [delete] then [set] of the class moves the key to the most
    recent position. *)
Lemma map_set_delete m k e :
  map_set k e (map_delete k m) = (map_delete k m ++ [(k, e)])%list.
Proof. apply map_set_fresh, keys_map_delete. Qed.

Lemma pruneExpired_filter now m :
  pruneExpired now m = filter (fun p => negb (isExpired now (snd p))) m.
Proof. now destruct m. Qed.

Lemma evictLoop_skipn n m :
  NoDup (keys m) -> evictLoop n m = skipn n m.
Proof.
  revert m. induction n as [|n IH]; intros m H; [reflexivity|].
  destruct m as [|[k e] m]; [reflexivity|].
  cbn [evictLoop]. rewrite map_delete_head by exact H.
  simpl. apply IH. now inversion H.
Qed.

(** ** Suffixes *)

Lemma lastn_all {A : Type} (n : nat) (l : list A) :
  (List.length l <= n)%nat -> lastn n l = l.
Proof.
  intros H. unfold lastn. replace (List.length l - n)%nat with 0%nat by lia.
  reflexivity.
Qed.

Lemma lastn_length {A : Type} (n : nat) (l : list A) :
  List.length (lastn n l) = Nat.min n (List.length l).
Proof. unfold lastn. rewrite length_skipn. lia. Qed.

Lemma lastn_app_one {A : Type} (n : nat) (l : list A) (x : A) :
  lastn (S n) (l ++ [x]) = (lastn n l ++ [x])%list.
Proof.
  unfold lastn. rewrite length_app. simpl.
  replace (List.length l + 1 - S n)%nat with (List.length l - n)%nat by lia.
  rewrite skipn_app.
  replace (List.length l - n - List.length l)%nat with 0%nat by lia.
  reflexivity.
Qed.

Lemma lastn_lastn {A : Type} (n p : nat) (l : list A) :
  (n <= p)%nat -> lastn n (lastn p l) = lastn n l.
Proof.
  intros H. unfold lastn. rewrite length_skipn, skipn_skipn. f_equal. lia.
Qed.

Lemma lastn_lastn_app_one {A : Type} (n : nat) (l : list A) (x : A) :
  lastn n (lastn n l ++ [x]) = lastn n (l ++ [x]).
Proof.
  destruct n as [|n].
  - unfold lastn. rewrite !Nat.sub_0_r, !skipn_all. reflexivity.
  - rewrite !lastn_app_one. f_equal. apply lastn_lastn. lia.
Qed.

Lemma lastn_map {A B : Type} (f : A -> B) (n : nat) (l : list A) :
  List.map f (lastn n l) = lastn n (List.map f l).
Proof. unfold lastn. rewrite length_map. symmetry. apply skipn_map. Qed.

Lemma In_lastn {A : Type} (n : nat) (l : list A) (x : A) :
  In x (lastn n l) -> In x l.
Proof.
  unfold lastn. intros H.
  rewrite <- (firstn_skipn (List.length l - n) l). apply in_or_app. now right.
Qed.

(** ** The configuration never changes *)

Lemma options_evictOverflow now c : options (evictOverflow now c) = options c.
Proof.
  unfold evictOverflow.
  destruct (max (options c) <=? 0); [reflexivity|].
  match goal with |- context [if ?b then _ else _] => destruct b end;
    reflexivity.
Qed.

Lemma options_apply op c : options (apply op c) = options c.
Proof.
  destruct op; simpl; try reflexivity.
  - unfold set. now rewrite options_evictOverflow.
  - unfold get. destruct (map_get key (items c)); [|reflexivity].
    destruct (hasTtl c && isExpired now c0); reflexivity.
  - unfold has. destruct (map_get key (items c)); [|reflexivity].
    destruct (hasTtl c && isExpired now c0); reflexivity.
Qed.

Lemma options_run ops c : options (run ops c) = options c.
Proof.
  revert c. induction ops as [|op ops IH]; intros c; [reflexivity|].
  change (run (op :: ops) c) with (run ops (apply op c)).
  rewrite IH. apply options_apply.
Qed.

Lemma hasTtl_options c c' : options c' = options c -> hasTtl c' = hasTtl c.
Proof. unfold hasTtl. now intros ->. Qed.

Lemma run_app ops1 ops2 c : run (ops1 ++ ops2) c = run ops2 (run ops1 c).
Proof. unfold run. apply fold_left_app. Qed.

(** ** The keys stay distinct *)

Lemma wf_live c now m : NoDup (keys m) -> NoDup (keys (live c now m)).
Proof.
  unfold live. destruct (hasTtl c); [|auto].
  rewrite pruneExpired_filter. apply NoDup_keys_filter.
Qed.

Lemma NoDup_keys_skipn n m : NoDup (keys m) -> NoDup (keys (skipn n m)).
Proof.
  intros H. unfold keys in *. rewrite <- (firstn_skipn n m), map_app in H.
  now apply NoDup_app_remove_l in H.
Qed.

Lemma NoDup_keys_set_delete m k e :
  NoDup (keys m) -> NoDup (keys (map_set k e (map_delete k m))).
Proof.
  intros H. rewrite map_set_delete, keys_app. simpl.
  apply NoDup_app.
  - now apply NoDup_keys_filter.
  - constructor; [intros []|constructor].
  - intros x Hx [<-|[]]. now apply keys_map_delete in Hx.
Qed.

(** What [evictOverflow] leaves, for a map with distinct keys and a
    positive capacity: the most recent [max] live entries. *)
Lemma items_evictOverflow now c :
  wf c -> 0 < max (options c) ->
  items (evictOverflow now c)
  = lastn (Z.to_nat (max (options c))) (live c now (items c)).
Proof.
  intros Hwf Hmax. unfold evictOverflow.
  destruct (Z.leb_spec (max (options c)) 0); [lia|].
  fold (live c now (items c)).
  pose proof (wf_live c now (items c) Hwf) as Hl.
  set (m := live c now (items c)) in *. unfold map_size.
  destruct (Z.ltb_spec 0 (Z.of_nat (List.length m) - max (options c))); simpl.
  - rewrite evictLoop_skipn by exact Hl. unfold lastn. f_equal. lia.
  - symmetry. apply lastn_all. lia.
Qed.

Lemma wf_evictOverflow now c : wf c -> wf (evictOverflow now c).
Proof.
  intros Hwf. destruct (Z.leb_spec (max (options c)) 0) as [H|H].
  - unfold evictOverflow. apply Z.leb_le in H. rewrite H. constructor.
  - unfold wf. rewrite items_evictOverflow by assumption.
    unfold lastn. apply NoDup_keys_skipn. now apply wf_live.
Qed.

Lemma wf_apply op c : wf c -> wf (apply op c).
Proof.
  intros Hwf. destruct op; simpl.
  - unfold set. apply wf_evictOverflow. unfold wf. simpl.
    now apply NoDup_keys_set_delete.
  - unfold get. destruct (map_get key (items c)) as [e|]; [|exact Hwf].
    destruct (hasTtl c && isExpired now e); simpl.
    + unfold wf. simpl. now apply NoDup_keys_filter.
    + destruct (9 * max (options c) <? 10 * map_size (items c));
        unfold wf; simpl; [now apply NoDup_keys_set_delete|exact Hwf].
  - unfold has. destruct (map_get key (items c)) as [e|]; [|exact Hwf].
    destruct (hasTtl c && isExpired now e); simpl; [|exact Hwf].
    unfold wf. simpl. now apply NoDup_keys_filter.
  - unfold wf. simpl. now apply NoDup_keys_filter.
  - constructor.
  - unfold wf. simpl. now apply wf_live.
  - unfold wf. simpl. now apply NoDup_keys_filter.
Qed.

Lemma wf_run ops c : wf c -> wf (run ops c).
Proof.
  revert c. induction ops as [|op ops IH]; intros c H; [exact H|].
  change (run (op :: ops) c) with (run ops (apply op c)).
  apply IH. now apply wf_apply.
Qed.

Lemma wf_new (o : CacheConfig) : wf (new_LruCache (V:=V) o).
Proof. constructor. Qed.

(** ** The capacity bound *)

Lemma live_length c now m :
  (List.length (live c now m) <= List.length m)%nat.
Proof.
  unfold live. destruct (hasTtl c); [|lia].
  rewrite pruneExpired_filter. apply filter_length_le.
Qed.

Lemma map_set_delete_length m k e e' :
  map_get k m = Some e' ->
  (List.length (map_set k e (map_delete k m)) <= List.length m)%nat.
Proof.
  intros H. rewrite map_set_delete, length_app. simpl.
  apply map_get_Some_delete_lt in H. lia.
Qed.

Lemma bounded_set k v now c :
  wf c -> 0 <= max (options c) -> bounded (set k v now c).
Proof.
  intros Hwf Hmax. unfold bounded, set.
  rewrite options_evictOverflow. cbn [options with_items].
  destruct (Z.eq_dec (max (options c)) 0) as [H0|H0].
  - unfold evictOverflow. cbn [options with_items]. rewrite H0. simpl.
    unfold map_size. simpl. lia.
  - rewrite items_evictOverflow.
    + cbn [options with_items]. unfold map_size. rewrite lastn_length. lia.
    + unfold wf. cbn [items with_items]. now apply NoDup_keys_set_delete.
    + cbn [options with_items]. lia.
Qed.

(** No operation of the class leaves more entries than the capacity. *)
Lemma bounded_apply op c :
  wf c -> 0 <= max (options c) -> bounded c -> bounded (apply op c).
Proof.
  intros Hwf Hmax Hb. destruct op; cbn [apply].
  - now apply bounded_set.
  - unfold get. destruct (map_get key (items c)) as [e|] eqn:G; [|exact Hb].
    unfold bounded, map_size in *.
    destruct (hasTtl c && isExpired now e); cbn [snd options items with_items].
    + pose proof (map_delete_length (items c) key). lia.
    + destruct (9 * max (options c) <? 10 * Z.of_nat (List.length (items c)));
        [|exact Hb].
      pose proof (map_set_delete_length (items c) key e e G). lia.
  - unfold has. destruct (map_get key (items c)) as [e|]; [|exact Hb].
    destruct (hasTtl c && isExpired now e); [|exact Hb].
    unfold bounded, map_size in *. cbn [snd options items with_items].
    pose proof (map_delete_length (items c) key). lia.
  - unfold bounded, map_size in *. cbn [delete snd options items with_items].
    pose proof (map_delete_length (items c) key). lia.
  - unfold bounded, map_size. simpl. lia.
  - unfold bounded, map_size in *. cbn [size snd options items with_items].
    fold (live c now (items c)).
    pose proof (live_length c now (items c)). lia.
  - unfold bounded, map_size in *. cbn [entries snd options items with_items].
    match goal with |- context [filter ?f ?l] =>
      pose proof (filter_length_le f l) end.
    lia.
Qed.

Lemma bounded_run ops c :
  wf c -> 0 <= max (options c) -> bounded c -> bounded (run ops c).
Proof.
  revert c. induction ops as [|op ops IH]; intros c Hwf Hmax Hb; [exact Hb|].
  change (run (op :: ops) c) with (run ops (apply op c)).
  apply IH.
  - now apply wf_apply.
  - now rewrite options_apply.
  - now apply bounded_apply.
Qed.

(** What one [set] leaves: the key goes last, the dead entries go, and of
    the rest the most recent [max] stay. *)
Lemma items_set k v now c :
  wf c -> 0 < max (options c) ->
  items (set k v now c)
  = lastn (Z.to_nat (max (options c)))
      (live c now (map_delete k (items c) ++ [(k, newEntry c v now)])%list).
Proof.
  intros Hwf Hmax. unfold set. rewrite items_evictOverflow.
  - cbn [options with_items items]. rewrite map_set_delete.
    unfold live, newEntry, hasTtl. cbn [options with_items].
    destruct (0 <? ttl (options c)); reflexivity.
  - unfold wf. cbn [items with_items]. now apply NoDup_keys_set_delete.
  - exact Hmax.
Qed.

(** ** Insertion of distinct keys *)

Lemma lastn_app {A : Type} (n : nat) (l1 l2 : list A) :
  lastn n (l1 ++ l2)
  = (lastn (n - List.length l2) l1 ++ lastn n l2)%list.
Proof.
  unfold lastn. rewrite length_app, skipn_app.
  destruct (Nat.le_gt_cases (List.length l2) n) as [H|H].
  - replace (List.length l1 + List.length l2 - n)%nat
      with (List.length l1 - (n - List.length l2))%nat by lia.
    replace (List.length l1 - (n - List.length l2) - List.length l1)%nat
      with (List.length l2 - n)%nat by lia.
    reflexivity.
  - rewrite (skipn_all2 l1) by lia.
    replace (List.length l1 - (n - List.length l2))%nat
      with (List.length l1) by lia.
    rewrite skipn_all. simpl. f_equal. lia.
Qed.

Lemma filter_id {A : Type} (f : A -> bool) (l : list A) :
  (forall x, In x l -> f x = true) -> filter f l = l.
Proof.
  induction l as [|a l IH]; intros H; [reflexivity|].
  simpl. rewrite (H a) by now left. f_equal. apply IH.
  intros x Hx. apply H. now right.
Qed.

Lemma insertAll_app (l1 l2 : list (string * V * Z)) :
  insertAll (l1 ++ l2) = (insertAll l1 ++ insertAll l2)%list.
Proof. unfold insertAll. apply map_app. Qed.

Lemma newEntry_options c c' v now :
  options c' = options c -> newEntry c' v now = newEntry c v now.
Proof. intros H. unfold newEntry, hasTtl. now rewrite H. Qed.

Lemma live_app c now m1 m2 :
  live c now (m1 ++ m2)%list = (live c now m1 ++ live c now m2)%list.
Proof.
  unfold live. destruct (hasTtl c); [|reflexivity].
  rewrite !pruneExpired_filter. apply filter_app.
Qed.

Lemma live_id c now m :
  (hasTtl c = true -> forall p, In p m -> isExpired now (snd p) = false) ->
  live c now m = m.
Proof.
  intros H. unfold live. destruct (hasTtl c) eqn:E; [|reflexivity].
  rewrite pruneExpired_filter. apply filter_id.
  intros x Hx. now rewrite (H eq_refl x Hx).
Qed.

Lemma live_options c c' now m :
  options c' = options c -> live c' now m = live c now m.
Proof. intros H. unfold live. now rewrite (hasTtl_options c c' H). Qed.

Section Insertions.

Variable c : LruCache V.
Hypothesis c_wf : wf c.
Hypothesis c_max : 0 < max (options c).

(** While distinct keys are inserted and none of the new records expires,
    the store ends with the most recent [max] of the new records. *)
Lemma items_insertAll (kvs : list (string * V * Z)) :
  NoDup (List.map (fun kv => fst (fst kv)) kvs) ->
  (hasTtl c = true ->
   forall a b, In a kvs -> In b kvs -> snd a < snd b + ttl (options c)) ->
  exists R,
    (forall p, In p R -> In p (items c))
    /\ items (run (insertAll kvs) c)
       = (R ++ lastn (Z.to_nat (max (options c))) (List.map (recordOf c) kvs))%list.
Proof.
  induction kvs as [|[[k v] t] kvs IH] using rev_ind; intros Hnd Hexp.
  - exists (items c). split; [auto|].
    unfold lastn. simpl. now rewrite app_nil_r.
  - rewrite map_app in Hnd. simpl in Hnd.
    destruct IH as [R [HRin HR]].
    { now apply NoDup_app_remove_r in Hnd. }
    { intros Ht a b Ha Hb. apply (Hexp Ht); apply in_or_app; now left. }
    rewrite insertAll_app, run_app.
    set (c' := run (insertAll kvs) c) in *.
    assert (Ho : options c' = options c) by apply options_run.
    change (run (insertAll [(k, v, t)]) c') with (set k v t c').
    rewrite items_set; [|now apply wf_run|now rewrite Ho].
    rewrite Ho, (live_options c c' _ _ Ho), (newEntry_options c c' _ _ Ho), HR.
    set (L := lastn (Z.to_nat (max (options c))) (List.map (recordOf c) kvs)).
    assert (HL : forall p, In p L -> In p (List.map (recordOf c) kvs))
      by (intros p; apply In_lastn).
    assert (Hk : map_delete k L = L).
    { apply filter_id. intros p Hp. apply HL in Hp.
      apply in_map_iff in Hp. destruct Hp as [kv [<- Hkv]]. simpl.
      apply negb_true_iff, String.eqb_neq. intros Heq.
      apply NoDup_remove_2 in Hnd. apply Hnd. rewrite app_nil_r.
      apply in_map_iff. exists kv. now split. }
    assert (Hlive : live c t (L ++ [(k, newEntry c v t)])%list
                    = (L ++ [(k, newEntry c v t)])%list).
    { apply live_id. intros Ht p Hp. apply in_app_or in Hp.
      assert (Hp' : exists kv, In kv (kvs ++ [(k, v, t)])%list
                               /\ p = recordOf c kv).
      { destruct Hp as [Hp|[<-|[]]].
        - apply HL, in_map_iff in Hp. destruct Hp as [kv [<- Hkv]].
          exists kv. split; [apply in_or_app; now left|reflexivity].
        - exists (k, v, t). split; [apply in_or_app; right; now left|].
          reflexivity. }
      destruct Hp' as [kv [Hkv ->]].
      unfold recordOf, isExpired, newEntry. simpl. rewrite Ht.
      apply Z.leb_gt. apply (Hexp Ht (k, v, t) kv); [|exact Hkv].
      apply in_or_app. right. now left. }
    unfold map_delete at 1. rewrite filter_app. fold (map_delete k R).
    fold (map_delete k L). rewrite Hk, <- app_assoc, live_app, Hlive.
    rewrite lastn_app. eexists. split; [|f_equal].
    + intros p Hp. apply In_lastn in Hp. apply HRin.
      assert (Hp' : In p (map_delete k R)).
      { revert Hp. unfold live. destruct (hasTtl c); [|auto].
        rewrite pruneExpired_filter. intros Hp. now apply filter_In in Hp. }
      unfold map_delete in Hp'. now apply filter_In in Hp'.
    + unfold L. rewrite lastn_lastn_app_one, map_app. reflexivity.
Qed.

End Insertions.

End Facts.
End StoreFacts.

(** * The store: where the entries come from *)

Module StoreOrigin.
Import Store StoreFacts.

#[local] Arguments Z.mul : simpl never.
#[local] Arguments Z.add : simpl never.
#[local] Arguments Z.sub : simpl never.

Section Origin.

Variable V : Type.

Implicit Types (m : Items V) (c : LruCache V) (e : CacheEntryWrapper V).
Implicit Types (k key : string) (op : Op V) (p : string * CacheEntryWrapper V).

Lemma evictLoop_incl n m p : In p (evictLoop n m) -> In p m.
Proof.
  revert m. induction n as [|n IH]; intros m; [auto|].
  destruct m as [|[k e] m]; [auto|].
  cbn [evictLoop]. intros H. apply IH in H.
  unfold map_delete in H. now apply filter_In in H.
Qed.

Lemma live_incl c now m p : In p (live c now m) -> In p m.
Proof.
  unfold live. destruct (hasTtl c); [|auto].
  rewrite pruneExpired_filter. intros H. now apply filter_In in H.
Qed.

Lemma evictOverflow_incl now c p :
  In p (items (evictOverflow now c)) -> In p (items c).
Proof.
  unfold evictOverflow. destruct (max (options c) <=? 0); [intros []|].
  fold (live c now (items c)).
  destruct (0 <? map_size (live c now (items c)) - max (options c));
    cbn [items with_items]; intros H.
  - apply evictLoop_incl in H. now apply live_incl in H.
  - now apply live_incl in H.
Qed.

Lemma set_incl k v now c p :
  In p (items (set k v now c)) ->
  In p (items c) \/ p = (k, newEntry c v now).
Proof.
  unfold set. intros H. apply evictOverflow_incl in H.
  cbn [items with_items] in H. rewrite map_set_delete in H.
  apply in_app_or in H. destruct H as [H|[H|[]]].
  - left. unfold map_delete in H. now apply filter_In in H.
  - right. rewrite <- H. unfold newEntry. now destruct (hasTtl c).
Qed.

(** An entry of the store after an operation was there before, or it is
    the record that this [set] built. *)
Lemma apply_incl op c p :
  In p (items (apply op c)) ->
  In p (items c)
  \/ exists k v now, op = OpSet k v now /\ p = (k, newEntry c v now).
Proof.
  destruct op; cbn [apply].
  - intros H. apply set_incl in H. destruct H as [H|H]; [now left|].
    right. now exists key, v, now.
  - unfold get. destruct (map_get key (items c)) as [e|] eqn:G; [|now left].
    destruct (hasTtl c && isExpired now e); cbn [snd items with_items].
    + intros H. left. unfold map_delete in H. now apply filter_In in H.
    + destruct (9 * max (options c) <? 10 * map_size (items c)); [|now left].
      rewrite map_set_delete. intros H. left.
      apply in_app_or in H. destruct H as [H|[<-|[]]].
      * unfold map_delete in H. now apply filter_In in H.
      * now apply map_get_In.
  - unfold has. destruct (map_get key (items c)) as [e|]; [|now left].
    destruct (hasTtl c && isExpired now e); cbn [snd items with_items];
      [|now left].
    intros H. left. unfold map_delete in H. now apply filter_In in H.
  - cbn [delete snd items with_items]. intros H. left.
    unfold map_delete in H. now apply filter_In in H.
  - intros [].
  - cbn [size snd items with_items]. fold (live c now (items c)).
    intros H. left. now apply live_incl in H.
  - cbn [entries snd items with_items]. intros H. left.
    now apply filter_In in H.
Qed.

(** With a TTL, every record of a store carries an expiry date. *)
Lemma run_expiresAt ops (o : CacheConfig) p :
  0 < ttl (options (new_LruCache (V:=V) o)) ->
  In p (items (run ops (new_LruCache o))) ->
  exists x, expiresAt (snd p) = Some x.
Proof.
  intros HT. revert p. induction ops as [|op ops IH] using rev_ind; intros p.
  - intros [].
  - rewrite run_app. change (run [op] ?c) with (apply op c).
    intros H. apply apply_incl in H. destruct H as [H|[k [v [now [_ ->]]]]].
    + now apply IH.
    + unfold newEntry, hasTtl. rewrite options_run.
      apply Z.ltb_lt in HT. rewrite HT. simpl. eauto.
Qed.

(** After [set key] at time [t], and as long as the key is not set again,
    a record under that key can only be the one built at time [t]. *)
Lemma set_same_key k v t c e :
  In (k, e) (items (set k v t c)) -> e = newEntry c v t.
Proof.
  unfold set. intros H. apply evictOverflow_incl in H.
  cbn [items with_items] in H. rewrite map_set_delete in H.
  apply in_app_or in H. destruct H as [H|[H|[]]].
  - exfalso. apply (keys_map_delete V (items c) k).
    unfold keys. apply in_map_iff. now exists (k, e).
  - injection H as <-. unfold newEntry. now destruct (hasTtl c).
Qed.

Lemma run_after_set ops k v t c e :
  Forall (fun op => setsKey k op = false) ops ->
  In (k, e) (items (run ops (set k v t c))) ->
  e = newEntry c v t.
Proof.
  revert e. induction ops as [|op ops IH] using rev_ind; intros e Hops.
  - apply set_same_key.
  - apply Forall_app in Hops. destruct Hops as [Hops Hop].
    rewrite run_app. change (run [op] ?c) with (apply op c).
    intros H. apply apply_incl in H.
    destruct H as [H|[k' [v' [now [-> H]]]]].
    + now apply IH.
    + exfalso. injection H as <- _. inversion Hop as [|? ? Hk _]; subst.
      simpl in Hk. now rewrite String.eqb_refl in Hk.
Qed.

End Origin.
End StoreOrigin.

(** * The store: capacity and expiry *)

Module StoreTheorems.
Import Store StoreFacts StoreOrigin.

#[local] Arguments Z.mul : simpl never.
#[local] Arguments Z.add : simpl never.
#[local] Arguments Z.sub : simpl never.

Section Capacity.

Variable V : Type.

(** C4 (capacity bound).  Take a store built with a capacity [max >= 0] and
    brought to any state [c] by any sequence of [set], [get], [has],
    [delete], [clear], [size] and [entries].  Then [c] holds at most [max]
    entries, the size it reports is at most [max], and it is empty when
    [max = 0].  A [set] keeps, of the live entries with the new key placed
    last, exactly the [max] most recent ones: eviction takes the entries
    from the oldest position on.  And after the insertion into [c] of
    [N > max] distinct keys, none of whose records expires meanwhile, the
    keys of the store are the last [max] keys inserted: the least recently
    touched entries are the ones evicted. *)
Theorem capacity_bound
  (cfg : CacheConfig) (ops : list (Op V)) (k : string) (v : V) (now : Z)
  (kvs : list (string * V * Z)) :
  let c := run ops (new_LruCache cfg) in
  let M := max (options c) in
  0 <= M ->
  NoDup (List.map (fun kv => fst (fst kv)) kvs) ->
  (0 < ttl (options c) ->
   forall a b, In a kvs -> In b kvs -> snd a < snd b + ttl (options c)) ->
  M < Z.of_nat (List.length kvs) ->
  map_size (items c) <= M
  /\ fst (size now c) <= M
  /\ (M = 0 -> items c = [])
  /\ (0 < M ->
      items (set k v now c)
      = lastn (Z.to_nat M)
          (live c now (map_delete k (items c) ++ [(k, newEntry c v now)])%list))
  /\ keys (items (run (insertAll kvs) c))
     = lastn (Z.to_nat M) (List.map (fun kv => fst (fst kv)) kvs).
Proof.
  intros c M HM Hnd Hexp HN.
  assert (Hwf : wf c) by (apply wf_run, wf_new).
  assert (Hb : bounded c).
  { apply bounded_run.
    - apply wf_new.
    - unfold M, c in HM. now rewrite options_run in HM.
    - unfold bounded, map_size. simpl.
      unfold M, c in HM. now rewrite options_run in HM. }
  split; [exact Hb|]. split; [|split; [|split]].
  - cbn [size fst]. fold (live c now (items c)). unfold map_size.
    pose proof (live_length V c now (items c)).
    unfold bounded, map_size in Hb. fold M in Hb. lia.
  - intros H0. unfold bounded, map_size in Hb. fold M in Hb.
    destruct (items c); [reflexivity|]. simpl in Hb. lia.
  - intros H0. now apply items_set.
  - assert (Hb' : bounded (run (insertAll kvs) c)).
    { apply bounded_run; assumption. }
    unfold bounded, map_size in Hb'. rewrite options_run in Hb'. fold M in Hb'.
    destruct (Z.eq_dec M 0) as [H0|H0].
    + rewrite H0 in *. destruct (items (run (insertAll kvs) c)).
      * unfold lastn. simpl. now rewrite Nat.sub_0_r, skipn_all.
      * simpl in Hb'. lia.
    + destruct (items_insertAll V c Hwf ltac:(fold M; lia) kvs Hnd)
        as [R [_ HR]].
      { intros Ht. apply Hexp. unfold hasTtl in Ht. now apply Z.ltb_lt. }
      fold M in HR. rewrite HR in Hb' |- *.
      rewrite length_app, lastn_length, length_map in Hb'.
      assert (R = []) by (destruct R; [reflexivity|simpl in Hb'; lia]).
      subst R. simpl. unfold keys. rewrite lastn_map, map_map. reflexivity.
Qed.

End Capacity.

(** An instance: capacity 2, three keys. *)
Lemma capacity_bound_witness :
  keys (items (run (insertAll [("a", 1%nat, 10); ("b", 2%nat, 20);
                               ("c", 3%nat, 30)])
                 (new_LruCache {| cfg_max := Some 2; cfg_ttl := Some 1000 |})))
  = ["b"; "c"].
Proof.
  refine (proj2 (proj2 (proj2 (proj2
    (capacity_bound nat {| cfg_max := Some 2; cfg_ttl := Some 1000 |}
       [] "a" 0%nat 0
       [("a", 1%nat, 10); ("b", 2%nat, 20); ("c", 3%nat, 30)] _ _ _ _))))).
  - vm_compute. discriminate.
  - simpl. repeat (constructor; [simpl; intuition discriminate|]).
    constructor.
  - intros _ a b Ha Hb. simpl in Ha, Hb.
    destruct Ha as [<-|[<-|[<-|[]]]]; destruct Hb as [<-|[<-|[<-|[]]]];
      vm_compute; reflexivity.
  - vm_compute. reflexivity.
Defined.

Section Expiry.

Variable V : Type.

(** C6 (TTL expiry).  In a store with [ttl = T > 0], reached by any
    sequence of operations, let [key] be set at time [t], and let any
    operations follow that do not set [key] again.  Once the clock exceeds
    [t + T], [has] answers [false] and [get] answers absent for [key], and
    no record is left under [key] by either access.  Moreover whenever a
    [get] returns a value, the record it comes from carries an expiry date
    that is later than the clock reading of that [get]. *)
Theorem ttl_expiry
  (cfg : CacheConfig) (T : Z) (ops ops' : list (Op V))
  (key : string) (v : V) (t now : Z)
  (key' : string) (now' : Z) (v' : V) :
  let c0 := run ops (new_LruCache cfg) in
  let c := run ops' (set key v t c0) in
  ttl (options c0) = T -> 0 < T ->
  Forall (fun op => setsKey key op = false) ops' ->
  t + T < now ->
  fst (has key now c) = false
  /\ fst (get key now c) = None
  /\ map_get key (items (snd (has key now c))) = None
  /\ map_get key (items (snd (get key now c))) = None
  /\ (fst (get key' now' c0) = Some v' ->
      exists e x, map_get key' (items c0) = Some e /\ value e = v'
                  /\ expiresAt e = Some x /\ now' < x).
Proof.
  intros c0 c HT Hpos Hops Hnow.
  assert (Ho0 : options c0 = options (new_LruCache (V:=V) cfg))
    by apply options_run.
  assert (Ho : options c = options c0).
  { unfold c. rewrite options_run. unfold set.
    now rewrite options_evictOverflow. }
  assert (Httl0 : hasTtl c0 = true) by (unfold hasTtl; apply Z.ltb_lt; lia).
  assert (Httl : hasTtl c = true) by now rewrite (hasTtl_options V c0 c Ho).
  assert (Hdead : forall e, map_get key (items c) = Some e ->
                            isExpired now e = true).
  { intros e He. apply map_get_In in He.
    apply run_after_set in He; [|exact Hops]. subst e.
    unfold isExpired, newEntry. rewrite Httl0. cbn [expiresAt].
    apply Z.leb_le. lia. }
  assert (Hlast : fst (get key' now' c0) = Some v' ->
      exists e x, map_get key' (items c0) = Some e /\ value e = v'
                  /\ expiresAt e = Some x /\ now' < x).
  { unfold get. destruct (map_get key' (items c0)) as [e|] eqn:G;
      [|discriminate].
    rewrite Httl0. destruct (isExpired now' e) eqn:E; [discriminate|].
    cbn [andb fst]. intros Hv. injection Hv as Hv.
    destruct (run_expiresAt V ops cfg (key', e)) as [x Hx].
    - rewrite <- Ho0. lia.
    - now apply map_get_In.
    - exists e, x. repeat split; try assumption.
      unfold isExpired in E. cbn [snd] in Hx. rewrite Hx in E.
      now apply Z.leb_gt in E. }
  unfold has, get.
  destruct (map_get key (items c)) as [e|] eqn:G.
  - rewrite Httl, (Hdead e eq_refl). cbn [andb fst snd items with_items].
    rewrite (proj2 (map_get_None_keys V _ key) (keys_map_delete V _ key)).
    repeat split; try reflexivity. exact Hlast.
  - cbn [fst snd]. rewrite G. repeat split; try reflexivity. exact Hlast.
Qed.

End Expiry.

(** An instance: [ttl = 100], the key set at time 10 and probed at time
    111, after a hit at time 50 and the insertion of another key. *)
Lemma ttl_expiry_witness :
  let c := run [OpGet "k" 50; OpSet "j" 2%nat 60]
             (set "k" 1%nat 10
                (run [OpSet "z" 7%nat 0]
                   (new_LruCache {| cfg_max := Some 2; cfg_ttl := Some 100 |})))
  in
  fst (has "k" 111 c) = false /\ fst (get "k" 111 c) = None.
Proof.
  pose proof (ttl_expiry nat {| cfg_max := Some 2; cfg_ttl := Some 100 |} 100
                [OpSet "z" 7%nat 0] [OpGet "k" 50; OpSet "j" 2%nat 60]
                "k" 1%nat 10 111 "z" 5 7%nat) as H.
  cbv zeta in H. intros c.
  destruct H as [H1 [H2 _]].
  - reflexivity.
  - lia.
  - repeat constructor.
  - lia.
  - split; [exact H1|exact H2].
Defined.

End StoreTheorems.

(** * The identity registry and the keys *)

Module KeyFacts.

Lemma extends_refl r : extends r r.
Proof. repeat split; auto. Qed.

Lemma extends_trans r1 r2 r3 : extends r1 r2 -> extends r2 r3 -> extends r1 r3.
Proof.
  intros (A1 & B1 & C1 & D1) (A2 & B2 & C2 & D2).
  repeat split; intros.
  - now apply A2, A1.
  - now apply B2, B1.
  - now apply C2, C1.
  - eapply D2; eauto.
Qed.

Lemma assoc_cons_other {A B : Type}
  (eq_dec : forall a b : A, {a = b} + {a <> b}) (k k' : A) (v v' : B) l :
  assoc eq_dec k l = None -> assoc eq_dec k' l = Some v' ->
  assoc eq_dec k' ((k, v) :: l) = Some v'.
Proof.
  intros Hk Hk'. simpl. destruct (eq_dec k k') as [->|]; [congruence|exact Hk'].
Qed.

Lemma assoc_cons_same {A B : Type}
  (eq_dec : forall a b : A, {a = b} + {a <> b}) (k : A) (v : B) l :
  assoc eq_dec k ((k, v) :: l) = Some v.
Proof. simpl. destruct (eq_dec k k); congruence. Qed.

(** Same reference, same identifier: an identifier, once handed out, is
    the answer in every later registry, which the request leaves as it
    is. *)
Lemma idForObject_stable v r s r' :
  idForObject v r = (s, r') ->
  extends r r' /\ forall r'', extends r' r'' -> idForObject v r'' = (s, r'').
Proof.
  unfold idForObject. destruct (assoc Value_eq_dec v (objectIds r)) eqn:E.
  - intros H. injection H as <- <-. split; [apply extends_refl|].
    intros r'' (A & _). now rewrite (A _ _ E).
  - intros H. injection H as <- <-. split.
    + repeat split; cbn; auto. intros v' id' H'.
      apply (assoc_cons_other Value_eq_dec); assumption.
    + intros r'' (A & _). erewrite A; [reflexivity|].
      apply assoc_cons_same.
Qed.

Lemma idForFunction_stable f r s r' :
  idForFunction f r = (s, r') ->
  extends r r' /\ forall r'', extends r' r'' -> idForFunction f r'' = (s, r'').
Proof.
  unfold idForFunction. destruct (assoc Nat.eq_dec f (functionIds r)) eqn:E.
  - intros H. injection H as <- <-. split; [apply extends_refl|].
    intros r'' (_ & B & _). now rewrite (B _ _ E).
  - intros H. injection H as <- <-. split.
    + repeat split; cbn; auto. intros f' id' H'.
      apply (assoc_cons_other Nat.eq_dec); assumption.
    + intros r'' (_ & B & _). erewrite B; [reflexivity|].
      apply assoc_cons_same.
Qed.

Lemma idForSymbol_fresh y r id :
  assoc JsSymbol_eq_dec y (symbolIds r) = None ->
  (forall g, sym_keyFor y = Some g -> truthy g = false) ->
  let r1 := {| objectIds := objectIds r;
               nextObjectId := nextObjectId r;
               functionIds := functionIds r;
               nextFunctionId := nextFunctionId r;
               symbolIds := (y, id) :: symbolIds r;
               nextSymbolId := S (nextSymbolId r) |} in
  extends r r1
  /\ forall r'', extends r1 r'' -> idForSymbol y r'' = (id, r'').
Proof.
  intros E Hg r1. split.
  - repeat split; cbn; auto.
    + intros y' id' H'. apply (assoc_cons_other JsSymbol_eq_dec); assumption.
    + intros y' g Hy' Hg' Hn. destruct (JsSymbol_eq_dec y y') as [->|];
        [|exact Hn]. rewrite (Hg g Hy') in Hg'. discriminate.
  - intros r'' (_ & _ & C & _). unfold idForSymbol.
    erewrite C; [reflexivity|]. apply assoc_cons_same.
Qed.

Lemma idForSymbol_stable y r s r' :
  idForSymbol y r = (s, r') ->
  extends r r' /\ forall r'', extends r' r'' -> idForSymbol y r'' = (s, r'').
Proof.
  intros H. unfold idForSymbol in H.
  destruct (assoc JsSymbol_eq_dec y (symbolIds r)) eqn:E.
  - injection H as <- <-. split; [apply extends_refl|].
    intros r'' (_ & _ & C & _). unfold idForSymbol. now rewrite (C _ _ E).
  - destruct (sym_keyFor y) as [g|] eqn:G.
    + destruct (truthy g) eqn:T.
      * injection H as <- <-. split; [apply extends_refl|].
        intros r'' (_ & _ & _ & D). unfold idForSymbol.
        rewrite (D y g G T E), G, T. reflexivity.
      * injection H as <- <-. apply idForSymbol_fresh; [exact E|].
        intros g' Hg'. rewrite G in Hg'. injection Hg' as <-. exact T.
    + injection H as <- <-. apply idForSymbol_fresh; [exact E|].
      intros g' Hg'. rewrite G in Hg'. discriminate.
Qed.

Lemma serializeArgument_stable v r s r' :
  serializeArgument v r = (s, r') ->
  extends r r'
  /\ forall r'', extends r' r'' -> serializeArgument v r'' = (s, r'').
Proof.
  destruct v; cbn [serializeArgument];
    try (intros H; injection H as <- <-;
         split; [apply extends_refl|reflexivity]).
  - apply idForSymbol_stable.
  - apply idForFunction_stable.
  - apply idForObject_stable.
  - apply idForObject_stable.
  - apply idForObject_stable.
  - apply idForObject_stable.
Qed.

Lemma serializeArguments_stable args r ss r' :
  serializeArguments args r = (ss, r') ->
  extends r r'
  /\ forall r'', extends r' r'' -> serializeArguments args r'' = (ss, r'').
Proof.
  revert r ss r'. induction args as [|a args IH]; intros r ss r'.
  - intros H. injection H as <- <-. split; [apply extends_refl|reflexivity].
  - cbn [serializeArguments].
    destruct (serializeArgument a r) as [s r1] eqn:E1.
    destruct (serializeArguments args r1) as [ss' r2] eqn:E2.
    intros H. injection H as <- <-.
    apply serializeArgument_stable in E1. destruct E1 as [X1 S1].
    apply IH in E2. destruct E2 as [X2 S2].
    split; [eapply extends_trans; eassumption|].
    intros r'' Hx. rewrite (S1 r''), (S2 r'') by
      (try assumption; eapply extends_trans; eassumption).
    reflexivity.
Qed.

(** The key of a call is the same whenever it is computed again. *)
Lemma makeKey_stable functionKey args r key r' :
  makeKey functionKey args r = (key, r') ->
  extends r r'
  /\ forall r'', extends r' r'' -> makeKey functionKey args r'' = (key, r'').
Proof.
  unfold makeKey. destruct args as [|a args].
  - intros H. injection H as <- <-. split; [apply extends_refl|reflexivity].
  - destruct (serializeArguments (a :: args) r) as [ss r1] eqn:E.
    intros H. injection H as <- <-.
    apply serializeArguments_stable in E. destruct E as [X S].
    split; [exact X|]. intros r'' Hx. now rewrite (S r'' Hx).
Qed.

End KeyFacts.

(** * The store as the facade uses it: hits, misses and insertions *)

Module LookupFacts.
Import Store StoreFacts StoreOrigin.

#[local] Arguments Z.mul : simpl never.
#[local] Arguments Z.add : simpl never.
#[local] Arguments Z.sub : simpl never.

Section Lookup.

Variable V : Type.

Implicit Types (m : Items V) (c : LruCache V) (e : CacheEntryWrapper V).
Implicit Types (k key : string).

Lemma map_get_app m1 m2 k :
  map_get k (m1 ++ m2)%list
  = match map_get k m1 with Some e => Some e | None => map_get k m2 end.
Proof.
  induction m1 as [|[k' e'] m1 IH]; simpl; [reflexivity|].
  destruct (String.eqb k' k); [reflexivity|exact IH].
Qed.

Lemma map_get_NoDup m k e :
  NoDup (keys m) -> In (k, e) m -> map_get k m = Some e.
Proof.
  induction m as [|[k' e'] m IH]; simpl; [intros _ []|].
  intros Hnd [H|H].
  - injection H as -> ->. now rewrite String.eqb_refl.
  - inversion Hnd as [|? ? Hn Hd]; subst.
    destruct (String.eqb k' k) eqn:E; [|now apply IH].
    apply String.eqb_eq in E. subst. exfalso. apply Hn.
    unfold keys. apply in_map_iff. now exists (k, e).
Qed.

Lemma map_get_delete m k : map_get k (map_delete k m) = None.
Proof. apply map_get_None_keys, keys_map_delete. Qed.

(** A live record is returned by [get] and is still there afterwards. *)
Lemma get_hit key now c e :
  map_get key (items c) = Some e ->
  (hasTtl c = true -> isExpired now e = false) ->
  fst (get key now c) = Some (value e)
  /\ map_get key (items (snd (get key now c))) = Some e
  /\ options (snd (get key now c)) = options c.
Proof.
  intros G Hlive. unfold get. rewrite G.
  assert (H : hasTtl c && isExpired now e = false).
  { destruct (hasTtl c); [now apply Hlive|reflexivity]. }
  rewrite H. cbn [fst snd options with_items items].
  repeat split.
  destruct (9 * max (options c) <? 10 * map_size (items c)); [|exact G].
  rewrite map_set_delete, map_get_app, map_get_delete. simpl.
  now rewrite String.eqb_refl.
Qed.

(** A miss leaves the map without the key, and otherwise as it was. *)
Lemma get_miss key now c :
  fst (get key now c) = None ->
  items (snd (get key now c)) = map_delete key (items c)
  /\ options (snd (get key now c)) = options c
  /\ (map_get key (items c) = None -> snd (get key now c) = c).
Proof.
  unfold get. destruct (map_get key (items c)) as [e|] eqn:G.
  - destruct (hasTtl c && isExpired now e); [|discriminate].
    intros _. cbn [snd items options with_items]. repeat split. discriminate.
  - intros _. cbn [snd]. repeat split.
    symmetry. apply map_delete_absent. now apply map_get_None_keys.
Qed.

(** With a positive capacity, the record that [set] builds is in the
    store when [set] returns. *)
Lemma set_lookup key v now c :
  wf c -> 0 < max (options c) ->
  map_get key (items (set key v now c)) = Some (newEntry c v now).
Proof.
  intros Hwf Hmax. rewrite items_set by assumption.
  rewrite live_app.
  assert (Hnew : live c now [(key, newEntry c v now)]
                 = [(key, newEntry c v now)]).
  { apply live_id. intros Ht p [<-|[]]. unfold isExpired, newEntry.
    rewrite Ht. cbn [snd expiresAt]. apply Z.leb_gt.
    unfold hasTtl in Ht. apply Z.ltb_lt in Ht. lia. }
  rewrite Hnew.
  destruct (Z.to_nat (max (options c))) as [|n] eqn:En; [lia|].
  rewrite lastn_app_one, map_get_app.
  destruct (map_get key (lastn n (live c now (map_delete key (items c)))))
    as [e|] eqn:G.
  - exfalso. apply map_get_In, In_lastn, live_incl in G.
    apply (keys_map_delete V (items c) key).
    unfold keys. apply in_map_iff. now exists (key, e).
  - simpl. now rewrite String.eqb_refl.
Qed.

Lemma options_set key v now c : options (set key v now c) = options c.
Proof. unfold set. now rewrite options_evictOverflow. Qed.

Lemma wf_set key v now c : wf c -> wf (set key v now c).
Proof. apply (wf_apply V (OpSet key v now)). Qed.

Lemma wf_get key now c : wf c -> wf (snd (get key now c)).
Proof. apply (wf_apply V (OpGet key now)). Qed.

Lemma wf_delete key c : wf c -> wf (snd (delete key c)).
Proof. apply (wf_apply V (OpDelete key)). Qed.

(** What a successful [get] has found. *)
Lemma get_Some_inv key now c v :
  fst (get key now c) = Some v ->
  exists e, map_get key (items c) = Some e /\ value e = v
            /\ (hasTtl c = true -> isExpired now e = false).
Proof.
  unfold get. destruct (map_get key (items c)) as [e|]; [|discriminate].
  destruct (hasTtl c) eqn:Ht; cbn [andb].
  - destruct (isExpired now e) eqn:Ex; [discriminate|].
    cbn [fst]. intros H. injection H as <-. now exists e.
  - cbn [fst]. intros H. injection H as <-. exists e.
    repeat split. discriminate.
Qed.

End Lookup.
End LookupFacts.

(** * The facade: the two paths of [memoized] *)

Module FacadeFacts.
Import Store StoreFacts LookupFacts KeyFacts Kioku.

#[local] Arguments Z.mul : simpl never.
#[local] Arguments Z.add : simpl never.
#[local] Arguments Z.sub : simpl never.

Section Paths.

Variable U : Type.
Variable program : nat -> list Value -> U -> Completion * U.

Implicit Types (w : World U) (key functionKey : string) (args : list Value).

(** The hit path: the payload of the record, and no invocation. *)
Lemma memoized_hit functionKey f args now w key r e :
  makeKey functionKey args (registry w) = (key, r) ->
  map_get key (items (cache w)) = Some e ->
  (hasTtl (cache w) = true -> isExpired now e = false) ->
  memoized program functionKey f args now w
  = (Normal (payload (value e)),
     with_cache (with_registry w r) (snd (get key now (cache w)))).
Proof.
  intros Hk G Hlive. unfold memoized. rewrite Hk. cbn [with_registry cache].
  destruct (get_hit _ key now (cache w) e G Hlive) as (H1 & _ & _).
  destruct (get key now (cache w)) as [cached c']. cbn [fst snd] in *.
  subst cached. unfold with_cache, with_registry. cbn.
  destruct (value e); reflexivity.
Qed.

(** The miss path: the function is invoked in the world that the lookup
    left, and its result is classified. *)
Lemma memoized_miss functionKey f args now w key r :
  makeKey functionKey args (registry w) = (key, r) ->
  fst (get key now (cache w)) = None ->
  memoized program functionKey f args now w
  = match invoke program f args
            (with_cache (with_registry w r) (snd (get key now (cache w)))) with
    | (Throw e, w3) => (Throw e, w3)
    | (Normal result, w3) =>
        match result with
        | VPromise p =>
            let (v, w4) := cachePromiseResult key p now w3 in (Normal v, w4)
        | _ =>
            if isAsyncGenerator result
            then let (v, w4) := cacheAsyncGeneratorResult key result now w3
                 in (Normal v, w4)
            else if isGenerator result
            then let (v, w4) := cacheGeneratorResult key result now w3
                 in (Normal v, w4)
            else let (v, w4) := cacheSyncResult key result now w3
                 in (Normal v, w4)
        end
    end.
Proof.
  intros Hk Hmiss. unfold memoized. rewrite Hk. cbn [with_registry cache].
  destruct (get key now (cache w)) as [cached c']. cbn [fst snd] in *.
  subst cached. reflexivity.
Qed.

(** Repeated hits: every call returns the payload of the record, and the
    function is not invoked. *)
Lemma callMany_hits functionKey f args times w key e :
  makeKey functionKey args (registry w) = (key, registry w) ->
  map_get key (items (cache w)) = Some e ->
  (hasTtl (cache w) = true ->
   Forall (fun t => isExpired t e = false) times) ->
  let out := callMany program functionKey f args times w in
  fst out = List.map (fun _ => Normal (payload (value e))) times
  /\ invocations (snd out) = invocations w
  /\ user (snd out) = user w
  /\ registry (snd out) = registry w
  /\ map_get key (items (cache (snd out))) = Some e
  /\ options (cache (snd out)) = options (cache w).
Proof.
  revert w. induction times as [|t times IH]; intros w Hk G Hlive.
  - cbn. repeat split. exact G.
  - cbn [callMany].
    assert (Ht : hasTtl (cache w) = true -> isExpired t e = false).
    { intros H. specialize (Hlive H). now inversion Hlive. }
    rewrite (memoized_hit _ _ _ _ _ _ _ _ Hk G Ht).
    destruct (get_hit _ key t (cache w) e G Ht) as (_ & G' & Ho).
    set (w1 := with_cache (with_registry w (registry w))
                 (snd (get key t (cache w)))).
    specialize (IH w1). cbn zeta in IH.
    destruct (callMany program functionKey f args times w1) as [rs w2].
    cbn [fst snd] in *.
    destruct IH as (R1 & R2 & R3 & R4 & R5 & R6).
    + exact Hk.
    + exact G'.
    + cbn [w1 cache with_cache]. intros H.
      rewrite (hasTtl_options _ _ _ Ho) in H. specialize (Hlive H).
      now inversion Hlive.
    + cbn [List.map]. rewrite R1. repeat split; try assumption.
      cbn [w1 cache with_cache] in R6. now rewrite R6.
Qed.

(** A miss whose result is a plain value, followed by calls in the TTL
    window: the first call returns the result, the later ones return what
    unmarshalling makes of the marshalled result, and the function is
    invoked once. *)
Lemma memoized_value_then_hits functionKey f args w now1 times result u' :
  let key := fst (makeKey functionKey args (registry w)) in
  let first := memoized program functionKey f args now1 w in
  let later := callMany program functionKey f args times (snd first) in
  wf (cache w) ->
  0 < max (options (cache w)) ->
  fst (get key now1 (cache w)) = None ->
  program f args (user w) = (Normal result, u') ->
  isPromise result = false ->
  isAsyncGenerator result = false ->
  isGenerator result = false ->
  (0 < ttl (options (cache w)) ->
   Forall (fun t => t < now1 + ttl (options (cache w))) times) ->
  fst first = Normal result
  /\ invocations (snd first) = (invocations w ++ [(f, args)])%list
  /\ map_get key (items (cache (snd first)))
     = Some (newEntry (cache w) (EValue (marshallUndefined result)) now1)
  /\ fst later
     = List.map
         (fun _ => Normal (unmarshallUndefined (marshallUndefined result)))
         times
  /\ invocations (snd later) = invocations (snd first).
Proof.
  intros key first later Hwf Hmax Hmiss Hprog Hp Hag Hg Htimes.
  destruct (makeKey functionKey args (registry w)) as [k r] eqn:Hk.
  cbn [fst] in key. subst key.
  destruct (get_miss _ k now1 (cache w) Hmiss) as (_ & Ho & _).
  assert (Hfirst : first
    = (Normal result,
       {| cache := set k (EValue (marshallUndefined result)) now1
                     (snd (get k now1 (cache w)));
          registry := r; userPromises := userPromises w;
          libPromises := libPromises w; jobs := jobs w; user := u';
          invocations := (invocations w ++ [(f, args)])%list |})).
  { unfold first. rewrite (memoized_miss _ _ _ _ _ _ _ Hk Hmiss).
    unfold invoke. cbn [user with_cache with_registry]. rewrite Hprog.
    destruct result; try discriminate; reflexivity. }
  set (e := newEntry (cache w) (EValue (marshallUndefined result)) now1).
  assert (He : map_get k (items (cache (snd first))) = Some e).
  { rewrite Hfirst. cbn [snd cache]. rewrite set_lookup.
    - unfold e. f_equal. unfold newEntry, hasTtl. now rewrite Ho.
    - now apply wf_get.
    - now rewrite Ho. }
  assert (Ho1 : options (cache (snd first)) = options (cache w)).
  { rewrite Hfirst. cbn [snd cache]. now rewrite options_set. }
  destruct (makeKey_stable _ _ _ _ _ Hk) as [_ Hstable].
  pose proof (callMany_hits functionKey f args times (snd first) k e)
    as Hlater.
  cbn zeta in Hlater. fold later in Hlater.
  destruct Hlater as (L1 & L2 & _).
  - rewrite Hfirst. cbn [snd registry]. apply Hstable, extends_refl.
  - exact He.
  - intros Ht. rewrite (hasTtl_options _ _ _ Ho1) in Ht.
    assert (Hpos : 0 < ttl (options (cache w)))
      by (unfold hasTtl in Ht; now apply Z.ltb_lt in Ht).
    specialize (Htimes Hpos). eapply Forall_impl; [|exact Htimes].
    intros t Hlt. unfold e, isExpired, newEntry. rewrite Ht.
    cbn [expiresAt]. now apply Z.leb_gt.
  - repeat split.
    + now rewrite Hfirst.
    + now rewrite Hfirst.
    + exact He.
    + exact L1.
    + exact L2.
Qed.

(** A miss invokes the function, once. *)
Lemma memoized_miss_invokes functionKey f args now w :
  fst (get (fst (makeKey functionKey args (registry w))) now (cache w)) = None ->
  invocations (snd (memoized program functionKey f args now w))
  = (invocations w ++ [(f, args)])%list.
Proof.
  destruct (makeKey functionKey args (registry w)) as [k r] eqn:Hk.
  cbn [fst]. intros Hmiss.
  rewrite (memoized_miss _ _ _ _ _ _ _ Hk Hmiss). unfold invoke.
  cbn [user with_cache with_registry].
  destruct (program f args (user w)) as [[v|e] u1]; [|reflexivity].
  destruct v; reflexivity.
Qed.

End Paths.
End FacadeFacts.

(** * Marshalling of the result: [null] and [undefined] *)

Module Marshalling.
Import Store StoreFacts LookupFacts KeyFacts Kioku FacadeFacts.

Lemma unmarshall_marshall (v : Value) :
  v <> VNull -> unmarshallUndefined (marshallUndefined v) = v.
Proof. destruct v; intros H; try reflexivity. now elim H. Qed.

Section NullResult.

Variable U : Type.
Variable program : nat -> list Value -> U -> Completion * U.

(** C9 (a cached [null] is read back as [undefined]).  Under the default
    configuration, let a call miss the cache and the function return
    [null].  The call returns [null]; the record it leaves holds the
    sentinel, because marshalling maps [null] to it; and every later call
    with the same arguments inside the TTL window is a hit that returns
    [undefined], the function not being invoked again. *)
Theorem null_result_read_back_as_undefined
  (functionKey : string) (f : nat) (args : list Value) (w : World U)
  (now1 : Z) (times : list Z) (u' : U) :
  let key := fst (makeKey functionKey args (registry w)) in
  let first := memoized program functionKey f args now1 w in
  let later := callMany program functionKey f args times (snd first) in
  options (cache w) = defaultOptions ->
  wf (cache w) ->
  fst (get key now1 (cache w)) = None ->
  program f args (user w) = (Normal VNull, u') ->
  Forall (fun t => t < now1 + 300000) times ->
  fst first = Normal VNull
  /\ invocations (snd first) = (invocations w ++ [(f, args)])%list
  /\ marshallUndefined VNull = undefinedValue
  /\ map_get key (items (cache (snd first)))
     = Some {| value := EValue undefinedValue;
               expiresAt := Some (now1 + 300000) |}
  /\ unmarshallUndefined undefinedValue = VUndefined
  /\ fst later = List.map (fun _ => Normal VUndefined) times
  /\ invocations (snd later) = invocations (snd first).
Proof.
  intros key first later Ho Hwf Hmiss Hprog Htimes.
  destruct (memoized_value_then_hits U program functionKey f args w now1 times
              VNull u') as (H1 & H2 & H3 & H4 & H5); try assumption;
    try reflexivity.
  - rewrite Ho. reflexivity.
  - rewrite Ho. intros _. exact Htimes.
  - fold key first later in H1, H2, H3, H4, H5.
    repeat split; try assumption.
    rewrite H3. unfold newEntry, hasTtl. rewrite Ho. reflexivity.
Qed.

End NullResult.

(** An instance: a function that returns [null], called three times. *)
Lemma null_result_read_back_as_undefined_witness :
  let program := fun (_ : nat) (_ : list Value) (u : unit) => (Normal VNull, u) in
  let first := memoized program "fn:0" 0 [VNumber (NumInt 1)] 0
                 (initialWorld tt) in
  fst first = Normal VNull
  /\ fst (callMany program "fn:0" 0 [VNumber (NumInt 1)] [1; 2] (snd first))
     = [Normal VUndefined; Normal VUndefined].
Proof.
  intros program first.
  pose proof (null_result_read_back_as_undefined unit program "fn:0" 0%nat
                [VNumber (NumInt 1)] (initialWorld tt) 0 [1; 2] tt) as H.
  cbv zeta in H. destruct H as (H1 & _ & _ & _ & _ & H6 & _).
  - reflexivity.
  - constructor.
  - reflexivity.
  - reflexivity.
  - repeat constructor.
  - split; [exact H1|exact H6].
Defined.

(** C1 (idempotence), at a function that returns [null]: under the default
    configuration the first call returns [null], the second call, one
    millisecond later, returns [undefined], and the function was invoked
    once. *)
Theorem memoize_null_not_idempotent :
  let program := fun (_ : nat) (_ : list Value) (u : unit) => (Normal VNull, u) in
  let m := memoize 0 (initialWorld tt) in
  let first := memoized program (fst m) 0 [] 0 (snd m) in
  let second := memoized program (fst m) 0 [] 1 (snd first) in
  options (cache (snd m)) = {| max := 100; ttl := 300000 |}
  /\ fst first = Normal VNull
  /\ fst second = Normal VUndefined
  /\ fst first <> fst second
  /\ invocations (snd second) = [(0%nat, [])].
Proof.
  vm_compute. repeat split. discriminate.
Qed.

(** Every other plain result is read back as it was returned. *)
Lemma memoize_idempotent_unless_null
  (U : Type) (program : nat -> list Value -> U -> Completion * U)
  (functionKey : string) (f : nat) (args : list Value) (w : World U)
  (now1 now2 : Z) (result : Value) (u' : U) :
  let key := fst (makeKey functionKey args (registry w)) in
  let first := memoized program functionKey f args now1 w in
  let second := memoized program functionKey f args now2 (snd first) in
  options (cache w) = defaultOptions ->
  wf (cache w) ->
  fst (get key now1 (cache w)) = None ->
  program f args (user w) = (Normal result, u') ->
  isPromise result = false ->
  isAsyncGenerator result = false ->
  isGenerator result = false ->
  result <> VNull ->
  now2 < now1 + 300000 ->
  fst first = Normal result
  /\ fst second = Normal result
  /\ invocations (snd second) = (invocations w ++ [(f, args)])%list.
Proof.
  intros key first second Ho Hwf Hmiss Hprog Hp Hag Hg Hnn Hnow.
  destruct (memoized_value_then_hits U program functionKey f args w now1
              [now2] result u') as (H1 & H2 & _ & H4 & H5); try assumption.
  - rewrite Ho. reflexivity.
  - rewrite Ho. intros _. now constructor.
  - fold first in H1, H2, H4, H5. cbn [callMany] in H4, H5.
    fold second in H4, H5. destruct second as [r2 w2].
    cbn [fst snd List.map] in *. injection H4 as H4.
    rewrite unmarshall_marshall in H4 by assumption.
    repeat split; congruence.
Qed.

End Marshalling.

(** * Functions that use the library while they run *)

Module ReentrantFacts.
Import Store StoreFacts LookupFacts KeyFacts Kioku FacadeFacts.

#[local] Arguments Z.mul : simpl never.
#[local] Arguments Z.add : simpl never.
#[local] Arguments Z.sub : simpl never.

Section Nested.

Variable U : Type.
Variable code : nat -> list Value -> U -> Z -> Reentrant.Body U.

Implicit Types (w : World U).

(** A call on a miss: the function runs from the state [entered], and
    [complete] finishes the call. *)
Lemma memoized_on_miss fuel functionKey f args now w :
  fst (get (fst (makeKey functionKey args (registry w))) now (cache w))
  = None ->
  Reentrant.memoized code (S fuel) functionKey f args now w
  = Reentrant.complete (fst (makeKey functionKey args (registry w)))
      (Reentrant.runBody (Reentrant.memoized code fuel)
         (code f args (user w) now)
         (Reentrant.entered functionKey f args now w)).
Proof.
  cbn [Reentrant.memoized]. unfold Reentrant.entered.
  destruct (makeKey functionKey args (registry w)) as [k r].
  cbn [fst with_registry cache]. intros Hmiss.
  destruct (get k now (cache w)) as [cached c]. cbn [fst snd] in *.
  subst cached. reflexivity.
Qed.

(** A call on a hit needs a fuel of one. *)
Lemma memoized_on_hit fuel functionKey f args now w entry :
  fst (get (fst (makeKey functionKey args (registry w))) now (cache w))
  = Some entry ->
  Reentrant.memoized code (S fuel) functionKey f args now w
  = Some (Normal (payload entry),
          with_cache
            (with_registry w (snd (makeKey functionKey args (registry w))))
            (snd (get (fst (makeKey functionKey args (registry w))) now
                    (cache w)))).
Proof.
  cbn [Reentrant.memoized].
  destruct (makeKey functionKey args (registry w)) as [k r].
  cbn [fst snd with_registry cache]. intros Hhit.
  destruct (get k now (cache w)) as [cached c]. cbn [fst snd] in *.
  subst cached. reflexivity.
Qed.

Lemma cacheResult_frame key result now w :
  invocations (snd (Reentrant.cacheResult key result now w)) = invocations w
  /\ registry (snd (Reentrant.cacheResult key result now w)) = registry w
  /\ exists v, cache (snd (Reentrant.cacheResult key result now w))
               = set key v now (cache w).
Proof.
  unfold Reentrant.cacheResult.
  destruct result;
    try (destruct (isAsyncGenerator _); [|destruct (isGenerator _)]);
    cbn [snd invocations registry cache with_cache cacheSyncResult
         cachePromiseResult cacheGeneratorResult cacheAsyncGeneratorResult];
    (split; [reflexivity|split; [reflexivity|eexists; reflexivity]]).
Qed.

(** A run only adds to the invocations and to the registry, as soon as
    the nested calls do. *)
Lemma runBody_grows
  (call : string -> nat -> list Value -> Z -> World U
          -> option (Completion * World U)) :
  (forall functionKey f args now w r w',
     call functionKey f args now w = Some (r, w') ->
     (exists l, invocations w' = (invocations w ++ l)%list)
     /\ extends (registry w) (registry w')) ->
  forall (b : Reentrant.Body U) w c t w',
    Reentrant.runBody call b w = Some (c, t, w') ->
    (exists l, invocations w' = (invocations w ++ l)%list)
    /\ extends (registry w) (registry w').
Proof.
  intros Hcall. induction b as [c0 u0 t0|fk f args t0 u0 k IH|f k IH|o t0 k IH
                               |k IH|t0 k IH];
    intros w c t w'; cbn [Reentrant.runBody].
  - intros H. injection H as <- <- <-. cbn. split; [|apply extends_refl].
    exists []. now rewrite app_nil_r.
  - destruct (call fk f args t0 (Reentrant.with_user w u0)) as [[c1 w1]|] eqn:E;
      [|discriminate].
    intros H. apply IH in H. apply Hcall in E. cbn in E.
    destruct E as [[l1 E1] E2]. destruct H as [[l2 H1] H2]. split.
    + exists (l1 ++ l2)%list. now rewrite H1, E1, app_assoc.
    + eapply extends_trans; eassumption.
  - unfold memoize. destruct (idForFunction f (registry w)) as [id r] eqn:E.
    intros H. apply IH in H. cbn in H. destruct H as [H1 H2].
    split; [exact H1|]. apply idForFunction_stable in E.
    eapply extends_trans; [apply E|exact H2].
  - intros H. apply IH in H. unfold setup in H.
    destruct (entries t0 (cache w)) as [pairs c1]. exact H.
  - intros H. apply IH in H. exact H.
  - unfold getCacheStats. destruct (size t0 (cache w)) as [n c1].
    intros H. apply IH in H. exact H.
Qed.

Lemma memoized_grows fuel :
  forall functionKey f args now w r w',
    Reentrant.memoized code fuel functionKey f args now w = Some (r, w') ->
    (exists l, invocations w' = (invocations w ++ l)%list)
    /\ extends (registry w) (registry w').
Proof.
  induction fuel as [|fuel IH]; intros fk f args now w r w';
    [discriminate|].
  cbn [Reentrant.memoized].
  destruct (makeKey fk args (registry w)) as [k r1] eqn:Hk.
  apply makeKey_stable in Hk. destruct Hk as [Hx _].
  cbn [with_registry cache].
  destruct (get k now (cache w)) as [[entry|] c1].
  - intros H. injection H as <- <-. cbn. split; [|exact Hx].
    exists []. now rewrite app_nil_r.
  - unfold Reentrant.complete.
    destruct (Reentrant.runBody _ _ _) as [[[[v|err] t] w1]|] eqn:E;
      [| |discriminate]; apply (runBody_grows _ IH) in E; cbn in E;
      destruct E as [[l E1] E2].
    + destruct (cacheResult_frame k v t w1) as (F1 & F2 & _).
      destruct (Reentrant.cacheResult k v t w1) as [v' w2]. cbn [snd] in *.
      intros H. injection H as <- <-. rewrite F1, F2. split.
      * exists ((f, args) :: l). rewrite E1, <- app_assoc. reflexivity.
      * eapply extends_trans; eassumption.
    + intros H. injection H as <- <-. split.
      * exists ((f, args) :: l). rewrite E1, <- app_assoc. reflexivity.
      * eapply extends_trans; eassumption.
Qed.

End Nested.

(** A function that does not use the library: the nested facade does what
    the plain one does. *)
Lemma memoized_lift (U : Type)
  (program : nat -> list Value -> U -> Completion * U)
  fuel functionKey f args now (w : World U) :
  Reentrant.memoized (Reentrant.lift program) (S fuel) functionKey f args now w
  = Some (Kioku.memoized program functionKey f args now w).
Proof.
  cbn [Reentrant.memoized]. unfold Kioku.memoized.
  destruct (makeKey functionKey args (registry w)) as [k r].
  cbn [with_registry cache].
  destruct (get k now (cache w)) as [[[]|] c]; try reflexivity.
  unfold Reentrant.lift, invoke. cbn [user with_cache with_registry].
  destruct (program f args (user w)) as [[v|err] u1];
    cbn [Reentrant.runBody Reentrant.complete]; [|reflexivity].
  destruct v; try reflexivity; cbn [Reentrant.cacheResult];
    try (destruct (isAsyncGenerator _); [|destruct (isGenerator _)]);
    reflexivity.
Qed.

End ReentrantFacts.

(** * A function that throws *)

Module SyncThrow.
Import Store StoreFacts LookupFacts KeyFacts Kioku FacadeFacts.
Import ReentrantFacts.

(** C7, as the specification words it, fails: the lookup of [memoized]
    deletes an expired record before the function is invoked.  Here a
    function returns once and throws afterwards; the second call comes when
    the record of the first has expired, and the store it leaves is not the
    store it found. *)
Lemma sync_throw_store_changed :
  ~ (forall (U : Type) (program : nat -> list Value -> U -> Completion * U)
       (functionKey : string) (f : nat) (args : list Value) (now : Z)
       (w : World U) (e : Value) (u' : U),
       fst (get (fst (makeKey functionKey args (registry w))) now (cache w))
       = None ->
       program f args (user w) = (Throw e, u') ->
       fst (memoized program functionKey f args now w) = Throw e
       /\ cache (snd (memoized program functionKey f args now w)) = cache w).
Proof.
  intros H.
  pose (program := fun (_ : nat) (_ : list Value) (u : nat) =>
          match u with
          | O => (Normal (VNumber (NumInt 1)), 1%nat)
          | S _ => (Throw (VString "boom"), S u)
          end).
  pose (w := snd (memoized program "fn:0" 0 [] 0 (initialWorld 0%nat))).
  destruct (H nat program "fn:0" 0%nat [] 300000 w (VString "boom") 2%nat)
    as [_ Hc].
  - reflexivity.
  - reflexivity.
  - vm_compute in Hc. discriminate Hc.
Qed.

(** A miss that returns has invoked the function. *)
Lemma nested_miss_invokes (U : Type)
  (code : nat -> list Value -> U -> Z -> Reentrant.Body U)
  fuel functionKey f args now (w : World U) r w' :
  fst (get (fst (makeKey functionKey args (registry w))) now (cache w))
  = None ->
  Reentrant.memoized code fuel functionKey f args now w = Some (r, w') ->
  exists rest, invocations w' = (invocations w ++ (f, args) :: rest)%list.
Proof.
  intros Hmiss. destruct fuel as [|fuel]; [discriminate|].
  rewrite (memoized_on_miss U code fuel functionKey f args now w Hmiss).
  unfold Reentrant.complete, Reentrant.entered.
  destruct (makeKey functionKey args (registry w)) as [k r1].
  cbn [fst] in *.
  destruct (Reentrant.runBody _ _ _) as [[[[v|err] t] w1]|] eqn:E;
    [| |discriminate];
    apply (runBody_grows U _ (memoized_grows U code fuel)) in E;
    destruct E as [[l E] _]; cbn in E.
  - destruct (cacheResult_frame U k v t w1) as (F1 & _).
    destruct (Reentrant.cacheResult k v t w1) as [v' w2]. cbn [snd] in *.
    intros H. injection H as <- <-. exists l.
    rewrite F1, E, <- app_assoc. reflexivity.
  - intros H. injection H as <- <-. exists l.
    rewrite E, <- app_assoc. reflexivity.
Qed.

(** C7 (amended).  When the function throws on a miss, the throw reaches
    the caller unchanged and the wrapper stores nothing: the state after
    the call is the state that the run of the function left.  That run
    started from the store found by the call, except that a record under
    the key of the call, which the lookup found expired, is deleted (with
    no record under that key it is exactly the store found).  When the
    function did not use the library while it ran, the store after the
    call is that store, and no record is under the key.  Whenever no
    record is under the key after the throw, a later call with the same
    arguments is a miss that runs the function again. *)
Theorem sync_throw_stores_nothing
  (U : Type) (code : nat -> list Value -> U -> Z -> Reentrant.Body U)
  (fuel : nat) (functionKey : string) (f : nat) (args : list Value)
  (now : Z) (w : World U) (e : Value) (t : Z) (w' : World U) :
  let key := fst (makeKey functionKey args (registry w)) in
  let w0 := Reentrant.entered functionKey f args now w in
  fst (get key now (cache w)) = None ->
  Reentrant.runBody (Reentrant.memoized code fuel)
    (code f args (user w) now) w0 = Some (Throw e, t, w') ->
  Reentrant.memoized code (S fuel) functionKey f args now w
  = Some (Throw e, w')
  /\ items (cache w0) = map_delete key (items (cache w))
  /\ options (cache w0) = options (cache w)
  /\ (forall e0, map_get key (items (cache w)) = Some e0 ->
                 isExpired now e0 = true)
  /\ (map_get key (items (cache w)) = None -> cache w0 = cache w)
  /\ invocations w0 = (invocations w ++ [(f, args)])%list
  /\ (forall u', code f args (user w) now = Reentrant.Finish (Throw e) u' t ->
        cache w' = cache w0
        /\ map_get key (items (cache w')) = None
        /\ invocations w' = invocations w0)
  /\ (map_get key (items (cache w')) = None ->
      forall n now2,
        Reentrant.memoized code (S n) functionKey f args now2 w'
        = Reentrant.complete key
            (Reentrant.runBody (Reentrant.memoized code n)
               (code f args (user w') now2)
               (Reentrant.entered functionKey f args now2 w'))
        /\ invocations (Reentrant.entered functionKey f args now2 w')
           = (invocations w' ++ [(f, args)])%list
        /\ forall r2 w2,
             Reentrant.memoized code (S n) functionKey f args now2 w'
             = Some (r2, w2) ->
             exists rest,
               invocations w2 = (invocations w' ++ (f, args) :: rest)%list).
Proof.
  intros key w0 Hmiss Hrun.
  assert (Hcall : Reentrant.memoized code (S fuel) functionKey f args now w
                  = Some (Throw e, w')).
  { rewrite (memoized_on_miss U code fuel functionKey f args now w Hmiss).
    fold w0. rewrite Hrun. reflexivity. }
  destruct (get_miss _ key now (cache w) Hmiss) as (Hi & Ho & Hsame).
  assert (Hc0 : cache w0 = snd (get key now (cache w))).
  { unfold w0, key, Reentrant.entered.
    destruct (makeKey functionKey args (registry w)). reflexivity. }
  assert (Hr0 : registry w0 = snd (makeKey functionKey args (registry w))).
  { unfold w0, Reentrant.entered.
    destruct (makeKey functionKey args (registry w)). reflexivity. }
  assert (Hinv : forall now1 (w1 : World U),
            invocations (Reentrant.entered functionKey f args now1 w1)
            = (invocations w1 ++ [(f, args)])%list).
  { intros now1 w1. unfold Reentrant.entered.
    destruct (makeKey functionKey args (registry w1)). reflexivity. }
  assert (Hnone : map_get key (items (cache w0)) = None)
    by (rewrite Hc0, Hi; apply map_get_delete).
  split; [exact Hcall|]. rewrite Hc0.
  split; [exact Hi|]. split; [exact Ho|]. split.
  { intros e0 G. revert Hmiss. unfold get. rewrite G.
    destruct (hasTtl (cache w)); cbn [andb];
      destruct (isExpired now e0); try discriminate; reflexivity. }
  split; [exact Hsame|]. split; [apply Hinv|]. split.
  - intros u' Hcode. rewrite Hcode in Hrun. cbn [Reentrant.runBody] in Hrun.
    injection Hrun as <-. cbn [Reentrant.with_user cache invocations].
    rewrite <- Hc0. repeat split. exact Hnone.
  - intros Hgone n now2.
    assert (Hext : extends (registry w0) (registry w')).
    { apply (runBody_grows U _ (memoized_grows U code fuel)) in Hrun.
      apply Hrun. }
    destruct (makeKey functionKey args (registry w)) as [k r] eqn:Hk.
    cbn [fst snd] in *. subst key.
    destruct (makeKey_stable _ _ _ _ _ Hk) as [_ Hstable].
    rewrite Hr0 in Hext. specialize (Hstable _ Hext).
    assert (Hmiss2 : fst (get (fst (makeKey functionKey args (registry w')))
                            now2 (cache w')) = None).
    { rewrite Hstable. cbn [fst]. unfold get. now rewrite Hgone. }
    split; [|split].
    + rewrite (memoized_on_miss U code n functionKey f args now2 w' Hmiss2).
      now rewrite Hstable.
    + apply Hinv.
    + intros r2 w2 H2.
      exact (nested_miss_invokes U code (S n) functionKey f args now2 w' r2 w2
               Hmiss2 H2).
Qed.

(** An instance: a function that calls itself on the argument 0 when it
    is given another argument, and then throws.  The throw of the outer
    call goes through, the record of the inner call is in the store, and
    no record is under the key of the outer call. *)
Lemma sync_throw_stores_nothing_witness :
  let code := fun (f : nat) (args : list Value) (u : nat) (now : Z) =>
    match args with
    | [VNumber (NumInt 0)] =>
        Reentrant.Finish (Normal (VNumber (NumInt 5))) (S u) now
    | _ =>
        Reentrant.CallMemoized "fn:0" f [VNumber (NumInt 0)] now (S u)
          (fun _ u' => Reentrant.Finish (Throw (VString "boom")) u' now)
    end in
  exists w',
    Reentrant.memoized code 2 "fn:0" 0 [VNumber (NumInt 1)] 7
      (initialWorld 0%nat)
    = Some (Throw (VString "boom"), w')
    /\ keys (items (cache w')) = ["fn:0|n:0"]
    /\ invocations w'
       = [(0%nat, [VNumber (NumInt 1)]); (0%nat, [VNumber (NumInt 0)])].
Proof.
  intros code.
  pose (w0 := Reentrant.entered "fn:0" 0 [VNumber (NumInt 1)] 7
                (initialWorld 0%nat)).
  pose (w' := match Reentrant.runBody (Reentrant.memoized code 1)
                      (code 0%nat [VNumber (NumInt 1)] 0%nat 7) w0 with
              | Some (_, _, x) => x
              | None => w0
              end).
  exists w'.
  pose proof (sync_throw_stores_nothing nat code 1 "fn:0" 0%nat
                [VNumber (NumInt 1)] 7 (initialWorld 0%nat)
                (VString "boom") 7 w' eq_refl eq_refl) as H.
  cbv zeta in H. destruct H as (H1 & _).
  split; [exact H1|]. split; reflexivity.
Defined.

(** A throwing call can leave a record under its own key: a function that
    calls itself with the same arguments when it is first entered, and
    throws when that inner call has returned.  The inner call has stored
    its result under the key; the throw of the outer call goes through,
    and the next call is answered from the store, without invocation. *)
Lemma sync_throw_after_inner_call :
  let code := fun (f : nat) (args : list Value) (u : nat) (now : Z) =>
    match u with
    | O =>
        Reentrant.CallMemoized "fn:0" f args now (S u)
          (fun _ u' => Reentrant.Finish (Throw (VString "boom")) u' now)
    | S _ => Reentrant.Finish (Normal (VNumber (NumInt 7))) (S u) now
    end in
  exists w' w'',
    Reentrant.memoized code 2 "fn:0" 0 [] 0 (initialWorld 0%nat)
    = Some (Throw (VString "boom"), w')
    /\ map_get "fn:0" (items (cache w'))
       = Some {| value := EValue (Plain (VNumber (NumInt 7)));
                 expiresAt := Some 300000 |}
    /\ Reentrant.memoized code 2 "fn:0" 0 [] 1 w'
       = Some (Normal (VNumber (NumInt 7)), w'')
    /\ invocations w'' = invocations w'.
Proof.
  intros code. eexists. eexists.
  split; [vm_compute; reflexivity|]. split; [reflexivity|].
  split; [vm_compute; reflexivity|]. reflexivity.
Qed.

End SyncThrow.

(** * The serializer and the delimiter *)

Module Serializer.
Import Kioku.

Lemma includes_app (c : ascii) (a b : string) :
  includes c (a ++ b) = includes c a || includes c b.
Proof.
  induction a as [|x a IH]; simpl; [reflexivity|].
  now rewrite IH, orb_assoc.
Qed.

Lemma includes_uint (d : Decimal.uint) :
  includes delimiter (NilEmpty.string_of_uint d) = false.
Proof. induction d; simpl; auto. Qed.

Lemma includes_intToString (z : Z) :
  includes delimiter (intToString z) = false.
Proof.
  unfold intToString, NilZero.string_of_int, NilZero.string_of_uint.
  destruct (Z.to_int z) as [d|d]; simpl.
  - destruct d; try reflexivity; apply (includes_uint (_ d)).
  - destruct d; try reflexivity; apply (includes_uint (_ d)).
Qed.

(** [JSON.stringify] escapes the quote, the backslash and the control
    characters; the delimiter goes through as it is. *)
Lemma includes_quoteJsonChar (c : ascii) :
  includes delimiter (quoteJsonChar c) = Ascii.eqb c delimiter.
Proof.
  destruct c as [[|] [|] [|] [|] [|] [|] [|] [|]]; vm_compute; reflexivity.
Qed.

Lemma includes_quoteJsonBody (s : string) :
  includes delimiter (quoteJsonBody s) = includes delimiter s.
Proof.
  induction s as [|c s IH]; [reflexivity|].
  cbn [quoteJsonBody includes].
  now rewrite includes_app, includes_quoteJsonChar, IH.
Qed.

Lemma includes_JSON_stringify (s : string) :
  includes delimiter (JSON_stringify s) = includes delimiter s.
Proof.
  unfold JSON_stringify. cbn [includes].
  rewrite includes_app, includes_quoteJsonBody. cbn.
  now rewrite orb_false_r.
Qed.

(** Where the delimiter can occur in the encoding of a primitive value: in
    the encoding of a string that contains it, and nowhere else. *)
Lemma primitive_encoding_delimiter (v : Value) (r : Registry) :
  includes delimiter (fst (serializeArgument v r))
  = match v with
    | VNull | VUndefined | VBoolean _ | VNumber _ | VBigInt _ => false
    | VString s => includes delimiter s
    | _ => includes delimiter (fst (serializeArgument v r))
    end.
Proof.
  destruct v; try reflexivity.
  - now destruct b.
  - destruct n; try reflexivity. cbn. apply includes_intToString.
  - cbn. apply includes_intToString.
  - cbn [serializeArgument fst].
    destruct (includes "|" s || includes ":" s || Nat.ltb 100 (String.length s))
      eqn:E.
    + cbn. apply includes_JSON_stringify.
    + cbn. reflexivity.
Qed.

(** C5 (the delimiter in the encodings), at the string [a|b]: the guard of
    the serializer sends it to [JSON.stringify], whose output still
    contains the delimiter.  The joined key then does not decompose: the
    one-argument list [a|s:x] and the two-argument list made of [a] after a
    quote and [x] before a quote get the same key, and the second call is
    answered from the record of the first without the function being
    invoked. *)
Theorem string_encoding_contains_delimiter :
  let program := fun (_ : nat) (args : list Value) (u : unit) =>
    (Normal (VNumber (NumInt (Z.of_nat (List.length args)))), u) in
  let one := [VString "a|s:x"] in
  let two := [VString (String dquote "a"); VString (String "x" (String dquote ""))] in
  let m := memoize 0 (initialWorld tt) in
  let first := memoized program (fst m) 0 one 0 (snd m) in
  let second := memoized program (fst m) 0 two 1 (snd first) in
  fst (serializeArgument (VString "a|b") emptyRegistry)
  = "s:" ++ String dquote ("a|b" ++ String dquote "")
  /\ includes delimiter (fst (serializeArgument (VString "a|b") emptyRegistry))
     = true
  /\ one <> two
  /\ fst (makeKey (fst m) one (registry (snd m)))
     = fst (makeKey (fst m) two (registry (snd m)))
  /\ fst first = Normal (VNumber (NumInt 1))
  /\ fst second = Normal (VNumber (NumInt 1))
  /\ fst (program 0%nat two tt) = Normal (VNumber (NumInt 2))
  /\ invocations (snd second) = [(0%nat, one)].
Proof.
  vm_compute. repeat split. discriminate.
Qed.

End Serializer.

(** * Reconfiguration *)

Module Reconfiguration.
Import Store StoreFacts StoreOrigin LookupFacts KeyFacts Kioku FacadeFacts.

#[local] Arguments Z.mul : simpl never.
#[local] Arguments Z.add : simpl never.
#[local] Arguments Z.sub : simpl never.

Section Migration.

Variable V : Type.

Implicit Types (c : LruCache V) (e : CacheEntryWrapper V) (k key : string).

Lemma migrate_run now (pairs : list (string * V)) c :
  migrate now pairs c
  = run (insertAll (List.map (fun kv => (kv, now)) pairs)) c.
Proof.
  revert c. induction pairs as [|kv pairs IH]; intros c; [reflexivity|].
  unfold migrate in *. cbn [fold_left List.map]. rewrite IH. reflexivity.
Qed.

Lemma options_migrate now (pairs : list (string * V)) c :
  options (migrate now pairs c) = options c.
Proof. rewrite migrate_run. apply options_run. Qed.

(** Every record that the loop leaves was in the target already or was
    built by the loop. *)
Lemma migrate_incl now (pairs : list (string * V)) c p :
  In p (items (migrate now pairs c)) ->
  In p (items c) \/ exists v, snd p = newEntry c v now.
Proof.
  revert p. induction pairs as [|kv pairs IH] using rev_ind; intros p.
  - now left.
  - unfold migrate. rewrite fold_left_app. cbn [fold_left].
    fold (migrate now pairs c). intros H.
    apply set_incl in H. destruct H as [H|H]; [now apply IH|].
    right. exists (snd kv). rewrite H. cbn [snd].
    apply newEntry_options, options_migrate.
Qed.

Lemma entries_keys now c :
  List.map fst (fst (entries now c))
  = keys (filter (fun p => negb (hasTtl c && isExpired now (snd p)))
            (items c)).
Proof.
  cbn [entries fst]. unfold keys. rewrite map_map. reflexivity.
Qed.

Lemma entries_In now c k e :
  map_get k (items c) = Some e ->
  (hasTtl c = true -> isExpired now e = false) ->
  In (k, value e) (fst (entries now c)).
Proof.
  intros G Hlive. cbn [entries fst]. apply in_map_iff.
  exists (k, e). split; [reflexivity|]. apply filter_In.
  split; [now apply map_get_In|]. cbn [snd].
  destruct (hasTtl c); [now rewrite Hlive|reflexivity].
Qed.

(** What the loop builds in a fresh store that has room for the live
    entries: one record for each of them, in the same order. *)
Lemma migrate_items now (o : CacheConfig) c :
  wf c ->
  Z.of_nat (List.length (fst (entries now c)))
  <= max (options (new_LruCache (V:=V) o)) ->
  items (migrate now (fst (entries now c)) (new_LruCache o))
  = List.map (fun kv => (fst kv, newEntry (new_LruCache o) (snd kv) now))
      (fst (entries now c)).
Proof.
  intros Hwf Hroom. set (pairs := fst (entries now c)) in *.
  set (new := new_LruCache o) in *.
  destruct (Z.eq_dec (max (options new)) 0) as [H0|H0].
  - destruct pairs; [reflexivity|]. cbn [List.length] in Hroom. lia.
  - assert (Hpos : 0 < max (options new)) by lia.
    rewrite migrate_run.
    destruct (items_insertAll V new (wf_new V o) Hpos
                (List.map (fun kv => (kv, now)) pairs)) as [R [HRin HR]].
    + rewrite map_map. cbn [fst]. unfold pairs. rewrite entries_keys.
      now apply NoDup_keys_filter.
    + intros Ht a b Ha Hb. apply in_map_iff in Ha, Hb.
      destruct Ha as [a' [<- _]]. destruct Hb as [b' [<- _]]. cbn [snd].
      unfold hasTtl in Ht. apply Z.ltb_lt in Ht. lia.
    + rewrite HR. assert (R = []) as ->.
      { destruct R as [|p R]; [reflexivity|]. destruct (HRin p). now left. }
      rewrite map_map. cbn [fst snd app].
      apply lastn_all. rewrite length_map. lia.
Qed.

End Migration.
Section Setup.

Variable U : Type.
Variable program : nat -> list Value -> U -> Completion * U.

Implicit Types (w : World U).

Lemma cache_setup o now w :
  cache (setup o now w)
  = migrate now (fst (entries now (cache w))) (new_LruCache o).
Proof. unfold setup. destruct (entries now (cache w)). reflexivity. Qed.



(** C10 (the expiry clock is reset).  When the new configuration has
    [ttl = T' > 0], every record of the new store expires at the migration
    time plus [T'].  In particular, if the unexpired entries fit in the new
    capacity, a record of the old store that is still live at the migration
    time, however close to its expiry, is in the new store with that fresh
    expiry date. *)
Theorem setup_resets_expiry
  (o : CacheConfig) (now T' : Z) (w : World U) :
  let w' := setup o now w in
  ttl (mergeOptions defaultOptions o) = T' ->
  0 < T' ->
  (forall p, In p (items (cache w')) -> expiresAt (snd p) = Some (now + T'))
  /\ (wf (cache w) ->
      Z.of_nat (List.length (fst (entries now (cache w))))
      <= max (mergeOptions defaultOptions o) ->
      forall k e,
        map_get k (items (cache w)) = Some e ->
        (hasTtl (cache w) = true -> isExpired now e = false) ->
        map_get k (items (cache w'))
        = Some {| value := value e; expiresAt := Some (now + T') |}).
Proof.
  intros w' HT Hpos.
  set (new := new_LruCache (V:=CacheEntry) o).
  assert (Hnew : forall v, newEntry new v now
                           = {| value := v; expiresAt := Some (now + T') |}).
  { intros v. unfold newEntry, hasTtl. cbn [options new new_LruCache].
    rewrite HT. apply Z.ltb_lt in Hpos. now rewrite Hpos. }
  split.
  - intros p Hp. unfold w' in Hp. rewrite cache_setup in Hp.
    apply migrate_incl in Hp. destruct Hp as [[]|[v Hv]].
    fold new in Hv. now rewrite Hv, Hnew.
  - intros Hwf Hroom k e G Hlive.
    pose proof (entries_In _ now (cache w) k e G Hlive) as Hin.
    unfold w'. rewrite cache_setup, migrate_items by assumption.
    fold new. rewrite <- Hnew.
    apply map_get_NoDup.
    + unfold keys. rewrite map_map. cbn [fst]. rewrite entries_keys.
      now apply NoDup_keys_filter.
    + apply in_map_iff. now exists (k, value e).
Qed.

End Setup.


(** An instance: the record of the same scenario, one millisecond before
    its expiry, gets a whole new lifetime. *)
Lemma setup_resets_expiry_witness :
  let program := fun (_ : nat) (args : list Value) (u : unit) =>
    (Normal (VNumber (NumInt (Z.of_nat (List.length args)))), u) in
  let w := snd (memoized program "fn:0" 0 [VNull] 0 (initialWorld tt)) in
  let w' := setup {| cfg_max := Some 1; cfg_ttl := None |} 299999 w in
  map_get "fn:0|null" (items (cache w))
  = Some {| value := EValue (Plain (VNumber (NumInt 1)));
            expiresAt := Some 300000 |}
  /\ map_get "fn:0|null" (items (cache w'))
     = Some {| value := EValue (Plain (VNumber (NumInt 1)));
               expiresAt := Some 599999 |}.
Proof.
  intros program w w'.
  pose proof (setup_resets_expiry unit
                {| cfg_max := Some 1; cfg_ttl := None |} 299999 300000 w)
    as H.
  cbv zeta in H. destruct H as [_ H].
  - reflexivity.
  - lia.
  - split; [reflexivity|].
    apply (H ltac:(vm_compute; repeat constructor; intros [])
             ltac:(vm_compute; discriminate)
             "fn:0|null"
             {| value := EValue (Plain (VNumber (NumInt 1)));
                expiresAt := Some 300000 |}).
    + reflexivity.
    + intros _. reflexivity.
Defined.

End Reconfiguration.

(** * Promises and jobs *)

Module Promises.
Import Store StoreFacts LookupFacts KeyFacts Kioku FacadeFacts.

#[local] Arguments Z.mul : simpl never.
#[local] Arguments Z.add : simpl never.
#[local] Arguments Z.sub : simpl never.

Lemma settleLib_length n s l :
  (n < List.length l)%nat -> List.length (settleLib n s l) = List.length l.
Proof.
  intros H. unfold settleLib.
  rewrite !length_app, length_firstn, length_skipn. simpl. lia.
Qed.

Lemma settleLib_nth_same n s l :
  (n < List.length l)%nat -> nth n (settleLib n s l) None = Some s.
Proof.
  intros H. unfold settleLib. rewrite app_nth2; rewrite length_firstn; [|lia].
  replace (n - Nat.min n (List.length l))%nat with 0%nat by lia. reflexivity.
Qed.

Lemma settleLib_nth_other n m s l :
  (n < List.length l)%nat -> m <> n ->
  nth m (settleLib n s l) None = nth m l None.
Proof.
  intros H Hm. unfold settleLib.
  destruct (Nat.lt_ge_cases m n) as [Hlt|Hge].
  - rewrite app_nth1 by (rewrite length_firstn; lia).
    rewrite nth_firstn. apply Nat.ltb_lt in Hlt. now rewrite Hlt.
  - rewrite app_nth2; rewrite length_firstn; [|lia].
    replace (m - Nat.min n (List.length l))%nat with (S (m - n - 1)) by lia.
    cbn [app nth]. rewrite nth_skipn. f_equal. lia.
Qed.

Lemma removeJob_split i (l : list Job) j :
  nth_error l i = Some j ->
  exists l1 l2, l = (l1 ++ j :: l2)%list /\ removeJob i l = (l1 ++ l2)%list.
Proof.
  intros H. destruct (nth_error_split l i H) as (l1 & l2 & -> & <-).
  exists l1, l2. split; [reflexivity|]. unfold removeJob.
  rewrite firstn_app, firstn_all, Nat.sub_diag. cbn [firstn].
  rewrite app_nil_r. f_equal.
  rewrite skipn_app, skipn_all2 by lia.
  replace (S (List.length l1) - List.length l1)%nat with 1%nat by lia.
  reflexivity.
Qed.

Section Evolution.

Variable U : Type.

Implicit Types (w : World U) (j : Job).

(** The jobs keep their promises apart. *)
Lemma evolves_wfJobs w w' : wfJobs w -> Evolves w w' -> wfJobs w'.
Proof.
  intros [Hnd Hj] Hev. destruct Hev as [Hu Hl Hjobs | n s Hn Hu Hl Hjobs
    | p key Hu Hl Hjobs | i j s Hi Hs Hu Hl Hjobs].
  - unfold wfJobs. now rewrite Hl, Hjobs.
  - unfold wfJobs. now rewrite Hl, Hjobs.
  - unfold wfJobs. rewrite Hl, Hjobs. split.
    + rewrite map_app. apply NoDup_app; [exact Hnd| |].
      * cbn. constructor; [intros [H|[]]; lia|].
        constructor; [intros []|constructor].
      * intros t Ht. apply in_map_iff in Ht. destruct Ht as [j [<- Hin]].
        destruct (Hj j Hin) as [Hlt _]. cbn. intros [H|[H|[]]]; lia.
    + intros j Hin. apply in_app_or in Hin. destruct Hin as [Hin|Hin].
      * destruct (Hj j Hin) as [Hlt Hnone]. rewrite length_app. cbn.
        split; [lia|]. now rewrite app_nth1.
      * rewrite length_app. cbn [List.length].
        destruct Hin as [<-|[<-|[]]]; cbn [target]; (split; [lia|]).
        -- rewrite app_nth2 by lia. now rewrite Nat.sub_diag.
        -- rewrite app_nth2 by lia.
           replace (S (List.length (libPromises w))
                    - List.length (libPromises w))%nat with 1%nat by lia.
           reflexivity.
  - destruct (removeJob_split i (jobs w) j Hi) as (l1 & l2 & E1 & E2).
    destruct (Hj j (nth_error_In _ _ Hi)) as [Hlt _].
    unfold wfJobs. rewrite Hl, Hjobs, E2. rewrite E1, map_app in Hnd.
    cbn [List.map] in Hnd. split.
    + rewrite map_app. eapply NoDup_remove_1, Hnd.
    + intros j' Hin.
      assert (Hin' : In j' (jobs w)).
      { rewrite E1. apply in_app_or in Hin. apply in_or_app.
        destruct Hin; [now left|right; now right]. }
      destruct (Hj j' Hin') as [Hlt' Hnone]. rewrite settleLib_length by lia.
      split; [exact Hlt'|]. rewrite settleLib_nth_other; [exact Hnone|lia|].
      intros Heq. apply NoDup_remove_2 in Hnd. apply Hnd.
      rewrite <- map_app, <- Heq. now apply in_map.
Qed.

(** A settled promise stays as it is. *)
Lemma evolves_settled w w' q s :
  wfJobs w -> Evolves w w' ->
  promiseState q w = Some s -> promiseState q w' = Some s.
Proof.
  intros [Hnd Hj] Hev Hq. destruct Hev as [Hu Hl Hjobs | n s' Hn Hu Hl Hjobs
    | p key Hu Hl Hjobs | i j s' Hi Hs Hu Hl Hjobs];
    destruct q as [m|m]; cbn [promiseState] in *;
    rewrite ?Hu, ?Hl; try assumption.
  - cbn [assoc]. destruct (Nat.eq_dec n m) as [->|]; [congruence|exact Hq].
  - destruct (Nat.lt_ge_cases m (List.length (libPromises w))).
    + now rewrite app_nth1.
    + rewrite nth_overflow in Hq by lia. discriminate.
  - destruct (Hj j (nth_error_In _ _ Hi)) as [Hlt Hnone].
    rewrite settleLib_nth_other; [exact Hq|exact Hlt|]. congruence.
Qed.

(** A pending job is still pending after a step, or it has run: its
    promise has taken the state of its source. *)
Lemma evolves_pending w w' j :
  wfJobs w -> Evolves w w' -> In j (jobs w) ->
  (In j (jobs w') /\ promiseState (LibPromise (target j)) w' = None)
  \/ (exists s, promiseState (source j) w = Some s
                /\ promiseState (LibPromise (target j)) w' = Some s).
Proof.
  intros [Hnd Hj] Hev Hin. destruct (Hj j Hin) as [Hlt Hnone].
  destruct Hev as [Hu Hl Hjobs | n s' Hn Hu Hl Hjobs
    | p key Hu Hl Hjobs | i j' s' Hi Hs Hu Hl Hjobs]; cbn [promiseState].
  - left. now rewrite Hl, Hjobs.
  - left. now rewrite Hl, Hjobs.
  - left. rewrite Hl, Hjobs. split; [apply in_or_app; now left|].
    now rewrite app_nth1.
  - destruct (removeJob_split i (jobs w) j' Hi) as (l1 & l2 & E1 & E2).
    destruct (Hj j' (nth_error_In _ _ Hi)) as [Hlt' _].
    destruct (Nat.eq_dec (target j) (target j')) as [Heq|Hne].
    + assert (j = j') as ->.
      { rewrite E1 in Hin, Hnd. rewrite map_app in Hnd. cbn in Hnd.
        apply in_app_or in Hin. destruct Hin as [Hin|[Hin|Hin]];
          [|now symmetry|]; exfalso; apply NoDup_remove_2 in Hnd;
          apply Hnd; rewrite <- Heq; apply in_or_app;
          [left|right]; now apply in_map. }
      right. exists s'. split; [exact Hs|].
      rewrite Hl. now apply settleLib_nth_same.
    + left. rewrite Hl, Hjobs, E2. split.
      * rewrite E1 in Hin. apply in_app_or in Hin. apply in_or_app.
        destruct Hin as [Hin|[Hin|Hin]]; [now left| |now right].
        subst j'. now elim Hne.
      * rewrite settleLib_nth_other; [exact Hnone|exact Hlt'|exact Hne].
Qed.

End Evolution.

Section Steps.

Variable U : Type.
Variable program : nat -> list Value -> U -> Completion * U.

Implicit Types (w : World U) (j : Job) (e : Event) (es : list Event).

Lemma memoized_evolves functionKey f args now w :
  Evolves w (snd (memoized program functionKey f args now w)).
Proof.
  unfold memoized. destruct (makeKey functionKey args (registry w)) as [k r].
  cbn [with_registry cache].
  destruct (get k now (cache w)) as [[[]|] c]; cbn [snd];
    try (now apply ev_same).
  unfold invoke. cbn [user with_cache with_registry].
  destruct (program f args (user w)) as [[v|err] u1]; [|now apply ev_same].
  destruct v; cbn [snd]; try (now apply ev_same).
  now apply (ev_register _ _ _ p k).
Qed.

Lemma runJob_evolves i w : Evolves w (runJob i w).
Proof.
  unfold runJob. destruct (nth_error (jobs w) i) as [[p key wr|wr o]|] eqn:Hi;
    [| |now apply ev_same].
  - destruct (promiseState p w) as [[v|err]|] eqn:Hp; [| |now apply ev_same].
    + now apply (ev_job _ _ _ i (AwaitPromise p key wr) (Fulfilled v)).
    + now apply (ev_job _ _ _ i (AwaitPromise p key wr) (Rejected err)).
  - destruct (promiseState (LibPromise wr) w) as [s|] eqn:Hp;
      [|now apply ev_same].
    now apply (ev_job _ _ _ i (ReturnWrapped wr o) s).
Qed.

Lemma step_evolves e w : Evolves w (step program e w).
Proof.
  destruct e; cbn [step].
  - apply memoized_evolves.
  - unfold memoize. destruct (idForFunction f (registry w)).
    now apply ev_same.
  - unfold settleUser.
    destruct (assoc Nat.eq_dec n (userPromises w)) eqn:E;
      [now apply ev_same|].
    now apply (ev_settle _ _ _ n s).
  - apply runJob_evolves.
  - unfold setup. destruct (entries now (cache w)). now apply ev_same.
  - now apply ev_same.
  - unfold getCacheStats. destruct (size now (cache w)). now apply ev_same.
Qed.

Lemma steps_cons e es w :
  steps program (e :: es) w = steps program es (step program e w).
Proof. reflexivity. Qed.

Lemma steps_wfJobs es w : wfJobs w -> wfJobs (steps program es w).
Proof.
  revert w. induction es as [|e es IH]; intros w H; [exact H|].
  rewrite steps_cons. apply IH. eapply evolves_wfJobs; [exact H|].
  apply step_evolves.
Qed.

Lemma steps_settled es w q s :
  wfJobs w -> promiseState q w = Some s ->
  promiseState q (steps program es w) = Some s.
Proof.
  revert w. induction es as [|e es IH]; intros w H Hq; [exact Hq|].
  rewrite steps_cons. apply IH.
  - eapply evolves_wfJobs; [exact H|apply step_evolves].
  - eapply evolves_settled; [exact H|apply step_evolves|exact Hq].
Qed.

(** Along any sequence of steps, the promise of a job is pending with the
    job in the queue, or it has the state of the source of the job. *)
Lemma steps_job es w j :
  wfJobs w ->
  (In j (jobs w) /\ promiseState (LibPromise (target j)) w = None)
  \/ (exists s, promiseState (source j) w = Some s
                /\ promiseState (LibPromise (target j)) w = Some s) ->
  let w2 := steps program es w in
  (In j (jobs w2) /\ promiseState (LibPromise (target j)) w2 = None)
  \/ (exists s, promiseState (source j) w2 = Some s
                /\ promiseState (LibPromise (target j)) w2 = Some s).
Proof.
  revert w. induction es as [|e es IH]; intros w Hwf H; [exact H|].
  cbn zeta. rewrite steps_cons.
  pose proof (step_evolves e w) as Hev.
  apply IH; [eapply evolves_wfJobs; eassumption|].
  destruct H as [[Hin Hnone]|[s [Hs Ht]]].
  - destruct (evolves_pending U w _ j Hwf Hev Hin) as [H|[s [Hs Ht]]];
      [now left|].
    right. exists s. split; [|exact Ht].
    eapply evolves_settled; eassumption.
  - right. exists s. split; eapply evolves_settled; eassumption.
Qed.

(** The registry only grows. *)
Lemma registry_memoized functionKey f args now w :
  registry (snd (memoized program functionKey f args now w))
  = snd (makeKey functionKey args (registry w)).
Proof.
  unfold memoized. destruct (makeKey functionKey args (registry w)) as [k r].
  cbn [with_registry cache snd].
  destruct (get k now (cache w)) as [[[]|] c]; cbn [snd]; try reflexivity.
  unfold invoke. cbn [user with_cache with_registry].
  destruct (program f args (user w)) as [[v|err] u1]; [|reflexivity].
  destruct v; reflexivity.
Qed.

Lemma step_extends e w : extends (registry w) (registry (step program e w)).
Proof.
  destruct e; cbn [step].
  - rewrite registry_memoized.
    destruct (makeKey functionKey args (registry w)) as [k r] eqn:Hk.
    now apply makeKey_stable in Hk.
  - unfold memoize. destruct (idForFunction f (registry w)) as [k r] eqn:Hk.
    now apply idForFunction_stable in Hk.
  - unfold settleUser. destruct (assoc Nat.eq_dec n (userPromises w));
      apply extends_refl.
  - unfold runJob.
    destruct (nth_error (jobs w) i) as [[p key wr|wr o]|];
      [| |apply extends_refl].
    + destruct (promiseState p w) as [[v|err]|]; apply extends_refl.
    + destruct (promiseState (LibPromise wr) w); apply extends_refl.
  - unfold setup. destruct (entries now (cache w)). apply extends_refl.
  - apply extends_refl.
  - unfold getCacheStats. destruct (size now (cache w)). apply extends_refl.
Qed.

Lemma steps_extends es w : extends (registry w) (registry (steps program es w)).
Proof.
  revert w. induction es as [|e es IH]; intros w; [apply extends_refl|].
  rewrite steps_cons. eapply extends_trans; [apply step_extends|apply IH].
Qed.

(** The miss path when the result is a promise: [wrapped] and the promise
    of the [async] function are created pending, the two jobs are queued,
    the record holds [wrapped], and the caller gets the promise of the
    [async] function. *)
Lemma memoized_promise functionKey f args now w key r p u' :
  makeKey functionKey args (registry w) = (key, r) ->
  fst (get key now (cache w)) = None ->
  program f args (user w) = (Normal (VPromise p), u') ->
  memoized program functionKey f args now w
  = (Normal (VPromise (LibPromise (S (List.length (libPromises w))))),
     {| cache := set key
                   (EPromise (VPromise (LibPromise (List.length (libPromises w)))))
                   now (snd (get key now (cache w)));
        registry := r;
        userPromises := userPromises w;
        libPromises := (libPromises w ++ [None; None])%list;
        jobs := (jobs w
                 ++ [AwaitPromise p key (List.length (libPromises w));
                     ReturnWrapped (List.length (libPromises w))
                       (S (List.length (libPromises w)))])%list;
        user := u';
        invocations := (invocations w ++ [(f, args)])%list |}).
Proof.
  intros Hk Hmiss Hprog. rewrite (memoized_miss _ _ _ _ _ _ _ _ _ Hk Hmiss).
  unfold invoke. cbn [user with_cache with_registry]. rewrite Hprog.
  reflexivity.
Qed.

Lemma libPromises_memoized functionKey f args now w :
  exists l, libPromises (snd (memoized program functionKey f args now w))
            = (libPromises w ++ l)%list.
Proof.
  unfold memoized. destruct (makeKey functionKey args (registry w)) as [k r].
  cbn [with_registry cache].
  destruct (get k now (cache w)) as [[[]|] c]; cbn [snd];
    try (exists []; cbn; now rewrite app_nil_r).
  unfold invoke. cbn [user with_cache with_registry].
  destruct (program f args (user w)) as [[v|err] u1];
    [|exists []; cbn; now rewrite app_nil_r].
  destruct v; cbn [snd]; try (exists []; cbn; now rewrite app_nil_r).
  now exists [None; None].
Qed.

Lemma NoDup_target_inj (l : list Job) j j' :
  NoDup (List.map target l) -> In j l -> In j' l ->
  target j = target j' -> j = j'.
Proof.
  induction l as [|a l IH]; [intros _ []|].
  cbn [List.map]. intros Hnd Hj Hj' Heq. inversion Hnd as [|? ? Hn Hd]; subst.
  destruct Hj as [->|Hj], Hj' as [->|Hj'].
  - reflexivity.
  - exfalso. apply Hn. rewrite Heq. now apply in_map.
  - exfalso. apply Hn. rewrite <- Heq. now apply in_map.
  - now apply IH.
Qed.

(** The promise of a pending job is settled by no step but the run of that
    job, which gives it the state of the source. *)
Lemma step_settles e w j s :
  wfJobs w -> In j (jobs w) ->
  promiseState (LibPromise (target j)) (step program e w) = Some s ->
  exists i, e = EvJob i /\ nth_error (jobs w) i = Some j
            /\ promiseState (source j) w = Some s.
Proof.
  intros [Hnd Hj] Hin. destruct (Hj j Hin) as [Hlt Hnone].
  assert (Hgrow : forall w', (exists l, libPromises w'
                                        = (libPromises w ++ l)%list) ->
            promiseState (LibPromise (target j)) w' = Some s -> False).
  { intros w' [l Hl]. cbn [promiseState]. rewrite Hl, app_nth1 by exact Hlt.
    congruence. }
  destruct e; cbn [step]; intros Hs.
  - exfalso. eapply Hgrow; [|exact Hs]. apply libPromises_memoized.
  - exfalso. eapply Hgrow; [|exact Hs]. unfold memoize.
    destruct (idForFunction f (registry w)). exists []. cbn.
    now rewrite app_nil_r.
  - exfalso. eapply Hgrow; [|exact Hs]. unfold settleUser.
    destruct (assoc Nat.eq_dec n (userPromises w)); exists []; cbn;
      now rewrite app_nil_r.
  - exists i. split; [reflexivity|]. revert Hs. unfold runJob.
    destruct (nth_error (jobs w) i) as [j'|] eqn:Hi;
      [|cbn [promiseState]; congruence].
    destruct (Hj j' (nth_error_In _ _ Hi)) as [Hlt' _].
    destruct (Nat.eq_dec (target j) (target j')) as [Heq|Hne].
    + assert (j = j') as <-.
      { eapply NoDup_target_inj; try eassumption.
        eapply nth_error_In; eassumption. }
      destruct j as [p key wr|wr o]; cbn [source target] in *.
      * destruct (promiseState p w) as [[v|err]|];
          cbn [promiseState libPromises];
          rewrite ?settleLib_nth_same by exact Hlt; intros H;
          [split; congruence|split; congruence|congruence].
      * destruct (promiseState (LibPromise wr) w) as [s'|];
          cbn [promiseState libPromises] in *;
          rewrite ?settleLib_nth_same by exact Hlt; intros H;
          [split; congruence|congruence].
    + intros Hs. exfalso.
      destruct j' as [p' key' wr'|wr' o']; cbn [target] in *.
      * destruct (promiseState p' w) as [[v|err]|];
          cbn [promiseState libPromises] in Hs;
          rewrite ?settleLib_nth_other in Hs by (assumption || lia);
          congruence.
      * destruct (promiseState (LibPromise wr') w) as [s'|];
          cbn [promiseState libPromises] in Hs;
          rewrite ?settleLib_nth_other in Hs by (assumption || lia);
          congruence.
  - exfalso. eapply Hgrow; [|exact Hs]. unfold setup.
    destruct (entries now (cache w)). exists []. cbn. now rewrite app_nil_r.
  - exfalso. eapply Hgrow; [|exact Hs]. exists []. cbn. now rewrite app_nil_r.
  - exfalso. eapply Hgrow; [|exact Hs]. unfold getCacheStats.
    destruct (size now (cache w)). exists []. cbn. now rewrite app_nil_r.
Qed.

(** A job whose source has settled gives that state to its promise when
    it runs. *)
Lemma runJob_settles i w j s :
  wfJobs w -> nth_error (jobs w) i = Some j ->
  promiseState (source j) w = Some s ->
  promiseState (LibPromise (target j)) (runJob i w) = Some s.
Proof.
  intros [_ Hj] Hi Hs. destruct (Hj j (nth_error_In _ _ Hi)) as [Hlt _].
  unfold runJob. rewrite Hi. destruct j as [p key wr|wr o];
    cbn [source target] in *; rewrite Hs.
  - destruct s; cbn [promiseState libPromises];
      now apply settleLib_nth_same.
  - cbn [promiseState libPromises]. now apply settleLib_nth_same.
Qed.

(** The run of the job of [wrapped] when the promise of the function is
    rejected: the key is deleted and [wrapped] is rejected. *)
Lemma runJob_rejected i w p key wrapped err :
  nth_error (jobs w) i = Some (AwaitPromise p key wrapped) ->
  promiseState p w = Some (Rejected err) ->
  cache (runJob i w) = snd (delete key (cache w))
  /\ libPromises (runJob i w)
     = settleLib wrapped (Rejected err) (libPromises w)
  /\ registry (runJob i w) = registry w
  /\ invocations (runJob i w) = invocations w.
Proof.
  intros Hi Hp. unfold runJob. rewrite Hi, Hp. now repeat split.
Qed.

End Steps.
End Promises.

(** * Deferred results: deduplication and failure eviction *)

Module Deferred.
Import Store StoreFacts LookupFacts KeyFacts Kioku FacadeFacts Promises.

#[local] Arguments Z.mul : simpl never.
#[local] Arguments Z.add : simpl never.
#[local] Arguments Z.sub : simpl never.

Section Deferred.

Variable U : Type.
Variable program : nat -> list Value -> U -> Completion * U.

Implicit Types (w : World U).

(** The world that the first call leaves: the two jobs are in the queue
    and their promises are pending. *)
Lemma first_call_jobs functionKey f args now w p u' :
  let key := fst (makeKey functionKey args (registry w)) in
  let wrapped := List.length (libPromises w) in
  let w1 := snd (memoized program functionKey f args now w) in
  wfJobs w ->
  fst (get key now (cache w)) = None ->
  program f args (user w) = (Normal (VPromise p), u') ->
  wfJobs w1
  /\ (In (AwaitPromise p key wrapped) (jobs w1)
      /\ promiseState (LibPromise wrapped) w1 = None)
  /\ (In (ReturnWrapped wrapped (S wrapped)) (jobs w1)
      /\ promiseState (LibPromise (S wrapped)) w1 = None).
Proof.
  intros key wrapped w1 Hwf Hmiss Hprog.
  destruct (makeKey functionKey args (registry w)) as [k r] eqn:Hk.
  cbn [fst] in key. subst key.
  split.
  - eapply evolves_wfJobs; [exact Hwf|apply memoized_evolves].
  - unfold w1. rewrite (memoized_promise _ _ _ _ _ _ _ _ _ _ _ Hk Hmiss Hprog).
    cbn [snd jobs promiseState libPromises]. fold wrapped. split; split.
    + apply in_or_app. right. now left.
    + rewrite app_nth2 by (unfold wrapped; lia). unfold wrapped.
      now rewrite Nat.sub_diag.
    + apply in_or_app. right. right. now left.
    + rewrite app_nth2 by (unfold wrapped; lia). unfold wrapped.
      replace (S (List.length (libPromises w))
               - List.length (libPromises w))%nat with 1%nat by lia.
      reflexivity.
Qed.


(** C3 (deferred failure eviction).  Let a call miss the cache and the
    function return a promise [p].  Whenever, later on, a step takes
    [wrapped] from pending to rejected, that step is the run of the job
    that awaits [p], [p] is rejected with the same error, and the step has
    deleted the record of the key.  The promise given to the first caller
    can only settle as rejected with that error, and does so when its job
    runs.  A call with the same arguments that follows invokes the
    function again. *)
Theorem deferred_failure_eviction
  (functionKey : string) (f : nat) (args : list Value) (w : World U)
  (now1 now3 : Z) (p : PromiseRef) (u' : U)
  (es es' : list Event) (e : Event) (err : Value) (s : Settled) :
  let key := fst (makeKey functionKey args (registry w)) in
  let wrapped := List.length (libPromises w) in
  let outer := S wrapped in
  let first := memoized program functionKey f args now1 w in
  let w2 := steps program es (snd first) in
  let w3 := step program e w2 in
  let w4 := steps program es' w3 in
  wfJobs w ->
  fst (get key now1 (cache w)) = None ->
  program f args (user w) = (Normal (VPromise p), u') ->
  promiseState (LibPromise wrapped) w2 = None ->
  promiseState (LibPromise wrapped) w3 = Some (Rejected err) ->
  fst first = Normal (VPromise (LibPromise outer))
  /\ (exists i, e = EvJob i
                /\ nth_error (jobs w2) i = Some (AwaitPromise p key wrapped))
  /\ promiseState p w2 = Some (Rejected err)
  /\ map_get key (items (cache w3)) = None
  /\ (promiseState (LibPromise outer) w4 = Some s -> s = Rejected err)
  /\ (promiseState (LibPromise outer) w4 = None ->
      In (ReturnWrapped wrapped outer) (jobs w4))
  /\ (forall j, nth_error (jobs w4) j = Some (ReturnWrapped wrapped outer) ->
                 promiseState (LibPromise outer)
                   (step program (EvJob j) w4) = Some (Rejected err))
  /\ invocations (snd (memoized program functionKey f args now3 w3))
     = (invocations w3 ++ [(f, args)])%list.
Proof.
  intros key wrapped outer first w2 w3 w4 Hjobs Hmiss Hprog Hpend Hrej.
  destruct (first_call_jobs functionKey f args now1 w p u' Hjobs Hmiss Hprog)
    as (Hjobs1 & Hwr & Hout).
  fold key wrapped first in Hjobs1, Hwr, Hout. fold outer in Hout.
  destruct (makeKey functionKey args (registry w)) as [k r] eqn:Hk.
  cbn [fst] in key. subst key.
  pose proof (memoized_promise U program _ _ _ _ _ _ _ _ _ Hk Hmiss Hprog)
    as Hfirst.
  fold first wrapped in Hfirst. fold outer in Hfirst.
  assert (Hjobs2 : wfJobs w2) by now apply steps_wfJobs.
  assert (Hjobs3 : wfJobs w3).
  { eapply evolves_wfJobs; [exact Hjobs2|apply step_evolves]. }
  (* the job of [wrapped] is still in the queue before the step *)
  pose proof (steps_job U program es (snd first)
                (AwaitPromise p k wrapped) Hjobs1 (or_introl Hwr)) as Jw.
  cbn zeta in Jw. fold w2 in Jw. cbn [source target] in Jw.
  assert (Hin : In (AwaitPromise p k wrapped) (jobs w2)).
  { destruct Jw as [[Hin _]|[s' [_ Hw']]]; [exact Hin|congruence]. }
  destruct (step_settles U program e w2 (AwaitPromise p k wrapped)
              (Rejected err) Hjobs2 Hin Hrej) as (i & -> & Hi & Hp).
  cbn [source] in Hp.
  destruct (runJob_rejected U i w2 p k wrapped err Hi Hp)
    as (Hc3 & _ & Hr3 & _).
  change (runJob i w2) with w3 in Hc3, Hr3.
  assert (Hnone : map_get k (items (cache w3)) = None).
  { rewrite Hc3. cbn [delete snd items with_items]. apply map_get_delete. }
  (* the promise of the first caller *)
  pose proof (steps_job U program (es ++ EvJob i :: es') (snd first)
                (ReturnWrapped wrapped outer) Hjobs1 (or_introl Hout)) as Jo.
  cbn zeta in Jo. unfold steps in Jo. rewrite fold_left_app in Jo.
  cbn [fold_left] in Jo. fold (steps program es (snd first)) in Jo.
  fold w2 in Jo. fold w3 in Jo. fold (steps program es' w3) in Jo.
  fold w4 in Jo. cbn [source target] in Jo.
  assert (Hrej4 : promiseState (LibPromise wrapped) w4 = Some (Rejected err))
    by now apply steps_settled.
  repeat split.
  - now rewrite Hfirst.
  - exists i. now split.
  - exact Hp.
  - exact Hnone.
  - intros Hs. destruct Jo as [[_ Hn]|[s' [Hw' Ho']]]; congruence.
  - intros Hn. destruct Jo as [[Hin' _]|[s' [_ Ho']]]; [exact Hin'|congruence].
  - intros j Hj.
    apply (runJob_settles U j w4 (ReturnWrapped wrapped outer) (Rejected err));
      [now apply steps_wfJobs|exact Hj|exact Hrej4].
  - apply memoized_miss_invokes.
    destruct (makeKey_stable _ _ _ _ _ Hk) as [_ Hstable].
    rewrite (Hstable (registry w3)).
    + cbn [fst]. unfold get. now rewrite Hnone.
    + rewrite Hr3. unfold w2.
      replace r with (registry (snd first)) by now rewrite Hfirst.
      apply steps_extends.
Qed.

End Deferred.


(** An instance: the promise of the function is rejected, the job of
    [wrapped] runs, then the job of the first caller's promise. *)
Lemma deferred_failure_eviction_witness :
  let program := fun (_ : nat) (_ : list Value) (u : nat) =>
    (Normal (VPromise (UserPromise u)), S u) in
  let args := [VNumber (NumInt 7)] in
  let first := memoized program "fn:0" 0 args 0 (initialWorld 0%nat) in
  let w2 := steps program [EvSettle 0 (Rejected (VString "boom"))]
              (snd first) in
  let w3 := step program (EvJob 0) w2 in
  map_get "fn:0|n:7" (items (cache w2))
  = Some {| value := EPromise (VPromise (LibPromise 0));
            expiresAt := Some 300000 |}
  /\ map_get "fn:0|n:7" (items (cache w3)) = None
  /\ invocations (snd (memoized program "fn:0" 0 args 5 w3))
     = [(0%nat, args); (0%nat, args)].
Proof.
  intros program args first w2 w3.
  pose proof (deferred_failure_eviction nat program "fn:0" 0%nat args
                (initialWorld 0%nat) 0 5 (UserPromise 0) 1%nat
                [EvSettle 0 (Rejected (VString "boom"))] [EvJob 0] (EvJob 0)
                (VString "boom") (Rejected (VString "boom"))) as H.
  cbv zeta in H.
  destruct H as (_ & _ & _ & H4 & _ & _ & _ & H7).
  - split; [constructor|intros j []].
  - reflexivity.
  - reflexivity.
  - reflexivity.
  - reflexivity.
  - split; [reflexivity|]. split; [exact H4|].
    exact (eq_trans H7 eq_refl).
Defined.

End Deferred.

(** * The worlds that the program can reach *)

Module Reachable.
Import Store StoreFacts LookupFacts Kioku FacadeFacts Reconfiguration Promises.

Section Reachable.

Variable U : Type.
Variable program : nat -> list Value -> U -> Completion * U.

Implicit Types (w : World U).

Lemma memoized_wf functionKey f args now w :
  wf (cache w) ->
  wf (cache (snd (memoized program functionKey f args now w))).
Proof.
  intros Hwf. unfold memoized.
  destruct (makeKey functionKey args (registry w)) as [k r].
  cbn [with_registry cache].
  pose proof (wf_get _ k now (cache w) Hwf) as Hg.
  destruct (get k now (cache w)) as [[[]|] c]; cbn [snd] in *;
    try exact Hg.
  unfold invoke. cbn [user with_cache with_registry cache].
  destruct (program f args (user w)) as [[v|err] u1]; [|exact Hg].
  destruct v; cbn [snd cache with_cache]; now apply wf_set.
Qed.

Lemma step_wf e w : wf (cache w) -> wf (cache (step program e w)).
Proof.
  intros Hwf. destruct e; cbn [step].
  - now apply memoized_wf.
  - unfold memoize. now destruct (idForFunction f (registry w)).
  - unfold settleUser. now destruct (assoc Nat.eq_dec n (userPromises w)).
  - unfold runJob.
    destruct (nth_error (jobs w) i) as [[p key wr|wr o]|]; [| |exact Hwf].
    + destruct (promiseState p w) as [[v|err]|]; cbn [cache];
        [exact Hwf| |exact Hwf]. now apply wf_delete.
    + now destruct (promiseState (LibPromise wr) w).
  - rewrite cache_setup, migrate_run. apply wf_run, wf_new.
  - constructor.
  - unfold getCacheStats.
    pose proof (wf_apply _ (OpSize now) (cache w) Hwf) as Hs.
    cbn [apply] in Hs. now destruct (size now (cache w)).
Qed.

(** Every world that the program reaches from the loaded module has a
    store with distinct keys and a job queue in order: the assumptions of
    the properties of the facade hold there. *)
Lemma reachable_wf (es : list Event) (u : U) :
  wf (cache (steps program es (initialWorld u)))
  /\ wfJobs (steps program es (initialWorld u)).
Proof.
  split.
  - assert (H : forall w, wf (cache w) -> wf (cache (steps program es w))).
    { induction es as [|e es' IH]; intros w Hw; [exact Hw|].
      rewrite steps_cons. apply IH. now apply step_wf. }
    apply H. constructor.
  - apply steps_wfJobs. split; [constructor|intros j []].
Qed.

End Reachable.
End Reachable.

(** * More on the store: how the operations compose *)

Module StoreExtras.
Import Store StoreFacts StoreOrigin LookupFacts Reconfiguration.

#[local] Arguments Z.mul : simpl never.
#[local] Arguments Z.add : simpl never.
#[local] Arguments Z.sub : simpl never.

Section Compose.

Variable V : Type.

Implicit Types (m : Items V) (c : LruCache V) (e : CacheEntryWrapper V).
Implicit Types (k key : string).

Lemma map_get_delete_other m k k' :
  k' <> k -> map_get k' (map_delete k m) = map_get k' m.
Proof.
  intros Hk. induction m as [|[k0 e0] m IH]; simpl; [reflexivity|].
  destruct (String.eqb k0 k) eqn:E; simpl.
  - apply String.eqb_eq in E. subst.
    destruct (String.eqb k k') eqn:E'; [|exact IH].
    apply String.eqb_eq in E'. congruence.
  - now rewrite IH.
Qed.

Lemma map_get_refresh m k e k' :
  map_get k m = Some e ->
  map_get k' (map_set k e (map_delete k m)) = map_get k' m.
Proof.
  intros G. rewrite map_set_delete, map_get_app.
  destruct (String.eqb k k') eqn:E.
  - apply String.eqb_eq in E. subst k'. rewrite map_get_delete. simpl.
    now rewrite String.eqb_refl, G.
  - apply String.eqb_neq in E.
    rewrite map_get_delete_other by congruence.
    destruct (map_get k' m); [reflexivity|]. simpl.
    apply String.eqb_neq in E. now rewrite E.
Qed.

(** X1.  [set] then [get]: with a positive capacity the value just set is
    returned by a [get] of the same key for as long as the TTL allows (for
    ever when the TTL is disabled), whatever the store held before; with a
    capacity that is not positive the value is not kept at all. *)
Theorem set_then_get c k (v : V) now now' :
  wf c ->
  (0 < ttl (options c) -> now' < now + ttl (options c)) ->
  fst (get k now' (set k v now c))
  = if 0 <? max (options c) then Some v else None.
Proof.
  intros Hwf Hwin. destruct (Z.ltb_spec 0 (max (options c))) as [Hmax|Hmax].
  - pose proof (set_lookup V k v now c Hwf Hmax) as G.
    destruct (get_hit V k now' (set k v now c) _ G) as (H1 & _).
    + intros Ht. rewrite (hasTtl_options V c _ (options_set V k v now c)) in Ht.
      unfold isExpired, newEntry. rewrite Ht. cbn [expiresAt].
      apply Z.leb_gt. apply Hwin. unfold hasTtl in Ht. now apply Z.ltb_lt.
    + exact H1.
  - unfold set, evictOverflow. cbn [options with_items].
    apply Z.leb_le in Hmax. rewrite Hmax. reflexivity.
Qed.

(** A lookup leaves the records of the other keys alone. *)
Lemma get_other_key c key k' now :
  k' <> key ->
  map_get k' (items (snd (get key now c))) = map_get k' (items c).
Proof.
  intros Hk. unfold get.
  destruct (map_get key (items c)) as [e|] eqn:G; [|reflexivity].
  destruct (hasTtl c && isExpired now e);
    cbn [fst snd items options with_items].
  - now apply map_get_delete_other.
  - destruct (9 * max (options c) <? 10 * map_size (items c));
      cbn [fst snd items options with_items];
      [now apply map_get_refresh|reflexivity].
Qed.

(** X2.  [get] never changes what the store holds: whatever it returns,
    the record of every other key is the one that was there; on a hit the
    record of the key itself is kept too (only its position may change);
    on a miss no record is left under the key.  The configuration is
    untouched. *)
Theorem get_keeps_records c key k' now :
  let c' := snd (get key now c) in
  (k' <> key -> map_get k' (items c') = map_get k' (items c))
  /\ (forall v, fst (get key now c) = Some v ->
                map_get key (items c') = map_get key (items c))
  /\ (fst (get key now c) = None -> map_get key (items c') = None)
  /\ options c' = options c.
Proof.
  intros c'. unfold c', get. destruct (map_get key (items c)) as [e|] eqn:G.
  - destruct (hasTtl c && isExpired now e);
      cbn [fst snd items options with_items].
    + split; [|split; [|split]].
      * intros Hk. now apply map_get_delete_other.
      * discriminate.
      * intros _. apply map_get_delete.
      * reflexivity.
    + destruct (9 * max (options c) <? 10 * map_size (items c));
        (split; [|split; [|split]]); try discriminate; try reflexivity.
      * intros _. now apply map_get_refresh.
      * intros v _. rewrite <- G. now apply map_get_refresh.
      * intros v _. now rewrite G.
  - cbn [fst snd]. split; [|split; [|split]]; try discriminate;
      try reflexivity. intros _. exact G.
Qed.

(** X3.  [has] answers as [get] does: [true] exactly when [get] returns a
    value.  When it answers [true] it leaves the store exactly as it was
    (it never refreshes the position); when it answers [false] the only
    thing it can have removed is the record of the key. *)
Theorem has_agrees_with_get c key now :
  fst (has key now c)
  = match fst (get key now c) with Some _ => true | None => false end
  /\ (fst (has key now c) = true -> snd (has key now c) = c)
  /\ (fst (has key now c) = false ->
      items (snd (has key now c)) = map_delete key (items c)
      /\ options (snd (has key now c)) = options c).
Proof.
  unfold has, get. destruct (map_get key (items c)) as [e|] eqn:G.
  - destruct (hasTtl c && isExpired now e); cbn [fst snd items options with_items].
    + repeat split; discriminate.
    + repeat split; discriminate.
  - cbn [fst snd]. repeat split; try discriminate.
    symmetry. apply map_delete_absent. now apply map_get_None_keys.
Qed.

(** X4.  [delete] tells whether a record was under the key, expired or
    not (so it answers [true] whenever [has] does); afterwards there is no
    record under the key, every other record is as before, and exactly one
    record has gone when there was one. *)
Theorem delete_removes_the_key c key k' now :
  wf c ->
  (fst (delete key c) = true <-> In key (keys (items c)))
  /\ (fst (has key now c) = true -> fst (delete key c) = true)
  /\ map_get key (items (snd (delete key c))) = None
  /\ (k' <> key ->
      map_get k' (items (snd (delete key c))) = map_get k' (items c))
  /\ map_size (items (snd (delete key c)))
     = map_size (items c) - (if fst (delete key c) then 1 else 0).
Proof.
  intros Hwf. cbn [delete fst snd items with_items].
  split; [|split; [|split; [|split]]].
  - destruct (map_get key (items c)) as [e|] eqn:G.
    + split; [intros _|reflexivity]. apply map_get_In in G.
      unfold keys. apply in_map_iff. now exists (key, e).
    + split; [discriminate|]. intros Hin.
      apply map_get_None_keys in G. contradiction.
  - unfold has. destruct (map_get key (items c)); [reflexivity|discriminate].
  - apply map_get_delete.
  - intros Hk. now apply map_get_delete_other.
  - destruct (map_get key (items c)) as [e|] eqn:G.
    + unfold wf in Hwf. unfold map_size. revert Hwf G. clear.
      induction (items c) as [|[k0 e0] m IH]; [discriminate|].
      cbn [keys List.map fst map_get map_delete filter].
      intros Hnd. inversion Hnd as [|? ? Hn Hd]; subst.
      destruct (String.eqb k0 key) eqn:E; cbn [negb].
      * intros _. apply String.eqb_eq in E. subst k0.
        fold (map_delete key m). rewrite map_delete_absent by exact Hn.
        cbn [List.length]. lia.
      * intros G. fold (map_delete key m). cbn [List.length].
        specialize (IH Hd G). lia.
    + rewrite map_delete_absent by now apply map_get_None_keys.
      lia.
Qed.

(** A record found under another key after a [set] was there before, and
    had not expired. *)
Lemma set_other_key_inv c key k' (v : V) e now :
  wf c ->
  k' <> key ->
  map_get k' (items (set key v now c)) = Some e ->
  map_get k' (items c) = Some e
  /\ (hasTtl c = true -> isExpired now e = false).
Proof.
  intros Hwf Hk G. apply map_get_In in G.
  destruct (Z.leb_spec (max (options c)) 0) as [Hmax|Hmax].
  - exfalso. revert G. unfold set, evictOverflow. cbn [options with_items].
    apply Z.leb_le in Hmax. rewrite Hmax. intros [].
  - rewrite items_set in G by assumption. apply In_lastn in G.
    rewrite live_app in G. apply in_app_or in G. destruct G as [G|G].
    + split.
      * apply live_incl in G. unfold map_delete in G.
        apply filter_In in G. apply map_get_NoDup; [exact Hwf|tauto].
      * intros Ht. revert G. unfold live. rewrite Ht.
        rewrite pruneExpired_filter. intros G. apply filter_In in G.
        destruct G as [_ G]. cbn [snd] in G. now apply negb_true_iff in G.
    + apply live_incl in G. destruct G as [G|[]]. congruence.
Qed.

(** X5.  [set] never invents or alters the record of another key: a
    record found under another key after a [set] is the record that was
    there before, and it had not expired.  And when the store has room for
    one more entry, every live record is still there after the [set]. *)
Theorem set_keeps_other_records c key k' (v : V) e now :
  wf c ->
  k' <> key ->
  (map_get k' (items (set key v now c)) = Some e ->
   map_get k' (items c) = Some e
   /\ (hasTtl c = true -> isExpired now e = false))
  /\ (map_get k' (items c) = Some e ->
      (hasTtl c = true -> isExpired now e = false) ->
      map_size (items c) < max (options c) ->
      map_get k' (items (set key v now c)) = Some e).
Proof.
  intros Hwf Hk. split.
  - now apply set_other_key_inv.
  - intros G Hlive Hroom.
    assert (Hmax : 0 < max (options c)) by (unfold map_size in Hroom; lia).
    set (l := (map_delete key (items c) ++ [(key, newEntry c v now)])%list).
    assert (Hnd : NoDup (keys l)).
    { unfold l. rewrite <- map_set_delete. now apply NoDup_keys_set_delete. }
    assert (Hin : In (k', e) (live c now l)).
    { unfold l. rewrite live_app. apply in_or_app. left.
      assert (Hd : In (k', e) (map_delete key (items c))).
      { unfold map_delete. apply filter_In. split; [now apply map_get_In|].
        cbn [fst]. apply negb_true_iff, String.eqb_neq. exact Hk. }
      unfold live. destruct (hasTtl c) eqn:Ht; [|exact Hd].
      rewrite pruneExpired_filter. apply filter_In. split; [exact Hd|].
      cbn [snd]. now rewrite Hlive. }
    rewrite items_set by assumption. fold l.
    rewrite lastn_all.
    + apply map_get_NoDup; [now apply wf_live|exact Hin].
    + pose proof (live_length V c now l) as H1.
      assert (H2 : (List.length l <= S (List.length (items c)))%nat).
      { unfold l. rewrite length_app. cbn [List.length].
        pose proof (map_delete_length V (items c) key). lia. }
      unfold map_size in Hroom. lia.
Qed.

(** X6.  The size that the store reports is the number of pairs that
    [entries] yields at the same time, both leave the same pruned store,
    and asking again at the same time changes nothing. *)
Theorem size_counts_entries c now :
  fst (size now c) = Z.of_nat (List.length (fst (entries now c)))
  /\ snd (size now c) = snd (entries now c)
  /\ size now (snd (size now c)) = size now c.
Proof.
  assert (E : live c now (items c)
              = filter (fun p => negb (hasTtl c && isExpired now (snd p)))
                  (items c)).
  { unfold live. destruct (hasTtl c); cbn [andb].
    - apply pruneExpired_filter.
    - symmetry. now apply filter_id. }
  assert (Hidem : live c now (live c now (items c)) = live c now (items c)).
  { unfold live. destruct (hasTtl c); [|reflexivity].
    rewrite !pruneExpired_filter. apply filter_id.
    intros p Hp. apply filter_In in Hp. tauto. }
  change (size now c)
    with (map_size (live c now (items c)), with_items c (live c now (items c))).
  cbn [fst snd]. split; [|split].
  - rewrite E. cbn [entries fst]. unfold map_size. now rewrite length_map.
  - rewrite E. reflexivity.
  - change (size now (with_items c (live c now (items c))))
      with (map_size (live c now (live c now (items c))),
            with_items c (live c now (live c now (items c)))).
    now rewrite Hidem.
Qed.

(** X7.  [entries] yields exactly the pairs that [get] would return at the
    same time: a pair is yielded if and only if a [get] of its key returns
    its value. *)
Theorem entries_are_the_gets c k (v : V) now :
  wf c ->
  In (k, v) (fst (entries now c)) <-> fst (get k now c) = Some v.
Proof.
  intros Hwf. split.
  - cbn [entries fst]. intros Hin. apply in_map_iff in Hin.
    destruct Hin as [[k0 e] [Heq Hin]]. cbn [fst snd] in Heq.
    injection Heq as -> <-. apply filter_In in Hin. destruct Hin as [Hin Hl].
    cbn [snd] in Hl. apply negb_true_iff in Hl.
    destruct (get_hit V k now c e) as (H1 & _).
    + now apply map_get_NoDup.
    + intros Ht. rewrite Ht in Hl. exact Hl.
    + exact H1.
  - intros Hget. destruct (get_Some_inv V _ _ _ _ Hget) as (e & G & <- & Hl).
    now apply entries_In.
Qed.

(** X8.  A capacity that is not positive means no caching: whatever the
    operations, the store stays empty and every [get] misses. *)
Theorem nonpositive_capacity_stays_empty
  (cfg : CacheConfig) (ops : list (Op V)) k now :
  max (options (new_LruCache (V:=V) cfg)) <= 0 ->
  items (run ops (new_LruCache cfg)) = []
  /\ fst (get k now (run ops (new_LruCache cfg))) = None.
Proof.
  intros Hmax.
  assert (H : items (run ops (new_LruCache cfg)) = []).
  { induction ops as [|op ops IH] using rev_ind; [reflexivity|].
    rewrite run_app. change (run [op] ?c) with (apply op c).
    destruct (items (apply op (run ops (new_LruCache cfg)))) as [|p l] eqn:E;
      [reflexivity|].
    assert (Hin : In p (items (apply op (run ops (new_LruCache cfg)))))
      by (rewrite E; now left).
    apply apply_incl in Hin. destruct Hin as [Hin|(k0 & v0 & t0 & -> & _)].
    - rewrite IH in Hin. destruct Hin.
    - exfalso. revert E. cbn [apply]. unfold set, evictOverflow.
      cbn [options with_items]. rewrite options_run.
      apply Z.leb_le in Hmax. rewrite Hmax. discriminate. }
  split; [exact H|]. unfold get. now rewrite H.
Qed.

End Compose.

(** Instances, on a store of capacity 2 with a TTL of 100 that holds the
    keys [a] and [b]. *)
Lemma set_then_get_witness :
  fst (get "k" 50
         (set "k" 7%nat 0
            (run [OpSet "a" 1%nat 0; OpSet "b" 2%nat 0]
               (new_LruCache {| cfg_max := Some 2; cfg_ttl := Some 100 |}))))
  = Some 7%nat.
Proof.
  refine (set_then_get nat
            (run [OpSet "a" 1%nat 0; OpSet "b" 2%nat 0]
               (new_LruCache {| cfg_max := Some 2; cfg_ttl := Some 100 |}))
            "k" 7%nat 0 50 _ _).
  - apply wf_run, wf_new.
  - intros _. vm_compute. reflexivity.
Defined.

Lemma delete_removes_the_key_witness :
  let c := run [OpSet "a" 1%nat 0; OpSet "b" 2%nat 0]
             (new_LruCache {| cfg_max := Some 2; cfg_ttl := Some 100 |}) in
  fst (delete "a" c) = true
  /\ map_get "a" (items (snd (delete "a" c))) = None
  /\ map_size (items (snd (delete "a" c))) = 1.
Proof.
  intros c.
  destruct (delete_removes_the_key nat c "a" "b" 500 ltac:(apply wf_run, wf_new))
    as (H1 & _ & H3 & _ & H5).
  split; [apply H1; vm_compute; now left|]. split; [exact H3|exact H5].
Defined.

Lemma set_keeps_other_records_witness :
  let c := run [OpSet "a" 1%nat 0; OpSet "b" 2%nat 0]
             (new_LruCache {| cfg_max := Some 2; cfg_ttl := Some 100 |}) in
  map_get "b" (items c) = Some {| value := 2%nat; expiresAt := Some 100 |}.
Proof.
  intros c.
  exact (proj1 (proj1 (set_keeps_other_records nat c "c" "b" 3%nat
                         {| value := 2%nat; expiresAt := Some 100 |} 10
                         ltac:(apply wf_run, wf_new) ltac:(discriminate))
                  eq_refl)).
Defined.

Lemma entries_are_the_gets_witness :
  In ("a", 1%nat)
     (fst (entries 5
             (run [OpSet "a" 1%nat 0; OpSet "b" 2%nat 0]
                (new_LruCache {| cfg_max := Some 2; cfg_ttl := Some 100 |})))).
Proof.
  exact (proj2 (entries_are_the_gets nat
                  (run [OpSet "a" 1%nat 0; OpSet "b" 2%nat 0]
                     (new_LruCache {| cfg_max := Some 2; cfg_ttl := Some 100 |}))
                  "a" 1%nat 5 ltac:(apply wf_run, wf_new)) eq_refl).
Defined.

Lemma nonpositive_capacity_stays_empty_witness :
  items (run [OpSet "a" 1%nat 0; OpGet "a" 1]
           (new_LruCache {| cfg_max := Some (-3); cfg_ttl := None |}))
  = [].
Proof.
  exact (proj1 (nonpositive_capacity_stays_empty nat
                  {| cfg_max := Some (-3); cfg_ttl := None |}
                  [OpSet "a" 1%nat 0; OpGet "a" 1] "a" 2
                  ltac:(vm_compute; discriminate))).
Defined.

End StoreExtras.

(** * More on the serializer: what the encodings tell apart *)

Module EncodingFacts.
Import Kioku.

Lemma append_assoc (a b c : string) : (a ++ b) ++ c = a ++ (b ++ c).
Proof. induction a as [|x a IH]; simpl; [reflexivity|now rewrite IH]. Qed.

Lemma append_length (a b : string) :
  String.length (a ++ b) = (String.length a + String.length b)%nat.
Proof. induction a as [|x a IH]; simpl; [reflexivity|now rewrite IH]. Qed.

Lemma append_inv_head (a b c : string) : a ++ b = a ++ c -> b = c.
Proof.
  induction a as [|x a IH]; simpl; [auto|]. intros H. injection H as H. auto.
Qed.

(** The quoting of a code unit can be read back, whatever follows. *)
Lemma unquoteFirst_quote (c : ascii) (rest : string) :
  unquoteFirst (quoteJsonChar c ++ rest) = Some (c, rest).
Proof.
  destruct c as [[|] [|] [|] [|] [|] [|] [|] [|]]; reflexivity.
Qed.

Lemma quoteJsonBody_tail_inj (s1 s2 : string) :
  quoteJsonBody s1 ++ String dquote "" = quoteJsonBody s2 ++ String dquote "" ->
  s1 = s2.
Proof.
  revert s2. induction s1 as [|c1 s1 IH]; intros [|c2 s2];
    cbn [quoteJsonBody]; rewrite ?append_assoc; intros H.
  - reflexivity.
  - apply (f_equal unquoteFirst) in H. rewrite unquoteFirst_quote in H.
    cbn in H. injection H as _ H. destruct (quoteJsonBody s2); discriminate.
  - apply (f_equal unquoteFirst) in H. rewrite unquoteFirst_quote in H.
    cbn in H. injection H as _ H. destruct (quoteJsonBody s1); discriminate.
  - apply (f_equal unquoteFirst) in H. rewrite !unquoteFirst_quote in H.
    injection H as -> H. f_equal. now apply IH.
Qed.

Lemma JSON_stringify_inj (s1 s2 : string) :
  JSON_stringify s1 = JSON_stringify s2 -> s1 = s2.
Proof.
  unfold JSON_stringify. intros H. injection H as H.
  now apply quoteJsonBody_tail_inj.
Qed.

Lemma includes_append (c : ascii) (a b : string) :
  includes c (a ++ b) = includes c a || includes c b.
Proof.
  induction a as [|x a IH]; simpl; [reflexivity|].
  now rewrite IH, orb_assoc.
Qed.

Lemma includes_colon_quoteJsonChar (c : ascii) :
  includes ":" (quoteJsonChar c) = Ascii.eqb c ":".
Proof.
  destruct c as [[|] [|] [|] [|] [|] [|] [|] [|]]; vm_compute; reflexivity.
Qed.

Lemma includes_bar_quoteJsonChar (c : ascii) :
  includes "|" (quoteJsonChar c) = Ascii.eqb c "|".
Proof.
  destruct c as [[|] [|] [|] [|] [|] [|] [|] [|]]; vm_compute; reflexivity.
Qed.

Lemma includes_JSON (s : string) :
  includes "|" (JSON_stringify s) = includes "|" s
  /\ includes ":" (JSON_stringify s) = includes ":" s.
Proof.
  unfold JSON_stringify. cbn [includes].
  rewrite !includes_append. cbn. rewrite !orb_false_r.
  induction s as [|c s [IH1 IH2]]; [split; reflexivity|].
  cbn [quoteJsonBody includes]. rewrite !includes_append, IH1, IH2.
  now rewrite includes_bar_quoteJsonChar, includes_colon_quoteJsonChar.
Qed.

Lemma quoteJsonChar_length (c : ascii) :
  (1 <= String.length (quoteJsonChar c))%nat.
Proof.
  destruct c as [[|] [|] [|] [|] [|] [|] [|] [|]]; vm_compute; lia.
Qed.

Lemma JSON_stringify_length (s : string) :
  (String.length s < String.length (JSON_stringify s))%nat.
Proof.
  unfold JSON_stringify. cbn [String.length]. rewrite append_length.
  cbn [String.length].
  assert (H : (String.length s <= String.length (quoteJsonBody s))%nat).
  { induction s as [|c s IH]; [reflexivity|].
    cbn [quoteJsonBody String.length]. rewrite append_length.
    pose proof (quoteJsonChar_length c). lia. }
  lia.
Qed.

(** The decimal numerals. *)
Lemma natToString_inj (n n' : nat) : natToString n = natToString n' -> n = n'.
Proof.
  unfold natToString. intros H.
  assert (Hnil : forall k, Nat.to_uint k <> Decimal.Nil).
  { intros k Hk. pose proof (DecimalNat.Unsigned.of_to k) as E.
    rewrite Hk in E. cbn in E. subst k. discriminate Hk. }
  apply (f_equal NilZero.uint_of_string) in H.
  rewrite !NilZero.usu in H by apply Hnil.
  injection H as H. now apply DecimalNat.Unsigned.to_uint_inj.
Qed.

Lemma intToString_parse (z : Z) :
  NilZero.int_of_string (intToString z) = Some (Z.to_int z).
Proof.
  unfold intToString. apply NilZero.isi; intros Hk;
    pose proof (DecimalZ.of_to z) as E; rewrite Hk in E; cbn in E; subst z;
    discriminate Hk.
Qed.

Lemma intToString_inj (z z' : Z) : intToString z = intToString z' -> z = z'.
Proof.
  intros H. apply (f_equal NilZero.int_of_string) in H.
  rewrite !intToString_parse in H. injection H as H.
  now apply DecimalZ.to_int_inj.
Qed.

(** No integer prints as one of the special forms of a number. *)
Lemma intToString_special (z : Z) :
  intToString z <> "NaN" /\ intToString z <> "-0"
  /\ intToString z <> "Infinity" /\ intToString z <> "-Infinity".
Proof.
  pose proof (intToString_parse z) as P.
  repeat split; intros E; rewrite E in P; cbn in P; try discriminate P.
  injection P as P. pose proof (DecimalZ.of_to z) as Q.
  rewrite <- P in Q. cbn in Q. subst z. discriminate P.
Qed.

Lemma includes_natToString (n : nat) : includes "|" (natToString n) = false.
Proof.
  unfold natToString, NilZero.string_of_uint.
  destruct (Nat.to_uint n) as [|d|d|d|d|d|d|d|d|d|d]; try reflexivity;
    apply (Serializer.includes_uint (_ d)).
Qed.

End EncodingFacts.

(** * The identifiers: one value, one identifier *)

Module IdentityFacts.
Import Kioku KeyFacts EncodingFacts.

Lemma regWf_empty : regWf emptyRegistry.
Proof. repeat split; cbn; intros; discriminate. Qed.

Lemma assoc_cons_inv {A B : Type}
  (eq_dec : forall a b : A, {a = b} + {a <> b}) (k k' : A) (v v' : B) l :
  assoc eq_dec k' ((k, v) :: l) = Some v' ->
  (k' = k /\ v' = v) \/ (k' <> k /\ assoc eq_dec k' l = Some v').
Proof.
  simpl. destruct (eq_dec k k') as [->|Hne].
  - intros H. injection H as <-. now left.
  - intros H. right. split; [congruence|exact H].
Qed.

Lemma obj_id_inj (a b : nat) :
  "obj:" ++ natToString a = "obj:" ++ natToString b -> a = b.
Proof. intros H. now apply append_inv_head, natToString_inj in H. Qed.

Lemma fn_id_inj (a b : nat) :
  "fn:" ++ natToString a = "fn:" ++ natToString b -> a = b.
Proof. intros H. now apply append_inv_head, natToString_inj in H. Qed.

(** A request for the identifier of an object leaves the registry in
    order, and its answer is the identifier recorded for the object. *)
Lemma idForObject_regWf v r s r' :
  regWf r -> idForObject v r = (s, r') ->
  regWf r' /\ assoc Value_eq_dec v (objectIds r') = Some s.
Proof.
  intros (A & B & C & D). unfold idForObject.
  destruct (assoc Value_eq_dec v (objectIds r)) eqn:E.
  - intros H. injection H as <- <-. now repeat split.
  - intros H. injection H as <- <-. split; [|apply assoc_cons_same].
    repeat split; cbn [objectIds nextObjectId functionIds nextFunctionId];
      try assumption.
    + intros v0 id H. apply assoc_cons_inv in H.
      destruct H as [[-> ->]|[_ H]].
      * exists (nextObjectId r). split; [lia|reflexivity].
      * destruct (A _ _ H) as (n & Hn & ->). exists n. split; [lia|reflexivity].
    + intros v1 v2 id H1 H2. apply assoc_cons_inv in H1, H2.
      destruct H1 as [[-> ->]|[N1 H1]], H2 as [[-> E2]|[N2 H2]].
      * reflexivity.
      * exfalso. destruct (A _ _ H2) as (n & Hn & Heq).
        apply obj_id_inj in Heq. lia.
      * exfalso. subst id. destruct (A _ _ H1) as (n & Hn & Heq).
        apply obj_id_inj in Heq. lia.
      * now apply (B _ _ id).
Qed.

Lemma idForFunction_regWf f r s r' :
  regWf r -> idForFunction f r = (s, r') ->
  regWf r' /\ assoc Nat.eq_dec f (functionIds r') = Some s.
Proof.
  intros (A & B & C & D). unfold idForFunction.
  destruct (assoc Nat.eq_dec f (functionIds r)) eqn:E.
  - intros H. injection H as <- <-. now repeat split.
  - intros H. injection H as <- <-. split; [|apply assoc_cons_same].
    repeat split; cbn [objectIds nextObjectId functionIds nextFunctionId];
      try assumption.
    + intros f0 id H. apply assoc_cons_inv in H.
      destruct H as [[-> ->]|[_ H]].
      * exists (nextFunctionId r). split; [lia|reflexivity].
      * destruct (C _ _ H) as (n & Hn & ->). exists n. split; [lia|reflexivity].
    + intros f1 f2 id H1 H2. apply assoc_cons_inv in H1, H2.
      destruct H1 as [[-> ->]|[N1 H1]], H2 as [[-> E2]|[N2 H2]].
      * reflexivity.
      * exfalso. destruct (C _ _ H2) as (n & Hn & Heq).
        apply fn_id_inj in Heq. lia.
      * exfalso. subst id. destruct (C _ _ H1) as (n & Hn & Heq).
        apply fn_id_inj in Heq. lia.
      * now apply (D _ _ id).
Qed.

Lemma idForSymbol_regWf y r s r' :
  regWf r -> idForSymbol y r = (s, r') -> regWf r'.
Proof.
  intros Hwf. unfold idForSymbol.
  destruct (assoc JsSymbol_eq_dec y (symbolIds r));
    [intros H; injection H as <- <-; exact Hwf|].
  destruct (sym_keyFor y) as [g|]; [destruct (truthy g)|];
    intros H; injection H as <- <-; exact Hwf.
Qed.

Lemma serializeArgument_regWf v r s r' :
  regWf r -> serializeArgument v r = (s, r') -> regWf r'.
Proof.
  intros Hwf. destruct v; cbn [serializeArgument];
    try (intros H; injection H as <- <-; exact Hwf).
  - now apply idForSymbol_regWf.
  - intros H. now apply (idForFunction_regWf _ _ _ _ Hwf) in H.
  - intros H. now apply (idForObject_regWf _ _ _ _ Hwf) in H.
  - intros H. now apply (idForObject_regWf _ _ _ _ Hwf) in H.
  - intros H. now apply (idForObject_regWf _ _ _ _ Hwf) in H.
  - intros H. now apply (idForObject_regWf _ _ _ _ Hwf) in H.
Qed.

Lemma serializeArguments_regWf args r ss r' :
  regWf r -> serializeArguments args r = (ss, r') -> regWf r'.
Proof.
  revert r ss r'. induction args as [|a args IH]; intros r ss r' Hwf.
  - intros H. injection H as <- <-. exact Hwf.
  - cbn [serializeArguments].
    destruct (serializeArgument a r) as [s r1] eqn:E1.
    destruct (serializeArguments args r1) as [ss' r2] eqn:E2.
    intros H. injection H as <- <-.
    eapply IH; [|exact E2]. eapply serializeArgument_regWf; eassumption.
Qed.

Lemma makeKey_regWf functionKey args r :
  regWf r -> regWf (snd (makeKey functionKey args r)).
Proof.
  intros Hwf. unfold makeKey. destruct args as [|a args]; [exact Hwf|].
  destruct (serializeArguments (a :: args) r) as [ss r'] eqn:E.
  cbn [snd]. eapply serializeArguments_regWf; eassumption.
Qed.

(** The encoding of a number tells the number. *)
Lemma number_encoding_inj (n1 n2 : JsNumber) (r1 r2 : Registry) :
  fst (serializeArgument (VNumber n1) r1)
  = fst (serializeArgument (VNumber n2) r2) -> n1 = n2.
Proof.
  cbn [serializeArgument fst append].
  destruct n1 as [| | | |z1], n2 as [| | | |z2]; intros H;
    try reflexivity; try discriminate H; injection H as H.
  - destruct (intToString_special z2) as (A & B & C & D). congruence.
  - destruct (intToString_special z2) as (A & B & C & D). congruence.
  - destruct (intToString_special z2) as (A & B & C & D). congruence.
  - destruct (intToString_special z2) as (A & B & C & D). congruence.
  - destruct (intToString_special z1) as (A & B & C & D). congruence.
  - destruct (intToString_special z1) as (A & B & C & D). congruence.
  - destruct (intToString_special z1) as (A & B & C & D). congruence.
  - destruct (intToString_special z1) as (A & B & C & D). congruence.
  - apply intToString_inj in H. now subst.
Qed.

(** The encoding of a string tells the string: a raw encoding has neither
    delimiter nor colon and is short, a quoted one has one of them or is
    long. *)
Lemma string_encoding_inj (x1 x2 : string) (r1 r2 : Registry) :
  fst (serializeArgument (VString x1) r1)
  = fst (serializeArgument (VString x2) r2) -> x1 = x2.
Proof.
  cbn [serializeArgument fst].
  assert (Hmix : forall a b,
    includes "|" a || includes ":" a || Nat.ltb 100 (String.length a) = true ->
    includes "|" b || includes ":" b || Nat.ltb 100 (String.length b) = false ->
    JSON_stringify a <> b).
  { intros a b Ha Hb E. subst b.
    destruct (includes_JSON a) as [I1 I2]. rewrite I1, I2 in Hb.
    apply orb_false_iff in Hb. destruct Hb as [Hb Hlen].
    rewrite Hb in Ha. cbn [orb] in Ha.
    apply Nat.ltb_lt in Ha. apply Nat.ltb_ge in Hlen.
    pose proof (JSON_stringify_length a). lia. }
  destruct (includes "|" x1 || includes ":" x1
            || Nat.ltb 100 (String.length x1)) eqn:E1;
    destruct (includes "|" x2 || includes ":" x2
              || Nat.ltb 100 (String.length x2)) eqn:E2;
    intros H; apply append_inv_head in H.
  - now apply JSON_stringify_inj.
  - exfalso. now apply (Hmix x1 x2).
  - exfalso. symmetry in H. now apply (Hmix x2 x1).
  - exact H.
Qed.

(** What the encoding of a value looks like, by the type of the value. *)
Lemma encoding_shape v r s r' :
  regWf r -> serializeArgument v r = (s, r') ->
  match v with
  | VNull => s = "null"
  | VUndefined => s = "u"
  | VBoolean b => s = if b then "b:1" else "b:0"
  | VNumber n => exists x, s = "n:" ++ x
  | VBigInt z => s = "B:" ++ intToString z
  | VString x => exists y, s = "s:" ++ y
  | VSymbol _ => True
  | VFunction f =>
      (exists n, s = "fn:" ++ natToString n)
      /\ assoc Nat.eq_dec f (functionIds r') = Some s
  | _ =>
      (exists n, s = "obj:" ++ natToString n)
      /\ assoc Value_eq_dec v (objectIds r') = Some s
  end.
Proof.
  intros Hwf. destruct v; cbn [serializeArgument];
    try (intros H; injection H as <- <-; reflexivity).
  - intros H. injection H as <- <-. destruct n; eexists; reflexivity.
  - intros H. injection H as <- <-.
    destruct (includes "|" s0 || includes ":" s0
              || Nat.ltb 100 (String.length s0)); eexists; reflexivity.
  - trivial.
  - intros H. destruct (idForFunction_regWf _ _ _ _ Hwf H) as [Hwf' Ha].
    split; [|exact Ha]. destruct Hwf' as (_ & _ & C & _).
    destruct (C _ _ Ha) as (n & _ & ->). now exists n.
  - intros H. destruct (idForObject_regWf _ _ _ _ Hwf H) as [Hwf' Ha].
    split; [|exact Ha]. destruct Hwf' as (A & _).
    destruct (A _ _ Ha) as (n & _ & ->). now exists n.
  - intros H. destruct (idForObject_regWf _ _ _ _ Hwf H) as [Hwf' Ha].
    split; [|exact Ha]. destruct Hwf' as (A & _).
    destruct (A _ _ Ha) as (n & _ & ->). now exists n.
  - intros H. destruct (idForObject_regWf _ _ _ _ Hwf H) as [Hwf' Ha].
    split; [|exact Ha]. destruct Hwf' as (A & _).
    destruct (A _ _ Ha) as (n & _ & ->). now exists n.
  - intros H. destruct (idForObject_regWf _ _ _ _ Hwf H) as [Hwf' Ha].
    split; [|exact Ha]. destruct Hwf' as (A & _).
    destruct (A _ _ Ha) as (n & _ & ->). now exists n.
Qed.

Lemma encoding_inj v1 v2 r r1 s r1' r2 :
  regWf r -> serializeArgument v1 r = (s, r1) ->
  extends r1 r1' -> regWf r1' -> serializeArgument v2 r1' = (s, r2) ->
  notSymbol v1 = true -> notSymbol v2 = true ->
  v1 = v2.
Proof.
  intros Hwf E1 Hext Hwf' E2 N1 N2.
  pose proof (encoding_shape _ _ _ _ Hwf E1) as S1.
  pose proof (encoding_shape _ _ _ _ Hwf' E2) as S2.
  pose proof (serializeArgument_regWf _ _ _ _ Hwf' E2) as (_ & B & _ & D).
  destruct (serializeArgument_stable _ _ _ _ E2) as [(XO & XF & _) _].
  destruct Hext as (YO & YF & _).
  assert (Hnum : forall n1 n2, v1 = VNumber n1 -> v2 = VNumber n2 -> n1 = n2).
  { intros n1 n2 -> ->. apply (number_encoding_inj n1 n2 r r1').
    now rewrite E1, E2. }
  assert (Hstr : forall x1 x2, v1 = VString x1 -> v2 = VString x2 -> x1 = x2).
  { intros x1 x2 -> ->. apply (string_encoding_inj x1 x2 r r1').
    now rewrite E1, E2. }
  destruct v1, v2; try discriminate N1; try discriminate N2;
    cbn beta iota in S1, S2;
    try (f_equal; now apply Hnum);
    try (f_equal; now apply Hstr);
    repeat match goal with
           | H : exists _, _ |- _ => destruct H
           | H : _ /\ _ |- _ => destruct H
           end;
    try (eapply B; [apply XO, YO; eassumption|eassumption]);
    try (f_equal; eapply D; [apply XF, YF; eassumption|eassumption]);
    subst; cbn [append] in *; try discriminate; try reflexivity.
  all: repeat match goal with b : bool |- _ => destruct b end;
    try discriminate; try reflexivity.
  match goal with
  | H : String _ (String _ (intToString _)) = _ |- _ =>
      injection H as H; apply intToString_inj in H; now subst
  | H : _ = String _ (String _ (intToString _)) |- _ =>
      injection H as H; apply intToString_inj in H; now subst
  end.
Qed.

(** X9.  Two different arguments never get the same encoding, symbols
    apart: for values that are primitive, objects or functions, and a
    registry in order, the encoding computed for one value is never the
    encoding computed later for another.  So two calls of one memoized
    function with a single argument have the same key only if the
    arguments are the same value. *)
Theorem distinct_arguments_distinct_keys
  (v1 v2 : Value) (r r' : Registry) (functionKey : string) :
  regWf r ->
  extends (snd (serializeArgument v1 r)) r' ->
  regWf r' ->
  notSymbol v1 = true -> notSymbol v2 = true ->
  v1 <> v2 ->
  fst (serializeArgument v1 r) <> fst (serializeArgument v2 r')
  /\ fst (makeKey functionKey [v1] r) <> fst (makeKey functionKey [v2] r').
Proof.
  intros Hwf Hext Hwf' N1 N2 Hne.
  assert (H : fst (serializeArgument v1 r) <> fst (serializeArgument v2 r')).
  { destruct (serializeArgument v1 r) as [s1 r1] eqn:E1.
    destruct (serializeArgument v2 r') as [s2 r2] eqn:E2.
    cbn [fst snd] in *. intros Heq. subst s2. apply Hne.
    apply (encoding_inj v1 v2 r r1 s1 r' r2); assumption. }
  split; [exact H|]. unfold makeKey. cbn [serializeArguments].
  destruct (serializeArgument v1 r) as [s1 r1].
  destruct (serializeArgument v2 r') as [s2 r2].
  cbn [fst String.concat] in *. intros E.
  apply append_inv_head in E. cbn [append] in E. injection E as E.
  contradiction.
Qed.

Lemma append_nil_r (a : string) : a ++ "" = a.
Proof. induction a as [|x a IH]; simpl; [reflexivity|now rewrite IH]. Qed.

(** Two strings without delimiter, each followed by nothing or by a
    delimiter and more: if the wholes are equal the strings are. *)
Lemma bar_prefix_free (d1 d2 X1 X2 : string) :
  includes "|" d1 = false -> includes "|" d2 = false ->
  (X1 = "" \/ exists t, X1 = String "|" t) ->
  (X2 = "" \/ exists t, X2 = String "|" t) ->
  d1 ++ X1 = d2 ++ X2 -> d1 = d2.
Proof.
  revert d2. induction d1 as [|c1 d1 IH]; intros [|c2 d2] I1 I2 H1 H2 E.
  - reflexivity.
  - exfalso. cbn [append] in E. cbn [includes] in I2.
    apply orb_false_iff in I2. destruct I2 as [I2 _].
    destruct H1 as [->|[t ->]]; [discriminate E|].
    injection E as E _. subst c2. discriminate I2.
  - exfalso. cbn [append] in E. cbn [includes] in I1.
    apply orb_false_iff in I1. destruct I1 as [I1 _].
    destruct H2 as [->|[t ->]]; [discriminate E|].
    injection E as E _. subst c1. discriminate I1.
  - cbn [append] in E. injection E as -> E. f_equal.
    cbn [includes] in I1, I2. apply orb_false_iff in I1, I2.
    apply (IH d2); tauto.
Qed.

Lemma makeKey_form functionKey args r :
  exists X, fst (makeKey functionKey args r) = functionKey ++ X
            /\ (X = "" \/ exists t, X = String "|" t).
Proof.
  unfold makeKey. destruct args as [|a args].
  - exists "". split; [symmetry; apply append_nil_r|now left].
  - destruct (serializeArguments (a :: args) r) as [ss r'].
    eexists. split; [reflexivity|]. right. eexists. reflexivity.
Qed.

(** X10.  One function, one identifier; two functions, two identifiers
    and never a common key: the identifier of a function is the same
    whenever it is asked again, the identifiers of two different functions
    differ, and whatever the arguments the keys of their calls differ. *)
Theorem distinct_functions_distinct_keys
  (f1 f2 : nat) (r ra rb : Registry) (args1 args2 : list Value) :
  let id1 := idForFunction f1 r in
  let id2 := idForFunction f2 (snd id1) in
  regWf r ->
  f1 <> f2 ->
  fst (idForFunction f1 (snd id2)) = fst id1
  /\ fst id1 <> fst id2
  /\ fst (makeKey (fst id1) args1 ra) <> fst (makeKey (fst id2) args2 rb).
Proof.
  intros id1 id2. subst id1 id2. intros Hwf Hne.
  destruct (idForFunction f1 r) as [k1 r1] eqn:E1. cbn [fst snd].
  destruct (idForFunction f2 r1) as [k2 r2] eqn:E2.
  cbn [fst snd].
  destruct (idForFunction_regWf _ _ _ _ Hwf E1) as [Hwf1 A1].
  destruct (idForFunction_regWf _ _ _ _ Hwf1 E2) as [Hwf2 A2].
  destruct (idForFunction_stable _ _ _ _ E1) as [_ S1].
  destruct (idForFunction_stable _ _ _ _ E2) as [X2 _].
  assert (Hk : k1 <> k2).
  { intros ->. apply Hne. destruct Hwf2 as (_ & _ & _ & D).
    apply (D f1 f2 k2); [|exact A2]. destruct X2 as (_ & XF & _).
    now apply XF. }
  split; [now rewrite (S1 r2 X2)|]. split; [exact Hk|].
  destruct Hwf2 as (_ & _ & C & _).
  destruct X2 as (_ & XF & _).
  destruct (C _ _ (XF _ _ A1)) as (n1 & _ & ->).
  destruct (C _ _ A2) as (n2 & _ & ->).
  destruct (makeKey_form ("fn:" ++ natToString n1) args1 ra) as (X1 & -> & H1).
  destruct (makeKey_form ("fn:" ++ natToString n2) args2 rb) as (Y2 & -> & H2).
  intros E. apply Hk.
  apply (bar_prefix_free _ _ X1 Y2); try assumption;
    cbn; apply includes_natToString.
Qed.

End IdentityFacts.

(** * More on the facade *)

Module FacadeExtras.
Import Store StoreFacts StoreOrigin LookupFacts KeyFacts Kioku FacadeFacts.
Import Reconfiguration Promises Reachable StoreExtras IdentityFacts.
Import ReentrantFacts.

#[local] Arguments Z.mul : simpl never.
#[local] Arguments Z.add : simpl never.
#[local] Arguments Z.sub : simpl never.

Section Facade.

Variable U : Type.
Variable program : nat -> list Value -> U -> Completion * U.

Implicit Types (w : World U).

(** The store after a call: the store that the lookup left, or that store
    with one record set under the key of the call. *)
Lemma cache_memoized functionKey f args now w :
  let key := fst (makeKey functionKey args (registry w)) in
  let w' := snd (memoized program functionKey f args now w) in
  cache w' = snd (get key now (cache w))
  \/ exists v, fst (get key now (cache w)) = None
               /\ cache w' = set key v now (snd (get key now (cache w))).
Proof.
  unfold memoized. destruct (makeKey functionKey args (registry w)) as [k r].
  cbn [fst with_registry cache].
  destruct (get k now (cache w)) as [[[]|] c]; cbn [fst snd];
    try (now left).
  unfold invoke. cbn [user with_cache with_registry cache].
  destruct (program f args (user w)) as [[v|err] u1]; [|now left].
  right.
  destruct v;
    cbn [snd cache with_cache cacheSyncResult cachePromiseResult
         cacheGeneratorResult cacheAsyncGeneratorResult
         isAsyncGenerator isGenerator];
    eexists; (split; [reflexivity|reflexivity]).
Qed.

(** X12.  The key of a call is the same at every later moment: whatever
    the program does after a call (other calls, new functions, new
    objects, reconfigurations), the same function and arguments give the
    key they gave. *)
Theorem key_is_stable functionKey f args now w (es : list Event) :
  fst (makeKey functionKey args
         (registry
            (steps program es
               (snd (memoized program functionKey f args now w)))))
  = fst (makeKey functionKey args (registry w)).
Proof.
  destruct (makeKey functionKey args (registry w)) as [k r] eqn:Hk.
  destruct (makeKey_stable _ _ _ _ _ Hk) as [_ Hs].
  rewrite (Hs (registry (steps program es
                           (snd (memoized program functionKey f args now w))))).
  - reflexivity.
  - eapply extends_trans; [|apply steps_extends].
    rewrite registry_memoized, Hk. apply extends_refl.
Qed.

(** X13.  [clearCache] forgets everything: the size reported next is 0,
    the capacity is unchanged, and the next call of any memoized function
    invokes the function. *)
Theorem clearCache_forgets functionKey f args now w :
  fst (getCacheStats now (clearCache w)) = (0, max (options (cache w)))
  /\ invocations (snd (memoized program functionKey f args now (clearCache w)))
     = (invocations w ++ [(f, args)])%list.
Proof.
  split.
  - unfold getCacheStats, clearCache, clear, size.
    cbn [cache with_cache items with_items].
    destruct (hasTtl (with_items (cache w) [])); reflexivity.
  - now rewrite memoized_miss_invokes.
Qed.




(** X17.  Success does not evict: whenever a step takes the in-flight
    promise [wrapped] from pending to fulfilled, that step is the run of
    the job that awaits the promise [p] of the function, [p] is fulfilled
    with the same value, and the step changes neither the store nor the
    invocations; so a call that found the record live before the step
    still gets [wrapped] after it, without invocation. *)
Theorem fulfilment_keeps_the_record
  (functionKey : string) (f : nat) (args : list Value) (w : World U)
  (now1 now3 : Z) (p : PromiseRef) (u' : U)
  (es : list Event) (e : Event) (v : Value) :
  let key := fst (makeKey functionKey args (registry w)) in
  let wrapped := List.length (libPromises w) in
  let first := memoized program functionKey f args now1 w in
  let w2 := steps program es (snd first) in
  let w3 := step program e w2 in
  wfJobs w ->
  fst (get key now1 (cache w)) = None ->
  program f args (user w) = (Normal (VPromise p), u') ->
  promiseState (LibPromise wrapped) w2 = None ->
  promiseState (LibPromise wrapped) w3 = Some (Fulfilled v) ->
  promiseState p w2 = Some (Fulfilled v)
  /\ cache w3 = cache w2
  /\ invocations w3 = invocations w2
  /\ (fst (get key now3 (cache w2))
      = Some (EPromise (VPromise (LibPromise wrapped))) ->
      fst (memoized program functionKey f args now3 w3)
      = Normal (VPromise (LibPromise wrapped))
      /\ invocations (snd (memoized program functionKey f args now3 w3))
         = invocations w2).
Proof.
  intros key wrapped first w2 w3 Hjobs Hmiss Hprog Hpend Hful.
  destruct (Deferred.first_call_jobs U program functionKey f args now1 w p u'
              Hjobs Hmiss Hprog) as (Hjobs1 & Hwr & _).
  fold key wrapped first in Hjobs1, Hwr.
  destruct (makeKey functionKey args (registry w)) as [k r] eqn:Hk.
  cbn [fst] in key. subst key.
  assert (Hjobs2 : wfJobs w2) by now apply steps_wfJobs.
  pose proof (steps_job U program es (snd first)
                (AwaitPromise p k wrapped) Hjobs1 (or_introl Hwr)) as Jw.
  cbn zeta in Jw. fold w2 in Jw. cbn [source target] in Jw.
  assert (Hin : In (AwaitPromise p k wrapped) (jobs w2)).
  { destruct Jw as [[Hin _]|[s' [_ Hw']]]; [exact Hin|congruence]. }
  destruct (step_settles U program e w2 (AwaitPromise p k wrapped)
              (Fulfilled v) Hjobs2 Hin Hful) as (i & -> & Hi & Hp).
  cbn [source] in Hp.
  assert (Hw3 : cache w3 = cache w2 /\ invocations w3 = invocations w2
                /\ registry w3 = registry w2).
  { unfold w3. cbn [step]. unfold runJob. rewrite Hi, Hp. now repeat split. }
  destruct Hw3 as (Hc & Hi3 & Hr).
  split; [exact Hp|]. split; [exact Hc|]. split; [exact Hi3|].
  intros Hhit.
  destruct (get_Some_inv _ _ _ _ _ Hhit) as (e2 & G2 & Hv2 & Hlive2).
  destruct (makeKey_stable _ _ _ _ _ Hk) as [_ Hstable].
  assert (Hk3 : makeKey functionKey args (registry w3) = (k, registry w3)).
  { apply Hstable. rewrite Hr. unfold w2.
    eapply extends_trans; [|apply steps_extends].
    unfold first. rewrite registry_memoized, Hk. apply extends_refl. }
  rewrite (memoized_hit U program functionKey f args now3 w3 k (registry w3) e2).
  - cbn [fst snd invocations with_cache with_registry]. rewrite Hv2.
    split; [reflexivity|exact Hi3].
  - exact Hk3.
  - now rewrite Hc.
  - now rewrite Hc.
Qed.

Lemma cache_step_frame (e : Event) w :
  match e with
  | EvMemoize _ | EvSettle _ _ => cache (step program e w) = cache w
  | EvJob _ =>
      cache (step program e w) = cache w
      \/ exists key, cache (step program e w) = snd (delete key (cache w))
  | _ => True
  end.
Proof.
  destruct e; cbn [step]; try exact I.
  - unfold memoize. now destruct (idForFunction f (registry w)).
  - unfold settleUser. now destruct (assoc Nat.eq_dec n (userPromises w)).
  - unfold runJob.
    destruct (nth_error (jobs w) i) as [[p key wr|wr o]|]; [| |now left].
    + destruct (promiseState p w) as [[v|err]|]; cbn [cache];
        [now left| |now left]. right. now exists key.
    + destruct (promiseState (LibPromise wr) w); now left.
Qed.

Lemma step_bounded (e : Event) w :
  capacityNotNegative e ->
  wf (cache w) /\ 0 <= max (options (cache w)) /\ bounded (cache w) ->
  wf (cache (step program e w))
  /\ 0 <= max (options (cache (step program e w)))
  /\ bounded (cache (step program e w)).
Proof.
  intros He (Hwf & Hmax & Hb).
  split; [now apply step_wf|].
  pose proof (cache_step_frame e w) as Hf.
  destruct e; cbn [step capacityNotNegative] in *.
  - pose proof (bounded_apply CacheEntry
                  (OpGet (fst (makeKey functionKey args (registry w))) now)
                  (cache w) Hwf Hmax Hb) as Hg.
    pose proof (options_apply CacheEntry
                  (OpGet (fst (makeKey functionKey args (registry w))) now)
                  (cache w)) as Ho.
    cbn [apply] in Hg, Ho.
    destruct (cache_memoized functionKey f args now w) as [E|[v [_ E]]];
      rewrite E.
    + now rewrite Ho.
    + rewrite options_set, Ho. split; [exact Hmax|].
      apply bounded_set; [now apply wf_get|now rewrite Ho].
  - now rewrite Hf.
  - now rewrite Hf.
  - destruct Hf as [->|[key ->]]; [now split|].
    split; [exact Hmax|].
    apply (bounded_apply CacheEntry (OpDelete key)); assumption.
  - rewrite cache_setup, migrate_run, options_run. split; [exact He|].
    apply bounded_run; [apply wf_new|exact He|].
    unfold bounded, map_size. cbn. exact He.
  - split; [exact Hmax|].
    apply (bounded_apply CacheEntry OpClear); assumption.
  - pose proof (bounded_apply CacheEntry (OpSize now) (cache w) Hwf Hmax Hb)
      as Hs.
    cbn [apply] in Hs. unfold getCacheStats.
    destruct (size now (cache w)) as [n c] eqn:E. cbn [snd cache with_cache] in *.
    split; [|exact Hs].
    replace c with (snd (size now (cache w))) by now rewrite E.
    exact Hmax.
Qed.

(** X18.  The facade keeps the capacity bound: from the loaded module, and
    as long as no [setup] configures a negative capacity, whatever the
    program does (calls, settlements, runs of jobs, reconfigurations,
    clears) the size that [getCacheStats] reports is between 0 and the
    capacity it reports, which is the capacity of the active store. *)
Theorem facade_capacity_invariant (es : list Event) (u : U) (now : Z) :
  let w := steps program es (initialWorld u) in
  let stats := fst (getCacheStats now w) in
  Forall capacityNotNegative es ->
  0 <= fst stats <= snd stats
  /\ snd stats = max (options (cache w)).
Proof.
  intros w stats Hes.
  assert (H : wf (cache w) /\ 0 <= max (options (cache w))
              /\ bounded (cache w)).
  { unfold w. clear stats.
    assert (G : forall w0,
      wf (cache w0) /\ 0 <= max (options (cache w0)) /\ bounded (cache w0) ->
      wf (cache (steps program es w0))
      /\ 0 <= max (options (cache (steps program es w0)))
      /\ bounded (cache (steps program es w0))).
    { induction es as [|e es' IH]; intros w0 H0; [exact H0|].
      rewrite steps_cons. inversion Hes; subst.
      apply IH; [assumption|]. now apply step_bounded. }
    apply G. repeat split.
    - constructor.
    - vm_compute. discriminate.
    - vm_compute. discriminate. }
  destruct H as (Hwf & Hmax & Hb).
  pose proof (bounded_apply CacheEntry (OpSize now) (cache w) Hwf Hmax Hb) as Hs.
  pose proof (options_apply CacheEntry (OpSize now) (cache w)) as Ho.
  cbn [apply] in Hs, Ho. unfold stats, getCacheStats.
  destruct (size now (cache w)) as [n c] eqn:E. cbn [fst snd] in *.
  assert (Hn : n = map_size (items c)).
  { unfold size in E. injection E as <- <-. reflexivity. }
  unfold bounded in Hs. rewrite Ho in *. unfold map_size in *. lia.
Qed.

(** The registry of every world that the program reaches is in order. *)
Lemma reachable_regWf (es : list Event) (u : U) :
  regWf (registry (steps program es (initialWorld u))).
Proof.
  assert (G : forall w0, regWf (registry w0) ->
                         regWf (registry (steps program es w0))).
  { induction es as [|e es' IH]; intros w0 H0; [exact H0|].
    rewrite steps_cons. apply IH. destruct e; cbn [step].
    - rewrite registry_memoized. now apply makeKey_regWf.
    - unfold memoize.
      destruct (idForFunction f (registry w0)) as [k r] eqn:E.
      now apply (idForFunction_regWf _ _ _ _ H0) in E.
    - unfold settleUser. now destruct (assoc Nat.eq_dec n (userPromises w0)).
    - unfold runJob.
      destruct (nth_error (jobs w0) i) as [[p key wr|wr o]|]; [| |exact H0].
      + now destruct (promiseState p w0) as [[v|err]|].
      + now destruct (promiseState (LibPromise wr) w0).
    - unfold setup. now destruct (entries now (cache w0)).
    - exact H0.
    - unfold getCacheStats. now destruct (size now (cache w0)). }
  apply G, regWf_empty.
Qed.

End Facade.

(** X11.  A call of a function that does not use the library while it runs
    writes under its own key only: the call returns, and a record found
    under another key after the call is the record that was there before
    the call. *)
Theorem call_keeps_other_records
  (U : Type) (code : nat -> list Value -> U -> Z -> Reentrant.Body U)
  (fuel : nat) (functionKey : string) (f : nat) (args : list Value)
  (now : Z) (w : World U) (k' : string)
  (c : Completion) (u' : U) (t : Z) :
  let key := fst (makeKey functionKey args (registry w)) in
  wf (cache w) ->
  k' <> key ->
  code f args (user w) now = Reentrant.Finish c u' t ->
  exists r w',
    Reentrant.memoized code (S fuel) functionKey f args now w = Some (r, w')
    /\ forall e, map_get k' (items (cache w')) = Some e ->
                 map_get k' (items (cache w)) = Some e.
Proof.
  intros key Hwf Hk Hcode.
  pose proof (get_other_key CacheEntry (cache w) key k' now Hk) as H1.
  destruct (fst (get key now (cache w))) as [entry|] eqn:Hg.
  - rewrite (memoized_on_hit U code fuel functionKey f args now w entry Hg).
    eexists. eexists. split; [reflexivity|].
    cbn [cache with_cache]. fold key. intros e G. now rewrite <- H1.
  - rewrite (memoized_on_miss U code fuel functionKey f args now w Hg).
    rewrite Hcode. cbn [Reentrant.runBody]. fold key.
    assert (Hc0 : cache (Reentrant.entered functionKey f args now w)
                  = snd (get key now (cache w))).
    { unfold key, Reentrant.entered.
      destruct (makeKey functionKey args (registry w)). reflexivity. }
    set (w0 := Reentrant.with_user
                 (Reentrant.entered functionKey f args now w) u').
    assert (Hw0 : cache w0 = snd (get key now (cache w))) by exact Hc0.
    destruct c as [v|err]; cbn [Reentrant.complete].
    + destruct (cacheResult_frame U key v t w0) as (_ & _ & v' & F).
      destruct (Reentrant.cacheResult key v t w0) as [v1 w1]. cbn [snd] in F.
      eexists. eexists. split; [reflexivity|]. intros e G.
      rewrite F, Hw0 in G. rewrite <- H1.
      apply (set_other_key_inv CacheEntry _ key k' v' e t); try assumption.
      now apply wf_get.
    + eexists. eexists. split; [reflexivity|]. intros e G.
      rewrite Hw0 in G. now rewrite <- H1.
Qed.

Lemma call_keeps_other_records_witness :
  let code := fun (_ : nat) (args : list Value) (u : unit) (now : Z) =>
    Reentrant.Finish
      (Normal (VNumber (NumInt (Z.of_nat (List.length args))))) u now in
  let w := snd (Kioku.memoized
                  (fun (_ : nat) (args : list Value) (u : unit) =>
                     (Normal (VNumber (NumInt (Z.of_nat (List.length args)))),
                      u))
                  "fn:0" 0 [VNull] 0 (initialWorld tt)) in
  exists r w',
    Reentrant.memoized code 1 "fn:0" 0 [VUndefined] 5 w = Some (r, w')
    /\ forall e, map_get "fn:0|null" (items (cache w')) = Some e ->
                 map_get "fn:0|null" (items (cache w)) = Some e.
Proof.
  intros code w.
  refine (call_keeps_other_records unit code 0 "fn:0" 0%nat [VUndefined] 5 w
            "fn:0|null" (Normal (VNumber (NumInt 1))) tt 5 _ _ _).
  - vm_compute. repeat constructor. intros [].
  - discriminate.
  - reflexivity.
Defined.

(** Instances. *)

Lemma distinct_arguments_distinct_keys_witness :
  fst (makeKey "fn:0" [VString "1"] emptyRegistry)
  <> fst (makeKey "fn:0" [VNumber (NumInt 1)] emptyRegistry).
Proof.
  refine (proj2 (distinct_arguments_distinct_keys (VString "1")
                   (VNumber (NumInt 1)) emptyRegistry emptyRegistry "fn:0"
                   regWf_empty _ regWf_empty _ _ _)).
  - apply extends_refl.
  - reflexivity.
  - reflexivity.
  - discriminate.
Defined.

Lemma distinct_functions_distinct_keys_witness :
  fst (makeKey "fn:0" [VNull] emptyRegistry)
  <> fst (makeKey "fn:1" [VNull] emptyRegistry).
Proof.
  refine (proj2 (proj2 (distinct_functions_distinct_keys 7 8 emptyRegistry
                          emptyRegistry emptyRegistry [VNull] [VNull]
                          regWf_empty _))).
  discriminate.
Defined.




Lemma fulfilment_keeps_the_record_witness :
  let program := fun (_ : nat) (_ : list Value) (u : nat) =>
    (Normal (VPromise (UserPromise u)), S u) in
  let args := [VNumber (NumInt 7)] in
  let first := memoized program "fn:0" 0 args 0 (initialWorld 0%nat) in
  let w2 := steps program [EvSettle 0 (Fulfilled (VString "ok"))]
              (snd first) in
  let w3 := step program (EvJob 0) w2 in
  cache w3 = cache w2
  /\ fst (memoized program "fn:0" 0 args 5 w3)
     = Normal (VPromise (LibPromise 0)).
Proof.
  intros program args first w2 w3.
  pose proof (fulfilment_keeps_the_record nat program "fn:0" 0%nat args
                (initialWorld 0%nat) 0 5 (UserPromise 0) 1%nat
                [EvSettle 0 (Fulfilled (VString "ok"))] (EvJob 0)
                (VString "ok")) as H.
  cbv zeta in H. destruct H as (_ & H2 & _ & H4).
  - split; [constructor|intros j []].
  - reflexivity.
  - reflexivity.
  - reflexivity.
  - reflexivity.
  - split; [exact H2|]. exact (proj1 (H4 eq_refl)).
Defined.

Lemma facade_capacity_invariant_witness :
  let program := fun (_ : nat) (args : list Value) (u : unit) =>
    (Normal (VNumber (NumInt (Z.of_nat (List.length args)))), u) in
  let w := steps program
             [EvSetup {| cfg_max := Some 1; cfg_ttl := None |} 0;
              EvCall "fn:0" 0 [VNull] 1; EvCall "fn:0" 0 [] 2]
             (initialWorld tt) in
  0 <= fst (fst (getCacheStats 3 w)) <= snd (fst (getCacheStats 3 w))
  /\ snd (fst (getCacheStats 3 w)) = 1.
Proof.
  intros program w.
  pose proof (facade_capacity_invariant unit program
                [EvSetup {| cfg_max := Some 1; cfg_ttl := None |} 0;
                 EvCall "fn:0" 0 [VNull] 1; EvCall "fn:0" 0 [] 2]
                tt 3) as H.
  cbv zeta in H. destruct H as [H1 H2].
  - repeat constructor. vm_compute. discriminate.
  - split; [exact H1|]. exact (eq_trans H2 eq_refl).
Defined.

End FacadeExtras.

(** * Recency, statistics and the delimiter *)

Module MoreExtras.
Import Store StoreFacts StoreOrigin LookupFacts KeyFacts Kioku FacadeFacts.
Import Reconfiguration StoreExtras EncodingFacts IdentityFacts.

#[local] Arguments Z.mul : simpl never.
#[local] Arguments Z.add : simpl never.
#[local] Arguments Z.sub : simpl never.

(** X19.  Where a delimiter can come from: the encoding of [null], of
    [undefined], of a boolean, of a number and of a big integer never
    contains the delimiter; the encoding of a string contains it exactly
    when the string does; and with a registry in order the encoding of a
    function or of an object never contains it.  Nothing is said of
    symbols, whose description goes into the encoding as it is. *)
Theorem delimiter_only_from_strings (v : Value) (r : Registry) :
  match v with
  | VString s =>
      includes delimiter (fst (serializeArgument v r)) = includes delimiter s
  | VSymbol _ => True
  | VFunction _ | VObject _ | VPromise _ | VGenerator _ | VAsyncGenerator _ =>
      regWf r -> includes delimiter (fst (serializeArgument v r)) = false
  | _ => includes delimiter (fst (serializeArgument v r)) = false
  end.
Proof.
  assert (Hid : forall v0, notSymbol v0 = true ->
            (forall s r', serializeArgument v0 r = (s, r') ->
               (exists n, s = "fn:" ++ natToString n)
               \/ (exists n, s = "obj:" ++ natToString n)) ->
            includes delimiter (fst (serializeArgument v0 r)) = false).
  { intros v0 _ H. destruct (serializeArgument v0 r) as [s r'] eqn:E.
    destruct (H s r' eq_refl) as [[n ->]|[n ->]]; cbn;
      apply includes_natToString. }
  pose proof (Serializer.primitive_encoding_delimiter v r) as P.
  destruct v; try exact P; try exact I; intros Hwf; apply Hid;
    try reflexivity; intros s r' E;
    pose proof (encoding_shape _ _ _ _ Hwf E) as S; cbn beta iota in S;
    destruct S as [S _]; [left|right|right|right|right]; exact S.
Qed.

Lemma delimiter_only_from_strings_witness :
  includes delimiter (fst (serializeArgument (VObject 3) emptyRegistry))
  = false.
Proof.
  exact (delimiter_only_from_strings (VObject 3) emptyRegistry regWf_empty).
Defined.

Section Recency.

Variable V : Type.

Implicit Types (c : LruCache V) (e : CacheEntryWrapper V) (k : string).

(** X20.  A hit near capacity protects the entry: when the store is more
    than 90% full, a [get] that returns a record moves it to the most
    recent position, so that the next insertion of another key, which may
    evict, does not evict it (capacity at least 2, the record still live
    at the insertion). *)
Theorem refreshed_entry_survives c k k2 (v : V) e now now2 :
  wf c ->
  2 <= max (options c) ->
  9 * max (options c) < 10 * map_size (items c) ->
  map_get k (items c) = Some e ->
  (hasTtl c = true -> isExpired now e = false /\ isExpired now2 e = false) ->
  k2 <> k ->
  keys (items (snd (get k now c)))
  = (keys (map_delete k (items c)) ++ [k])%list
  /\ map_get k (items (set k2 v now2 (snd (get k now c)))) = Some e.
Proof.
  intros Hwf Hmax Hfull G Hlive Hk.
  assert (Hget : snd (get k now c)
                 = with_items c (map_delete k (items c) ++ [(k, e)])%list).
  { unfold get. rewrite G.
    assert (H : hasTtl c && isExpired now e = false).
    { destruct (hasTtl c); [now apply Hlive|reflexivity]. }
    rewrite H. apply Z.ltb_lt in Hfull. rewrite Hfull. cbn [snd].
    now rewrite map_set_delete. }
  rewrite Hget. cbn [items with_items]. split.
  - rewrite keys_app. reflexivity.
  - set (c1 := with_items c (map_delete k (items c) ++ [(k, e)])%list).
    assert (Hwf1 : wf c1).
    { unfold wf, c1. cbn [items with_items]. rewrite <- map_set_delete.
      now apply NoDup_keys_set_delete. }
    rewrite items_set; [|exact Hwf1|cbn [c1 options with_items]; lia].
    cbn [c1 options with_items items].
    assert (Hd : map_delete k2 (map_delete k (items c) ++ [(k, e)])%list
                 = (map_delete k2 (map_delete k (items c)) ++ [(k, e)])%list).
    { unfold map_delete at 1. rewrite filter_app. cbn [filter fst].
      assert (E : String.eqb k k2 = false) by (apply String.eqb_neq; congruence).
      rewrite E. reflexivity. }
    rewrite Hd, <- app_assoc, live_app.
    set (X := live c1 now2 (map_delete k2 (map_delete k (items c)))).
    assert (Hl : live c1 now2 ([(k, e)] ++ [(k2, newEntry c1 v now2)])%list
                 = [(k, e); (k2, newEntry c1 v now2)]).
    { apply live_id. intros Ht p [<-|[<-|[]]]; cbn [snd].
      - now apply Hlive.
      - unfold isExpired, newEntry. rewrite Ht. cbn [expiresAt].
        apply Z.leb_gt. unfold hasTtl in Ht. apply Z.ltb_lt in Ht.
        change (options c1) with (options c) in *. lia. }
    rewrite Hl.
    destruct (Z.to_nat (max (options c))) as [|[|n]] eqn:En; try lia.
    change (X ++ [(k, e); (k2, ?b)])%list
      with (X ++ ([(k, e)] ++ [(k2, b)]))%list.
    rewrite app_assoc, !lastn_app_one, <- app_assoc, map_get_app.
    destruct (map_get k (lastn n X)) as [e'|] eqn:G'.
    + exfalso. apply map_get_In, In_lastn in G'. unfold X in G'.
      apply live_incl in G'. unfold map_delete in G'.
      apply filter_In in G'. destruct G' as [G' _].
      apply (keys_map_delete V (items c) k).
      unfold keys. apply in_map_iff. now exists (k, e').
    + cbn. now rewrite String.eqb_refl.
Qed.


End Recency.

Lemma refreshed_entry_survives_witness :
  let c := run [OpSet "a" 1%nat 0; OpSet "b" 2%nat 0]
             (new_LruCache {| cfg_max := Some 2; cfg_ttl := Some 100 |}) in
  keys (items (set "c" 3%nat 2 (snd (get "a" 1 c)))) = ["a"; "c"]
  /\ map_get "a" (items (set "c" 3%nat 2 (snd (get "a" 1 c))))
     = Some {| value := 1%nat; expiresAt := Some 100 |}.
Proof.
  intros c. split; [reflexivity|].
  refine (proj2 (refreshed_entry_survives nat c "a" "c" 3%nat
                   {| value := 1%nat; expiresAt := Some 100 |} 1 2
                   _ _ _ _ _ _)).
  - apply wf_run, wf_new.
  - vm_compute. discriminate.
  - vm_compute. reflexivity.
  - reflexivity.
  - intros _. split; reflexivity.
  - discriminate.
Defined.


Section ReadBack.

Variable U : Type.
Variable program : nat -> list Value -> U -> Completion * U.


End ReadBack.



Lemma get_keeps_records_witness :
  let c := run [OpSet "a" 1%nat 0; OpSet "b" 2%nat 0]
             (new_LruCache {| cfg_max := Some 2; cfg_ttl := Some 100 |}) in
  map_get "b" (items (snd (get "a" 1 c))) = map_get "b" (items c).
Proof.
  intros c.
  exact (proj1 (get_keeps_records nat c "a" "b" 1) ltac:(discriminate)).
Defined.

Lemma has_agrees_with_get_witness :
  let c := run [OpSet "a" 1%nat 0; OpSet "b" 2%nat 0]
             (new_LruCache {| cfg_max := Some 2; cfg_ttl := Some 100 |}) in
  snd (has "a" 1 c) = c.
Proof.
  intros c.
  exact (proj1 (proj2 (has_agrees_with_get nat c "a" 1)) eq_refl).
Defined.

End MoreExtras.
